(** * canvas2toml: the codec, the quiz-CSV transform, the upload
    orchestrator and the report poller, embedded and verified.

    Python [str] values are modelled as lists of characters whose code
    points are below 256 (Rocq's [ascii], read as Latin-1); the character
    classes used by [str.strip], [str.splitlines], [str.lower] and the
    regular expressions of [textwrap] are written out for that range. *)

From Stdlib Require Import String Ascii List Bool Arith ZArith Lia.
From Stdlib Require Import Sorting.Sorted Sorting.Permutation.
From Stdlib Require Import Floats.SpecFloat.
From Stdlib Require DecimalString.
Import ListNotations.

(** ** Python strings *)

Module PyStr.

Definition str := list ascii.

Definition lit (s : string) : str := list_ascii_of_string s.

Definition code (c : ascii) : nat := nat_of_ascii c.
Definition chr (n : nat) : ascii := ascii_of_nat n.

Definition TAB : ascii := chr 9.
Definition NL : ascii := chr 10.
Definition CR : ascii := chr 13.
Definition SP : ascii := chr 32.
Definition DQ : ascii := chr 34.
Definition BSL : ascii := chr 92.
Definition HYPHEN : ascii := chr 45.

(** Membership of a code point in a list of code points. *)
Definition code_in (c : ascii) (l : list nat) : bool :=
  existsb (Nat.eqb (code c)) l.

Definition between (lo hi : nat) (c : ascii) : bool :=
  (lo <=? code c) && (code c <=? hi).

(** [str.isspace] on one character: the characters [str.strip] removes. *)
Definition isspace (c : ascii) : bool :=
  code_in c [9; 10; 11; 12; 13; 28; 29; 30; 31; 32; 133; 160].

(** The line boundaries of [str.splitlines]. *)
Definition is_linebreak (c : ascii) : bool :=
  code_in c [10; 11; 12; 13; 28; 29; 30; 133].

Definition is_decimal (c : ascii) : bool := between 48 57 c.

(** [str.isalnum] on one character. *)
Definition isalnum (c : ascii) : bool :=
  between 48 57 c || between 65 90 c || between 97 122 c
  || code_in c [170; 178; 179; 181; 185; 186; 188; 189; 190]
  || between 192 214 c || between 216 246 c || between 248 255 c.

(** [str.lower] on one character. *)
Definition lower_char (c : ascii) : ascii :=
  if between 65 90 c || between 192 214 c || between 216 222 c
  then chr (code c + 32) else c.

Definition lower (s : str) : str := map lower_char s.

Fixpoint lstrip (s : str) : str :=
  match s with
  | c :: r => if isspace c then lstrip r else s
  | [] => []
  end.

Definition rstrip (s : str) : str := rev (lstrip (rev s)).

(** [s.strip()] *)
Definition strip (s : str) : str := rstrip (lstrip s).

(** [s.strip() == ''] *)
Definition is_blank (s : str) : bool := forallb isspace s.

(** [c in s] for a single character [c]. *)
Definition contains (c : ascii) (s : str) : bool := existsb (Ascii.eqb c) s.

(** [s.startswith(p)], returning what follows the prefix. *)
Fixpoint strip_prefix (p s : str) : option str :=
  match p, s with
  | [], _ => Some s
  | a :: p', b :: s' => if Ascii.eqb a b then strip_prefix p' s' else None
  | _ :: _, [] => None
  end.

(** [s.replace(old, new)] for a non-empty [old]: occurrences are replaced
    from the left and do not overlap.  The recursion is on a counter that
    starts at the length of the text and is never used up
    ([replace_unfold] below). *)
Fixpoint replace_n (n : nat) (old new s : str) : str :=
  match n with
  | 0 => s
  | S n' =>
      match s with
      | [] => []
      | c :: r =>
          match strip_prefix old s with
          | Some rest => new ++ replace_n n' old new rest
          | None => c :: replace_n n' old new r
          end
      end
  end.

Definition replace (old new s : str) : str := replace_n (length s) old new s.

(** [sep.join(parts)] *)
Fixpoint join (sep : str) (parts : list str) : str :=
  match parts with
  | [] => []
  | [p] => p
  | p :: rest => p ++ sep ++ join sep rest
  end.

(** [s.split(sep, 1)] for a one-character separator: the text before the
    first separator and the text after it, or [None] when there is no
    separator (Python then returns the one-element list [[s]]). *)
Fixpoint split1 (sep : ascii) (s : str) : option (str * str) :=
  match s with
  | [] => None
  | c :: r =>
      if Ascii.eqb c sep then Some ([], r)
      else match split1 sep r with
           | Some (a, b) => Some (c :: a, b)
           | None => None
           end
  end.

(** [s.splitlines()]: [cur] is the line being read.  A final line without
    terminator is kept when it is not empty; CR LF counts as one
    boundary. *)
Fixpoint splitlines_from (cur : str) (s : str) : list str :=
  match s with
  | [] => match cur with [] => [] | _ => [cur] end
  | c :: r =>
      if is_linebreak c then
        cur :: match r with
               | d :: r' =>
                   if Ascii.eqb c CR && Ascii.eqb d NL
                   then splitlines_from [] r'
                   else splitlines_from [] r
               | [] => []
               end
      else splitlines_from (cur ++ [c]) r
  end.

Definition splitlines (s : str) : list str := splitlines_from [] s.

(** [s.expandtabs(tabsize)] *)
Fixpoint expandtabs_from (tabsize col : nat) (s : str) : str :=
  match s with
  | [] => []
  | c :: r =>
      if Ascii.eqb c TAB then
        if 0 <? tabsize then
          let incr := tabsize - col mod tabsize in
          repeat SP incr ++ expandtabs_from tabsize (col + incr) r
        else expandtabs_from tabsize col r
      else if Ascii.eqb c NL || Ascii.eqb c CR
           then c :: expandtabs_from tabsize 0 r
           else c :: expandtabs_from tabsize (col + 1) r
  end.

Definition expandtabs (tabsize : nat) (s : str) : str :=
  expandtabs_from tabsize 0 s.

(** The longest prefix whose characters satisfy [p], and the rest. *)
Fixpoint span (p : ascii -> bool) (s : str) : str * str :=
  match s with
  | c :: r => if p c then let '(a, b) := span p r in (c :: a, b) else ([], s)
  | [] => ([], [])
  end.

(** Comparison of strings as Python does it: lexicographic on code
    points. *)
Fixpoint str_compare (a b : str) : comparison :=
  match a, b with
  | [], [] => Eq
  | [], _ :: _ => Lt
  | _ :: _, [] => Gt
  | x :: a', y :: b' =>
      match Nat.compare (code x) (code y) with
      | Eq => str_compare a' b'
      | o => o
      end
  end.

Definition str_ltb (a b : str) : bool :=
  match str_compare a b with Lt => true | _ => false end.


Definition str_eqb (a b : str) : bool :=
  match str_compare a b with Eq => true | _ => false end.


End PyStr.

Import PyStr.

(** ** [textwrap.fill], as [toml_string] calls it

    [textwrap.fill(p, 80)] builds a [TextWrapper] with the default options
    ([expand_tabs], [replace_whitespace], [drop_whitespace],
    [break_long_words] and [break_on_hyphens] on, [tabsize] 8, empty
    indents, no [max_lines], [fix_sentence_endings] off).  The definitions
    follow [Lib/textwrap.py] with these options fixed. *)

Module Textwrap.

(** The class [whitespace] of the module: tab, LF, VT, FF, CR, space. *)
Definition is_ws (c : ascii) : bool := code_in c [9; 10; 11; 12; 13; 32].

(** [\w] *)
Definition is_word (c : ascii) : bool := isalnum c || (code c =? 95).

(** [letter], that is [[^\d\W]] *)
Definition is_letter (c : ascii) : bool := is_word c && negb (is_decimal c).

(** [word_punct]: [\w], exclamation mark, double quote, quote, ampersand,
    full stop, comma, question mark. *)
Definition is_word_punct (c : ascii) : bool :=
  is_word c || code_in c [33; 34; 39; 38; 46; 44; 63].

Definition is_hyphen (c : ascii) : bool := Ascii.eqb c HYPHEN.

Definition _munge_whitespace (text : str) : str :=
  map (fun c => if is_ws c then SP else c) (expandtabs 8 text).

(** Lookahead [(?=-{2,}\w)]. *)
Definition emdash_ahead (s : str) : bool :=
  let '(h, r) := span is_hyphen s in
  (2 <=? length h) && match r with c :: _ => is_word c | [] => false end.

(** Lookbehind [(?<=wp)]; [before] is the text already read, last
    character first. *)
Definition word_punct_behind (before : str) : bool :=
  match before with p :: _ => is_word_punct p | [] => false end.

(** Lookbehinds [(?<=lt{2}-)] and [(?<=lt-lt-)] taken just after a hyphen;
    [before] is the text in front of that hyphen, last character first. *)
Definition hyphen_behind (before : str) : bool :=
  match before with
  | p1 :: p2 :: t =>
      is_letter p1
      && (is_letter p2
          || (is_hyphen p2 && match t with p3 :: _ => is_letter p3 | [] => false end))
  | _ => false
  end.

(** Lookahead [(?= lt -? lt)]. *)
Definition hyphen_ahead (s : str) : bool :=
  match s with
  | a :: b :: r =>
      is_letter a
      && ((is_hyphen b && match r with c :: _ => is_letter c | [] => false end)
          || is_letter b)
  | _ => false
  end.

(** The third alternative of [wordsep_re] once its lazy [nws+?] has read
    the characters [acc]: it stops after a hyphen of a hyphenated word,
    in front of whitespace or at the end of the text, or in front of an
    em-dash; otherwise [nws+?] reads one more character. *)
Fixpoint word_end (before acc s : str) : str * str :=
  match s with
  | [] => (acc, [])
  | c :: r =>
      if is_hyphen c && hyphen_behind before && hyphen_ahead r
      then (acc ++ [c], r)
      else if is_ws c then (acc, s)
      else if word_punct_behind before && emdash_ahead s then (acc, s)
      else word_end (c :: before) (acc ++ [c]) r
  end.

(** One match of [wordsep_re] at the start of [s], with the text that
    follows it.  Every position of a non-empty text has a non-empty
    match. *)
Definition match_chunk (before s : str) : option (str * str) :=
  match s with
  | [] => None
  | c :: r =>
      if is_ws c then Some (span is_ws s)
      else if word_punct_behind before && emdash_ahead s
           then Some (span is_hyphen s)
           else Some (word_end (c :: before) [c] r)
  end.

(** [wordsep_re.split(text)] without its empty strings: as the matches
    follow one another without a gap, the chunks are the matches.  The
    counter starts at the length of the text, which is enough to read all
    of it ([split_concat] below). *)
Fixpoint split_n (n : nat) (before s : str) : list str :=
  match n with
  | 0 => []
  | S n' =>
      match match_chunk before s with
      | None => []
      | Some (chunk, rest) => chunk :: split_n n' (rev chunk ++ before) rest
      end
  end.

Definition _split (text : str) : list str := split_n (length text) [] text.

Definition _split_chunks (text : str) : list str :=
  _split (_munge_whitespace text).

(** [chunk.rfind('-', 0, stop)] *)
Fixpoint rfind_from (i stop : nat) (c : ascii) (s : str) : option nat :=
  match s with
  | [] => None
  | x :: r =>
      if stop <=? i then None
      else match rfind_from (S i) stop c r with
           | Some j => Some j
           | None => if Ascii.eqb x c then Some i else None
           end
  end.

Definition rfind (c : ascii) (stop : nat) (s : str) : option nat :=
  rfind_from 0 stop c s.

(** [_handle_long_word] with [break_long_words] and [break_on_hyphens] on.
    The chunks are kept first to last, where the code keeps them reversed
    and pops from the end.  [cur_len <= width] holds at the call, so the
    subtraction does not go below zero. *)
Definition _handle_long_word (chunks cur_line : list str) (cur_len width : nat)
  : list str * list str :=
  match chunks with
  | [] => (chunks, cur_line)
  | chunk :: rest =>
      let space_left := if width <? 1 then 1 else width - cur_len in
      let end_ :=
        if space_left <? length chunk then
          match rfind HYPHEN space_left chunk with
          | Some hyphen =>
              if (0 <? hyphen)
                 && existsb (fun c => negb (is_hyphen c)) (firstn hyphen chunk)
              then hyphen + 1 else space_left
          | None => space_left
          end
        else space_left in
      (skipn end_ chunk :: rest, cur_line ++ [firstn end_ chunk])
  end.

(** The inner loop of [_wrap_chunks]: chunks are moved to the current line
    while they fit. *)
Fixpoint take_fitting (width : nat) (chunks cur_line : list str) (cur_len : nat)
  : list str * list str * nat :=
  match chunks with
  | c :: rest =>
      if cur_len + length c <=? width
      then take_fitting width rest (cur_line ++ [c]) (cur_len + length c)
      else (chunks, cur_line, cur_len)
  | [] => ([], cur_line, cur_len)
  end.

(** [del cur_line[-1]] when the last chunk of the line is blank. *)
Definition drop_trailing_blank (cur_line : list str) : list str :=
  match rev cur_line with
  | c :: _ => if is_blank c then removelast cur_line else cur_line
  | [] => cur_line
  end.

(** One pass of the outer loop of [_wrap_chunks] on a non-empty list of
    chunks: the chunks left and the lines so far. *)
Definition wrap_step (width : nat) (chunks lines : list str)
  : list str * list str :=
  let chunks1 :=
    match chunks with
    | c :: rest =>
        if is_blank c && negb (match lines with [] => true | _ => false end)
        then rest else chunks
    | [] => chunks
    end in
  let '(chunks2, cur_line, cur_len) := take_fitting width chunks1 [] 0 in
  let '(chunks3, cur_line3) :=
    match chunks2 with
    | c :: _ =>
        if width <? length c
        then _handle_long_word chunks2 cur_line cur_len width
        else (chunks2, cur_line)
    | [] => (chunks2, cur_line)
    end in
  let cur_line4 := drop_trailing_blank cur_line3 in
  match cur_line4 with
  | [] => (chunks3, lines)
  | _ => (chunks3, lines ++ [concat cur_line4])
  end.

(** [while chunks: ...], with a bound on the number of passes; [None] when
    the bound is reached with chunks left. *)
Fixpoint wrap_loop (n width : nat) (chunks lines : list str)
  : option (list str) :=
  match chunks with
  | [] => Some lines
  | _ :: _ =>
      match n with
      | 0 => None
      | S n' =>
          let '(chunks', lines') := wrap_step width chunks lines in
          wrap_loop n' width chunks' lines'
      end
  end.

(** Every pass takes a chunk or at least one character of a chunk away,
    so this many passes are enough. *)
Definition passes (chunks : list str) : nat :=
  fold_right (fun c n => S (length c) + n) 0 chunks.

(** [_wrap_chunks] for a positive width (the code raises [ValueError] for
    [width <= 0], which [fill(p, 80)] does not reach).  The bound is never
    reached: [wrap_chunks_total] below. *)
Definition _wrap_chunks (width : nat) (chunks : list str) : list str :=
  match wrap_loop (passes chunks) width chunks [] with
  | Some lines => lines
  | None => []
  end.

Definition wrap (text : str) (width : nat) : list str :=
  _wrap_chunks width (_split_chunks text).

Definition fill (text : str) (width : nat) : str :=
  join [NL] (wrap text width).

End Textwrap.

(** ** Python values and the built-ins [int] and [float] on strings *)

(** [None] and the scalar values that occur in the parsed CSV, in TOML
    tables and in the JSON of the remote service.  A
    float is an IEEE binary64 number, [SpecFloat]'s [spec_float] with a
    53-bit mantissa. *)
Inductive pyval : Type :=
  | VNone
  | VBool (b : bool)
  | VInt (z : Z)
  | VFloat (f : spec_float)
  | VStr (s : str).

(** [bool(v)] *)
Definition truthy (v : pyval) : bool :=
  match v with
  | VNone => false
  | VBool b => b
  | VInt z => negb (Z.eqb z 0)
  | VFloat (S754_zero _) => false
  | VFloat _ => true
  | VStr s => match s with [] => false | _ => true end
  end.

Module PyNum.

Definition digit_value (c : ascii) : Z := Z.of_nat (code c) - 48.

Definition digits_value (ds : list ascii) : Z :=
  fold_left (fun acc d => 10 * acc + digit_value d)%Z ds 0%Z.

Definition is_underscore (c : ascii) : bool := code c =? 95.

(** What follows the first digit of a [digitpart]: further digits, each
    possibly preceded by one underscore.  Returns the digits and the text
    that is left. *)
Fixpoint digitpart_tail (s : str) : list ascii * str :=
  match s with
  | [] => ([], [])
  | c :: r =>
      if is_decimal c then
        let '(ds, rest) := digitpart_tail r in (c :: ds, rest)
      else if is_underscore c then
        match r with
        | d :: r' =>
            if is_decimal d then
              let '(ds, rest) := digitpart_tail r' in (d :: ds, rest)
            else ([], s)
        | [] => ([], s)
        end
      else ([], s)
  end.

(** [digitpart ::= digit (["_"] digit)*] *)
Definition digitpart (s : str) : option (list ascii * str) :=
  match s with
  | c :: r =>
      if is_decimal c then
        let '(ds, rest) := digitpart_tail r in Some (c :: ds, rest)
      else None
  | [] => None
  end.

(** An optional sign: [true] for a minus. *)
Definition take_sign (s : str) : bool * str :=
  match s with
  | c :: r =>
      if code c =? 43 then (false, r)
      else if code c =? 45 then (true, r)
      else (false, s)
  | [] => (false, s)
  end.

(** [sys.int_max_str_digits], the default limit on the digits [int]
    converts. *)
Definition int_max_str_digits : nat := 4300.

(** [int(s)] for a string without surrounding whitespace; [None] stands
    for [ValueError]. *)
Definition py_int (s : str) : option Z :=
  let '(neg, r) := take_sign s in
  match digitpart r with
  | Some (ds, []) =>
      if int_max_str_digits <? length ds then None
      else Some (if neg then - digits_value ds else digits_value ds)%Z
  | _ => None
  end.

(** The binary64 number nearest to [n / d] for positive [n] and [d], ties
    to even: 53 bits of mantissa, exponents from -1074 to 971. *)
Definition round_binary64 (neg : bool) (n d : Z) : spec_float :=
  let k := (Z.log2 n - Z.log2 d)%Z in
  let fl := (if (if 0 <=? k then d * 2 ^ k <=? n else d <=? n * 2 ^ (- k))
             then k else k - 1)%Z in
  let e := Z.max (fl - 52) (-1074) in
  let num := (if 0 <=? e then n else n * 2 ^ (- e))%Z in
  let den := (if 0 <=? e then d * 2 ^ e else d)%Z in
  let q := (num / den)%Z in
  let r := (num mod den)%Z in
  let up := ((den <? 2 * r) || ((den =? 2 * r) && Z.odd q))%Z in
  let q1 := (if up then q + 1 else q)%Z in
  let '(m, e1) := (if q1 =? 2 ^ 53 then (2 ^ 52, e + 1) else (q1, e))%Z in
  if (971 <? e1)%Z then S754_infinity neg
  else match m with
       | Zpos p => S754_finite neg p e1
       | _ => S754_zero neg
       end.

(** The float written [m * 10 ^ e10] with [m] given by [count] digits.  A
    value of at least [10 ^ 310] is beyond the largest float and one below
    [10 ^ -330] is under half the smallest, whatever the digits. *)
Definition decimal_to_float (neg : bool) (m : Z) (count : nat) (e10 : Z)
  : spec_float :=
  if (m =? 0)%Z then S754_zero neg
  else if (310 <=? e10)%Z then S754_infinity neg
  else if (Z.of_nat count + e10 <=? -330)%Z then S754_zero neg
  else if (0 <=? e10)%Z then round_binary64 neg (m * 10 ^ e10) 1
  else round_binary64 neg m (10 ^ (- e10)).

Definition ascii_lower_char (c : ascii) : ascii :=
  if between 65 90 c then chr (code c + 32) else c.

(** [number ::= [digitpart] "." digitpart | digitpart ["."]]: the digits
    before and after the point and the text that is left. *)
Definition number (s : str) : option (list ascii * list ascii * str) :=
  match digitpart s with
  | Some (ip, r1) =>
      match r1 with
      | c :: r2 =>
          if code c =? 46 then
            match digitpart r2 with
            | Some (fp, r3) => Some (ip, fp, r3)
            | None => Some (ip, [], r2)
            end
          else Some (ip, [], r1)
      | [] => Some (ip, [], [])
      end
  | None =>
      match s with
      | c :: r2 =>
          if code c =? 46 then
            match digitpart r2 with
            | Some (fp, r3) => Some ([], fp, r3)
            | None => None
            end
          else None
      | [] => None
      end
  end.

(** [exponent ::= ("e" | "E") [sign] digitpart], to the end of the text;
    no exponent is exponent 0. *)
Definition exponent (s : str) : option Z :=
  match s with
  | [] => Some 0%Z
  | c :: r =>
      if code (ascii_lower_char c) =? 101 then
        let '(neg, r1) := take_sign r in
        match digitpart r1 with
        | Some (ds, []) =>
            Some (if neg then - digits_value ds else digits_value ds)%Z
        | _ => None
        end
      else None
  end.

(** [float(s)] for a string without surrounding whitespace; [None] stands
    for [ValueError]. *)
Definition py_float (s : str) : option spec_float :=
  let '(neg, r) := take_sign s in
  let word := map ascii_lower_char r in
  if str_eqb word (lit "inf") || str_eqb word (lit "infinity")
  then Some (S754_infinity neg)
  else if str_eqb word (lit "nan") then Some S754_nan
  else
    match number r with
    | Some (ip, fp, rest) =>
        match exponent rest with
        | Some ex =>
            Some (decimal_to_float neg (digits_value (ip ++ fp))
                    (length (ip ++ fp)) (ex - Z.of_nat (length fp)))
        | None => None
        end
    | None => None
    end.

End PyNum.

(** ** [try_int] *)

(** The bare [except:] clauses catch every error of [int] and of
    [float]. *)
Definition try_int (s : str) : pyval :=
  let s := strip s in
  match PyNum.py_int s with
  | Some z => VInt z
  | None =>
      match PyNum.py_float s with
      | Some f => VFloat f
      | None => VInt 0
      end
  end.

(** ** Errors *)

Inductive exn : Type :=
  | IndexError
  | TypeError
  | ValueError
  | AttributeError
  | HTTPError
  | TimeoutError
  | RuntimeError.

Inductive result (A : Type) : Type :=
  | Ok (a : A)
  | Raise (e : exn).

Arguments Ok {A} a.
Arguments Raise {A} e.

Definition bind {A B : Type} (r : result A) (k : A -> result B) : result B :=
  match r with
  | Ok a => k a
  | Raise e => Raise e
  end.

Notation "x <- r ;; k" := (bind r (fun x => k))
  (at level 61, r at next level, right associativity).
Notation "' p <- r ;; k" := (bind r (fun x => let p := x in k))
  (at level 61, p pattern, r at next level, right associativity).

(** [l[i]] for an index that is a non-negative integer or [None]. *)
Definition index {A : Type} (l : list A) (i : option nat) : result A :=
  match i with
  | None => Raise TypeError
  | Some n =>
      match nth_error l n with
      | Some x => Ok x
      | None => Raise IndexError
      end
  end.

(** ** Dictionaries with string keys *)

Definition dict := list (str * pyval).

Fixpoint lookup (d : dict) (k : str) : option pyval :=
  match d with
  | [] => None
  | (k', v) :: r => if str_eqb k' k then Some v else lookup r k
  end.

(** [k in d] *)
Definition has_key (d : dict) (k : str) : bool :=
  match lookup d k with Some _ => true | None => false end.

(** [d.get(k, default)] *)
Definition get_default (d : dict) (k : str) (default : pyval) : pyval :=
  match lookup d k with Some v => v | None => default end.

(** [d.get(k)] *)
Definition get (d : dict) (k : str) : pyval := get_default d k VNone.

(** [a or b] *)
Definition por (a b : pyval) : pyval := if truthy a then a else b.

(** [str(z)] for an integer. *)
Definition str_of_Z (z : Z) : str :=
  list_ascii_of_string (DecimalString.NilZero.string_of_int (Z.to_int z)).

(** ** [name_lf] *)

(** [parts = name.split(" ", 1)]; two parts give ["{parts[1]}, {parts[0]}"]. *)
Definition name_lf (name : str) : str :=
  match split1 SP name with
  | Some (first, rest) => rest ++ lit ", " ++ first
  | None => name
  end.

(** ** [toml_escape_basic] and [toml_string] *)

Definition toml_escape_basic (s : str) : str :=
  let s := replace [DQ] [BSL; DQ] (replace [BSL] [BSL; BSL] s) in
  let s := replace [CR] [NL] (replace [CR; NL] [NL] s) in
  s.

(** Three double quotes. *)
Definition TRIPLE : str := [DQ; DQ; DQ].

(** The first statement of [toml_string]: every line of the escaped text
    is filled to 80 columns and the results are joined by newlines. *)
Definition wrapped (s : str) : str :=
  join [NL] (map (fun p => Textwrap.fill p 80)
               (splitlines (toml_escape_basic s))).

(** The code binds [esc] and returns the block built from [s]. *)
Definition toml_string (s : str) : str :=
  let s := wrapped s in
  if contains NL s then
    let esc := replace TRIPLE (BSL :: TRIPLE) s in
    TRIPLE ++ [NL] ++ s ++ [NL] ++ TRIPLE
  else [DQ] ++ s ++ [DQ].

(** ** [sorted(xs, key=f)]

    Python's sort is stable and compares keys with [<] only: the result
    is the stable arrangement of the elements by key, which this insertion
    sort computes. *)

Section SortedBy.

Context {A K : Type}.
Variable ltb : K -> K -> bool.
Variable key : A -> K.

Fixpoint insert_by (x : A) (l : list A) : list A :=
  match l with
  | [] => [x]
  | y :: r => if ltb (key y) (key x) then y :: insert_by x r else x :: l
  end.

Definition sorted_by (l : list A) : list A := fold_right insert_by [] l.


End SortedBy.

(** ** [parse_quiz_csv]

    The rows are taken as [csv.reader] yields them: a header row and the
    data rows, each a list of cells. *)

Record analysis : Type := {
  names : list str;
  ids : list str;
  sis_ids : list str;
  questions : list str;
  answers : list (list str);
  points : list (option (list pyval));
  max_points : list pyval
}.

(** [re.match] of the question pattern on [col_name] and its group 1: the
    pattern asks for decimal digits, a colon and whitespace ([\d+], [:],
    [\s+]); the group is the text that follows, up to a line feed. *)
Definition question_prompt (col_name : str) : option str :=
  let '(ds, r) := span is_decimal col_name in
  match ds, r with
  | _ :: _, c :: r1 =>
      if code c =? 58 then
        let '(ws, r2) := span isspace r1 in
        match ws with
        | [] => None
        | _ => Some (fst (span (fun x => negb (Ascii.eqb x NL)) r2))
        end
      else None
  | _, _ => None
  end.

Record columns : Type := {
  name_col : option nat;
  id_col : option nat;
  sis_id_col : option nat;
  q_col : list nat;
  q_prompts : list str;
  q_max_points : list pyval
}.

Definition no_columns : columns :=
  {| name_col := None; id_col := None; sis_id_col := None;
     q_col := []; q_prompts := []; q_max_points := [] |}.

(** [for i, col_name in enumerate(headers)], from column [i] on. *)
Fixpoint scan_headers (headers : list str) (i : nat) (todo : list str)
    (st : columns) : result columns :=
  match todo with
  | [] => Ok st
  | col_name :: todo' =>
      if str_eqb col_name (lit "name") then
        scan_headers headers (S i) todo'
          {| name_col := Some i; id_col := id_col st;
             sis_id_col := sis_id_col st; q_col := q_col st;
             q_prompts := q_prompts st; q_max_points := q_max_points st |}
      else if str_eqb col_name (lit "id") then
        scan_headers headers (S i) todo'
          {| name_col := name_col st; id_col := Some i;
             sis_id_col := sis_id_col st; q_col := q_col st;
             q_prompts := q_prompts st; q_max_points := q_max_points st |}
      else if str_eqb col_name (lit "sis_id") then
        scan_headers headers (S i) todo'
          {| name_col := name_col st; id_col := id_col st;
             sis_id_col := Some i; q_col := q_col st;
             q_prompts := q_prompts st; q_max_points := q_max_points st |}
      else
        match question_prompt col_name with
        | Some prompt =>
            next <- index headers (Some (i + 1)) ;;
            scan_headers headers (S i) todo'
              {| name_col := name_col st; id_col := id_col st;
                 sis_id_col := sis_id_col st; q_col := q_col st ++ [i];
                 q_prompts := q_prompts st ++ [prompt];
                 q_max_points := q_max_points st ++ [try_int next] |}
        | None => scan_headers headers (S i) todo' st
        end
  end.

(** [for i, q in enumerate(q_col)]: the cell of the question is appended
    to its answers and the coerced next cell to its points. *)
Fixpoint read_questions (row : list str) (qs : list nat)
    (ans : list (list str)) (pts : list (list pyval))
  : result (list (list str) * list (list pyval)) :=
  match qs, ans, pts with
  | q :: qs', a :: ans', p :: pts' =>
      x <- index row (Some q) ;;
      y <- index row (Some (q + 1)) ;;
      ' (ans2, pts2) <- read_questions row qs' ans' pts' ;;
      Ok ((a ++ [x]) :: ans2, (p ++ [try_int y]) :: pts2)
  | _, _, _ => Ok (ans, pts)
  end.

Record table : Type := {
  t_names : list str;
  t_ids : list str;
  t_sis_ids : list str;
  t_answers : list (list str);
  t_points : list (list pyval)
}.

(** [for row in reader] *)
Fixpoint read_rows (cols : columns) (rows : list (list str)) (t : table)
  : result table :=
  match rows with
  | [] => Ok t
  | row :: rows' =>
      n <- index row (name_col cols) ;;
      i <- index row (id_col cols) ;;
      s <- index row (sis_id_col cols) ;;
      ' (ans, pts) <- read_questions row (q_col cols) (t_answers t) (t_points t) ;;
      read_rows cols rows'
        {| t_names := t_names t ++ [n]; t_ids := t_ids t ++ [i];
           t_sis_ids := t_sis_ids t ++ [s];
           t_answers := ans; t_points := pts |}
  end.

(** [p if any(p) else None] *)
Definition collapse_points (p : list pyval) : option (list pyval) :=
  if existsb truthy p then Some p else None.

Definition parse_quiz_csv (headers : list str) (rows : list (list str))
  : result analysis :=
  cols <- scan_headers headers 0 headers no_columns ;;
  t <- read_rows cols rows
         {| t_names := []; t_ids := []; t_sis_ids := [];
            t_answers := map (fun _ => []) (q_col cols);
            t_points := map (fun _ => []) (q_col cols) |} ;;
  Ok {| names := t_names t; ids := t_ids t; sis_ids := t_sis_ids t;
        questions := q_prompts cols; answers := t_answers t;
        points := map collapse_points (t_points t);
        max_points := q_max_points cols |}.

(** ** [generate_quiz_toml]

    The document is the concatenation of the fragments the code appends
    to [tout]; each fragment is kept with what it is. *)

Inductive emission : Type :=
  | Header (text : str)
  | QuestionInfo (qn : nat) (text : str)
  | SubmissionHead (i : nat) (text : str)
  | AnswerLine (i qn : nat) (text : str)
  | PointsLine (i qn : nat) (text : str)
  | BlankLine (i qn : nat).

Definition emitted (e : emission) : str :=
  match e with
  | Header t | QuestionInfo _ t | SubmissionHead _ t
  | AnswerLine _ _ t | PointsLine _ _ t => t
  | BlankLine _ _ => [NL]
  end.

Section Codec.

(** [repr] of a float and [markdownify] are taken as given. *)
Variable float_repr : spec_float -> str.
Variable md : pyval -> result str.

(** [str(v)], as an f-string formats [v]. *)
Definition py_str (v : pyval) : str :=
  match v with
  | VNone => lit "None"
  | VBool true => lit "True"
  | VBool false => lit "False"
  | VInt z => str_of_Z z
  | VFloat f => float_repr f
  | VStr s => s
  end.

(** [toml_string(v)] calls [v.replace]: only a string has it. *)
Definition toml_string_of (v : pyval) : result str :=
  match v with
  | VStr s => Ok (toml_string s)
  | _ => Raise AttributeError
  end.

(** The name of the field of question [qn] (counted from 0): [q<qn+1>]. *)
Definition qname (qn : nat) : str := lit "q" ++ str_of_Z (Z.of_nat (qn + 1)).

(** [name = value] for an id that is not [None]. *)
Definition id_line (name : str) (v : pyval) : list emission :=
  match v with
  | VNone => []
  | v => [Header (name ++ lit " = " ++ py_str v ++ [NL])]
  end.

(** [if 'title' in quiz_info: ...] *)
Definition title_line (quiz_info : dict) : result (list emission) :=
  match lookup quiz_info (lit "title") with
  | Some v => t <- toml_string_of v ;; Ok [Header (lit "title = " ++ t ++ [NL])]
  | None => Ok []
  end.

(** [if 'description' in quiz_info: ...] *)
Definition description_line (quiz_info : dict) : result (list emission) :=
  match lookup quiz_info (lit "description") with
  | Some v =>
      m <- md v ;;
      Ok [Header (lit "description = " ++ toml_string m ++ [NL])]
  | None => Ok []
  end.

(** [for key, value in prepend_info.items()] *)
Fixpoint prepend_lines (items : list (str * pyval)) : result (list emission) :=
  match items with
  | [] => Ok []
  | (k, v) :: rest =>
      t <- toml_string_of v ;;
      more <- prepend_lines rest ;;
      Ok (Header (k ++ lit " = " ++ t ++ [NL]) :: more)
  end.

Definition quiz_header (quiz_info : dict) (prepend_info : list (str * pyval))
  : result (list emission) :=
  let assignment_id :=
    por (get quiz_info (lit "assignment_id")) (get quiz_info (lit "id")) in
  let quiz_id := por (get quiz_info (lit "quiz_id")) (get quiz_info (lit "id")) in
  l3 <- title_line quiz_info ;;
  l4 <- description_line quiz_info ;;
  l5 <- prepend_lines prepend_info ;;
  Ok (id_line (lit "assignment_id") assignment_id ++ id_line (lit "quiz_id") quiz_id
      ++ l3 ++ l4 ++ [Header [NL]] ++ l5).

(** [for qn, prompt in enumerate(student_analysis['questions'])] *)
Fixpoint quiz_questions (sa : analysis) (qn : nat) (prompts : list str)
  : result (list emission) :=
  match prompts with
  | [] => Ok []
  | prompt :: rest =>
      mp <- index (max_points sa) (Some qn) ;;
      more <- quiz_questions sa (S qn) rest ;;
      Ok (QuestionInfo qn
            ([NL] ++ qname qn ++ lit "_prompt = " ++ toml_string prompt ++ [NL]
             ++ qname qn ++ lit "_max_points = " ++ py_str mp ++ [NL]) :: more)
  end.

(** [if pts:] for a list or [None]. *)
Definition has_points (pts : option (list pyval)) : bool :=
  match pts with
  | Some (_ :: _) => true
  | _ => false
  end.

(** [for qn, (ans, pts) in enumerate(zip(answers, points))] for student
    [i]. *)
Fixpoint submission_fields (i qn : nat)
    (cols : list (list str * option (list pyval))) : result (list emission) :=
  match cols with
  | [] => Ok []
  | (ans, pts) :: rest =>
      a <- index ans (Some i) ;;
      l <- (if has_points pts then
              p <- index (match pts with Some l => l | None => [] end) (Some i) ;;
              Ok [PointsLine i qn (qname qn ++ lit "_points = " ++ py_str p ++ [NL])]
            else Ok []) ;;
      more <- submission_fields i (S qn) rest ;;
      Ok (AnswerLine i qn (qname qn ++ lit "_answer = " ++ toml_string a ++ [NL])
            :: l ++ BlankLine i qn :: more)
  end.

(** [sorted(range(len(names)), key=lambda i: lf_names[i])] *)
Definition submission_order (names : list str) : list nat :=
  let lf_names := map name_lf names in
  sorted_by str_ltb (fun i => nth i lf_names []) (seq 0 (length names)).

Definition submission_block (sa : analysis) (i : nat) : result (list emission) :=
  n <- index (names sa) (Some i) ;;
  id <- index (ids sa) (Some i) ;;
  sis <- index (sis_ids sa) (Some i) ;;
  fields <- submission_fields i 0 (combine (answers sa) (points sa)) ;;
  Ok (SubmissionHead i
        ([NL] ++ lit "[[submission]]" ++ [NL]
         ++ lit "name = " ++ toml_string n ++ [NL]
         ++ lit "id = " ++ id ++ [NL]
         ++ lit "sis_id = " ++ sis ++ [NL] ++ [NL]) :: fields).

(** [for i in order] *)
Fixpoint submission_blocks (sa : analysis) (order : list nat)
  : result (list emission) :=
  match order with
  | [] => Ok []
  | i :: rest =>
      b <- submission_block sa i ;;
      more <- submission_blocks sa rest ;;
      Ok (b ++ more)
  end.

Definition quiz_emissions (quiz_info : dict) (sa : analysis)
    (prepend_info : list (str * pyval)) : result (list emission) :=
  h <- quiz_header quiz_info prepend_info ;;
  q <- quiz_questions sa 0 (questions sa) ;;
  b <- submission_blocks sa (submission_order (names sa)) ;;
  Ok (h ++ q ++ b).

Definition generate_quiz_toml (quiz_info : dict) (sa : analysis)
    (prepend_info : list (str * pyval)) : result str :=
  es <- quiz_emissions quiz_info sa prepend_info ;;
  Ok (concat (map emitted es)).

End Codec.

(** ** The command line: [cli.py] *)

Module Cli.

(** A submission as the remote service returns it: its own fields, the
    nested [user] object when there is one, and its comments. *)
Record api_submission : Type := {
  sub_fields : dict;
  sub_user : option dict;
  sub_comments : list dict
}.

(** [sub.get("user") or {}] *)
Definition user_of (sub : api_submission) : dict :=
  match sub_user sub with Some d => d | None => [] end.

(** Comparison of the pairs [_sort_key] returns: the first components
    decide unless they are equal. *)
Definition pair_ltb (a b : str * str) : bool :=
  if str_eqb (fst a) (fst b) then str_ltb (snd a) (snd b)
  else str_ltb (fst a) (fst b).

(** [s.isdigit()]: not empty and made of digits, the superscripts one, two
    and three included. *)
Definition isdigit (s : str) : bool :=
  match s with
  | [] => false
  | _ => forallb (fun c => is_decimal c || code_in c [178; 179; 185]) s
  end.

Inductive message : Type :=
  | MsgInputNotFound
  | MsgNoAssignmentId
  | MsgNoSubmissions
  | MsgNothingToUpload
  | MsgCancelled
  | MsgUpdated (processed valid_count : nat) (user : pyval)
  | MsgFailed (user_ref : str) (e : exn)
  | MsgCommentWarning (user : pyval) (e : exn)
  | MsgBackupSaved.

(** What a run of [cmd_upload] does to the outside, in order. *)
Inductive event : Type :=
  | Print (m : message)
  | Prompt (text : str)
  | BackupHeader
  | BackupSubmission (submission previous : dict)
  | UpdateCall (assignment_id user score comment attempt : pyval)
  | CommentCall (assignment_id user : pyval) (comment : str) (attempt : pyval).

Inductive outcome : Type :=
  | Return (code : Z)
  | Raised (e : exn).

(** The parsed TOML file: its top-level keys and its [[submission]]
    tables ([data.get("submission") or []]). *)
Record toml_doc : Type := {
  top : dict;
  submission : list dict
}.

Definition is_none (v : pyval) : bool :=
  match v with VNone => true | _ => false end.

Definition _count_valid_submissions (submissions : list dict) : nat :=
  length
    (filter
       (fun sub =>
          (has_key sub (lit "score") && negb (is_none (get sub (lit "score"))))
          || (has_key sub (lit "comment") && truthy (get sub (lit "comment"))))
       submissions).

Section Commands.

Variable float_repr : spec_float -> str.

(** [markdown.markdown], or the identity when the package is missing or
    fails. *)
Variable markdown_html : str -> str.

Definition _markdown_to_html (text : pyval) : pyval :=
  match text with
  | VNone => VNone
  | v => VStr (markdown_html (py_str float_repr v))
  end.

Definition _triple (s : pyval) (blank_line : bool) : str :=
  let s := match s with VNone => [] | v => py_str float_repr v end in
  let s := replace TRIPLE (BSL :: TRIPLE) s in
  if blank_line then TRIPLE ++ [NL] ++ s ++ [NL] ++ TRIPLE
  else TRIPLE ++ s ++ TRIPLE.

Definition _current_score_and_comment (sub : api_submission) : pyval * pyval :=
  let score := get (sub_fields sub) (lit "score") in
  let score :=
    if is_none score
    then por (get (sub_fields sub) (lit "entered_score")) (get (sub_fields sub) (lit "grade"))
    else score in
  let comment_text :=
    match rev (sub_comments sub) with
    | latest :: _ => por (get latest (lit "comment")) (get latest (lit "text_comment"))
    | [] => VNone
    end in
  (score, comment_text).

Definition is_number (v : pyval) : bool :=
  match v with VInt _ | VFloat _ => true | _ => false end.

Definition _submission_block (sub : api_submission) (file_rel : option str)
    (score comment : pyval) (anon : bool) : str :=
  let user := user_of sub in
  let f := sub_fields sub in
  let name := por (get f (lit "name")) (get user (lit "name")) in
  let l_name :=
    if truthy name && negb anon
    then [lit "name = " ++ toml_string (py_str float_repr name)] else [] in
  let user_id := por (por (get f (lit "user_id")) (get f (lit "id"))) (get user (lit "id")) in
  let l_id :=
    if is_none user_id then [] else [lit "id = " ++ py_str float_repr user_id] in
  let sis_id :=
    por (por (por (get f (lit "sis_id")) (get f (lit "sis_user_id")))
           (get user (lit "sis_user_id")))
      (get user (lit "sis_login_id")) in
  let l_sis :=
    if truthy sis_id
    then [lit "sis_id = " ++ toml_string (py_str float_repr sis_id)] else [] in
  let l_file :=
    match file_rel with
    | Some (c :: r) => [lit "file = " ++ [DQ] ++ (c :: r) ++ [DQ]]
    | _ => []
    end in
  let l_score :=
    if is_none score then [lit "score = 0"]
    else if is_number score then [lit "score = " ++ py_str float_repr score]
    else [lit "score = " ++ toml_string (py_str float_repr score)] in
  let html_comment := _markdown_to_html comment in
  join [NL]
    ([[]; lit "[[submission]]"] ++ l_name ++ l_id ++ l_sis ++ l_file ++ l_score
     ++ [lit "comment = " ++ _triple html_comment true]).

(** [_sort_key] of [cmd_get_assignments]; [name.lower()] needs a
    string. *)
Definition _sort_key (sub : api_submission) : result (str * str) :=
  let user := user_of sub in
  let name :=
    por (por (get (sub_fields sub) (lit "name")) (get user (lit "name"))) (VStr []) in
  let uid :=
    py_str float_repr
      (por (por (get (sub_fields sub) (lit "user_id")) (get (sub_fields sub) (lit "id")))
         (VStr [])) in
  match name with
  | VStr n => Ok (lower n, uid)
  | _ => Raise AttributeError
  end.

(** The keys of all the elements, as [sorted] computes them first. *)
Fixpoint keyed (subs : list api_submission)
  : result (list ((str * str) * api_submission)) :=
  match subs with
  | [] => Ok []
  | sub :: rest =>
      k <- _sort_key sub ;;
      more <- keyed rest ;;
      Ok ((k, sub) :: more)
  end.

(** [sorted_subs = sorted(submissions, key=_sort_key)] *)
Definition sorted_subs (submissions : list api_submission)
  : result (list api_submission) :=
  ks <- keyed submissions ;;
  Ok (map snd (sorted_by pair_ltb fst ks)).

(** The text [cmd_get_assignments] writes: the assignment header, then one
    block for each submission in sorted order.  [file_of] gives the PDF
    that was downloaded for a user id, if any. *)
Definition assignment_document (header : str) (file_of : str -> option str)
    (anon : bool) (submissions : list api_submission) : result str :=
  subs <- sorted_subs submissions ;;
  Ok (join [NL]
        (header ::
         map (fun sub =>
                let uid :=
                  py_str float_repr
                    (por (por (get (sub_fields sub) (lit "user_id"))
                            (get (sub_fields sub) (lit "id"))) (VStr [])) in
                let file_rel := match uid with [] => None | _ => file_of uid end in
                let '(score, comment) := _current_score_and_comment sub in
                _submission_block sub file_rel score comment anon)
           subs)).

(** [_resolve_user_ref] *)
Definition _resolve_user_ref (submission : dict) : option str :=
  let stripped (v : pyval) := strip (py_str float_repr v) in
  let by_key (found : option str) (key : str) : option str :=
    match found with
    | Some _ => found
    | None =>
        let v := get submission key in
        if is_none v then None
        else match stripped v with [] => None | val => Some val end
    end in
  let sis := get submission (lit "sis_id") in
  match (if truthy sis then stripped sis else []) with
  | (_ :: _) as sis_val => Some (lit "sis_user_id:" ++ sis_val)
  | [] =>
      let sis_login := get submission (lit "sis_login_id") in
      match (if truthy sis_login then stripped sis_login else []) with
      | (_ :: _) as val => Some (lit "sis_login_id:" ++ val)
      | [] => fold_left by_key [lit "canvas_id"; lit "user_id"; lit "id"] None
      end
  end.

(** The remote service and the network are a state [World] that every
    call reads and changes. *)
Variable World : Type.

(** The look-ups of [Course.resolve_canvas_user_id] behind its first two
    tests: the cache of the course, the user end points and the roster;
    the answer is an id or [None]. *)
Variable lookup_user : str -> World -> result pyval * World.
Variable get_submission : pyval -> pyval -> World -> result dict * World.
Variable update_submission :
  pyval -> pyval -> pyval -> pyval -> pyval -> World -> result unit * World.
Variable add_comment : pyval -> pyval -> str -> pyval -> World -> result unit * World.

(** [Course.resolve_canvas_user_id] for a reference that is a string. *)
Definition resolve_canvas_user_id (user_ref : str) (w : World)
  : result pyval * World :=
  if isdigit user_ref then
    match PyNum.py_int (strip user_ref) with
    | Some z => (Ok (VInt z), w)
    | None => (Raise ValueError, w)
    end
  else lookup_user user_ref w.

Record run : Type := {
  processed : nat;
  resolved_cache : list (str * pyval);
  world : World;
  events : list event
}.

Definition log (st : run) (es : list event) : run :=
  {| processed := processed st; resolved_cache := resolved_cache st;
     world := world st; events := events st ++ es |}.

Definition with_world (st : run) (w : World) : run :=
  {| processed := processed st; resolved_cache := resolved_cache st;
     world := w; events := events st |}.

(** The body of [for submission in submissions] in [cmd_upload]. *)
Definition upload_one (assignment_id : pyval) (valid_count : nat)
    (submission : dict) (st : run) : run :=
  let score := get submission (lit "score") in
  let comment := get_default submission (lit "comment") (get submission (lit "comments")) in
  match _resolve_user_ref submission with
  | None => st
  | Some user_ref =>
      if is_none score && is_none comment then st
      else
        let failed (st : run) (e : exn) := log st [Print (MsgFailed user_ref e)] in
        (* the user id, from the cache of the run or resolved now *)
        let resolved :=
          match lookup (resolved_cache st) user_ref with
          | Some v => (Ok v, st)
          | None =>
              let '(r, w) := resolve_canvas_user_id user_ref (world st) in
              match r with
              | Ok v =>
                  let id := por v (VStr user_ref) in
                  (Ok id,
                   {| processed := processed st;
                      resolved_cache := resolved_cache st ++ [(user_ref, id)];
                      world := w; events := events st |})
              | Raise e => (Raise e, with_world st w)
              end
          end in
        match resolved with
        | (Raise e, st) => failed st e
        | (Ok resolved_user_id, st) =>
            let '(r, w) := get_submission assignment_id resolved_user_id (world st) in
            match r with
            | Raise e => failed (with_world st w) e
            | Ok previous =>
                let st := log (with_world st w) [BackupSubmission submission previous] in
                let attempt := get previous (lit "attempt") in
                let comment_text_raw :=
                  match comment with
                  | VNone => VNone
                  | v => VStr (rstrip (py_str float_repr v))
                  end in
                let comment_text := _markdown_to_html comment_text_raw in
                let st :=
                  log st [UpdateCall assignment_id resolved_user_id score comment_text attempt] in
                let '(r, w) :=
                  update_submission assignment_id resolved_user_id score comment_text
                    attempt (world st) in
                match r with
                | Raise e => failed (with_world st w) e
                | Ok _ =>
                    let st := with_world st w in
                    let st :=
                      match comment_text with
                      | VNone => st
                      | v =>
                          let text := py_str float_repr v in
                          let st := log st [CommentCall assignment_id resolved_user_id text attempt] in
                          let '(r, w) :=
                            add_comment assignment_id resolved_user_id text attempt (world st) in
                          match r with
                          | Ok _ => with_world st w
                          | Raise e =>
                              log (with_world st w)
                                [Print (MsgCommentWarning resolved_user_id e)]
                          end
                      end in
                    {| processed := S (processed st);
                       resolved_cache := resolved_cache st;
                       world := world st;
                       events :=
                         events st
                         ++ [Print (MsgUpdated (S (processed st)) valid_count resolved_user_id)] |}
                end
            end
        end
  end.

(** The text of the confirmation prompt. *)
Definition prompt_text (valid_count : nat) : str :=
  lit "Found " ++ str_of_Z (Z.of_nat valid_count)
  ++ lit " submissions with scores/comments to upload. Proceed? [y/N]: ".

(** [cmd_upload]: [course_loaded] tells whether [_validate_course] gave a
    course, [input_is_file] whether the input path is a file, [loaded] is
    what [_load_toml] gives and [answer] what the user types at the
    prompt.  Writing the backup file is taken to succeed. *)
Definition cmd_upload (course_loaded input_is_file : bool)
    (loaded : result toml_doc) (answer : str) (w : World)
  : outcome * list event * World :=
  if negb course_loaded then (Return 1, [], w)
  else if negb input_is_file then (Return 1, [Print MsgInputNotFound], w)
  else
    match loaded with
    | Raise e => (Raised e, [], w)
    | Ok data =>
        let assignment_id := get (top data) (lit "assignment_id") in
        let submissions := submission data in
        if is_none assignment_id then (Return 1, [Print MsgNoAssignmentId], w)
        else match submissions with
        | [] => (Return 1, [Print MsgNoSubmissions], w)
        | _ =>
            let valid_count := _count_valid_submissions submissions in
            if valid_count =? 0 then (Return 0, [Print MsgNothingToUpload], w)
            else
              let confirm := lower (strip answer) in
              if negb (str_eqb confirm (lit "y") || str_eqb confirm (lit "yes"))
              then (Return 0, [Prompt (prompt_text valid_count); Print MsgCancelled], w)
              else
                let st :=
                  fold_left (fun st sub => upload_one assignment_id valid_count sub st)
                    submissions
                    {| processed := 0; resolved_cache := []; world := w;
                       events := [Prompt (prompt_text valid_count); BackupHeader] |} in
                (Return 0, events st ++ [Print MsgBackupSaved], world st)
        end
    end.

End Commands.

End Cli.

(** ** The report poller: [Course.download_quiz_student_analysis] *)

Module Poller.

Definition is_none_quiz (v : pyval) : bool :=
  match v with VNone => true | _ => false end.

(** The JSON of a report: its [id] and its [file] when that is an
    object. *)
Record report : Type := {
  rep_id : pyval;
  rep_file : option dict
}.

(** The outside of one call: the answer to the creation request, the
    reading of [time.time()] taken as [start_time], the readings taken by
    the successive passes of the loop, the answers to the successive
    polling requests and the answer to a download.  Times are integers in
    one unit. *)
Record script : Type := {
  created : result report;
  started : Z;
  clock : list Z;
  polls : list (result report);
  download : pyval -> result str
}.

(** What happened: the result (the bytes of the CSV or the error raised),
    the number of polling requests sent and the URLs fetched.  [None]
    stands for a script that ended before the call did. *)
Record trace : Type := {
  outcome : option (result str);
  poll_requests : nat;
  fetched : list pyval
}.

(** [_has_file] *)
Definition _has_file (data : report) : option dict :=
  match rep_file data with
  | Some file_info => if truthy (get file_info (lit "url")) then Some file_info else None
  | None => None
  end.

(** The download that follows the loop. *)
Definition fetch (env : script) (file_info : dict) (n : nat) : trace :=
  let download_url := get file_info (lit "url") in
  {| outcome := Some (download env download_url);
     poll_requests := n;
     fetched := [download_url] |}.

(** [while not file_info: ...] after [n] polling requests: each pass reads
    the clock, then sends one request. *)
Fixpoint poll_loop (env : script) (report_id : pyval) (start_time timeout : Z)
    (clock : list Z) (polls : list (result report)) (n : nat) : trace :=
  match clock with
  | [] => {| outcome := None; poll_requests := n; fetched := [] |}
  | now :: clock' =>
      if (timeout <? now - start_time)%Z then
        {| outcome := Some (Raise TimeoutError); poll_requests := n; fetched := [] |}
      else if negb (truthy report_id) then
        {| outcome := Some (Raise RuntimeError); poll_requests := n; fetched := [] |}
      else
        match polls with
        | [] => {| outcome := None; poll_requests := n; fetched := [] |}
        | Raise e :: _ =>
            {| outcome := Some (Raise e); poll_requests := S n; fetched := [] |}
        | Ok report :: polls' =>
            match _has_file report with
            | Some file_info => fetch env file_info (S n)
            | None => poll_loop env report_id start_time timeout clock' polls' (S n)
            end
        end
  end.

(** [download_quiz_student_analysis(quiz, raw=True, timeout=timeout)] for a
    quiz id [quiz_id]; [configured] tells whether the course has its base
    URL, id and token. *)
Definition download_quiz_student_analysis (quiz_id : pyval) (configured : bool)
    (timeout : Z) (env : script) : trace :=
  let stop (e : exn) :=
    {| outcome := Some (Raise e); poll_requests := 0; fetched := [] |} in
  if is_none_quiz quiz_id then stop ValueError
  else if negb configured then stop ValueError
  else
    match created env with
    | Raise e => stop e
    | Ok report =>
        match _has_file report with
        | Some file_info => fetch env file_info 0
        | None =>
            poll_loop env (rep_id report) (started env) timeout (clock env) (polls env) 0
        end
    end.

End Poller.

(** ** More of Python's strings *)

Definition UNDERSCORE : ascii := chr 95.
Definition SLASH : ascii := chr 47.
Definition COMMA : ascii := chr 44.
Definition SEMICOLON : ascii := chr 59.
Definition EQUALS : ascii := chr 61.
Definition PERCENT : ascii := chr 37.

(** [s.lstrip(chars)], [s.rstrip(chars)] and [s.strip(chars)] for the
    set of characters that satisfy [p]. *)
Fixpoint lstrip_chars (p : ascii -> bool) (s : str) : str :=
  match s with
  | c :: r => if p c then lstrip_chars p r else s
  | [] => []
  end.

Definition rstrip_chars (p : ascii -> bool) (s : str) : str :=
  rev (lstrip_chars p (rev s)).

Definition strip_chars (p : ascii -> bool) (s : str) : str :=
  rstrip_chars p (lstrip_chars p s).

(** [s.split(sep)] for a one-character separator; [cur] is the part
    being read. *)
Fixpoint split_on_from (sep : ascii) (cur s : str) : list str :=
  match s with
  | [] => [cur]
  | c :: r =>
      if Ascii.eqb c sep then cur :: split_on_from sep [] r
      else split_on_from sep (cur ++ [c]) r
  end.

Definition split_on (sep : ascii) (s : str) : list str := split_on_from sep [] s.

(** [s.startswith(p)] *)
Definition startswith (p s : str) : bool :=
  match strip_prefix p s with Some _ => true | None => false end.

(** [s.endswith(p)] *)
Definition endswith (p s : str) : bool := startswith (rev p) (rev s).

(** [needle in s] *)
Fixpoint has_substring (needle s : str) : bool :=
  startswith needle s
  || match s with
     | [] => false
     | _ :: r => has_substring needle r
     end.

(** [s.replace(old, new, 1)] for a non-empty [old]. *)
Fixpoint replace_first (old new s : str) : str :=
  match strip_prefix old s with
  | Some rest => new ++ rest
  | None =>
      match s with
      | [] => []
      | c :: r => c :: replace_first old new r
      end
  end.

(** [s[1:-1]] *)
Definition slice_1_m1 (s : str) : str := removelast (tl s).

(** ** [urllib.parse.quote]

    The text is encoded as UTF-8; a byte is kept when it is a letter, a
    digit or one of [_.-~], or an ASCII character of [safe]; every other
    byte is written as a percent sign and two upper-case hexadecimal
    digits. *)

Definition hex_digit (n : nat) : ascii := nth n (lit "0123456789ABCDEF") "0"%char.

Definition percent_byte (b : nat) : str := [PERCENT; hex_digit (b / 16); hex_digit (b mod 16)].

(** The UTF-8 bytes of a character below 256. *)
Definition utf8_bytes (c : ascii) : list nat :=
  if code c <? 128 then [code c] else [192 + code c / 64; 128 + code c mod 64].

Definition is_unreserved (c : ascii) : bool :=
  between 65 90 c || between 97 122 c || between 48 57 c || code_in c [95; 46; 45; 126].

Definition quote_char (safe : str) (c : ascii) : str :=
  if is_unreserved c || ((code c <? 128) && contains c safe) then [c]
  else flat_map percent_byte (utf8_bytes c).

Definition quote (safe : str) (s : str) : str := flat_map (quote_char safe) s.

(** ** [_safe_filename] *)

(** The class [[A-Za-z0-9._-]]. *)
Definition is_filename_char (c : ascii) : bool :=
  between 65 90 c || between 97 122 c || between 48 57 c || code_in c [46; 95; 45].

(** [re.sub(r"[^A-Za-z0-9._-]+", "_", title)]: every longest run of
    characters outside the class becomes one underscore; [in_run] tells
    that the underscore of the run being read is already written. *)
Fixpoint sub_other_runs (in_run : bool) (title : str) : str :=
  match title with
  | [] => []
  | c :: r =>
      if is_filename_char c then c :: sub_other_runs false r
      else if in_run then sub_other_runs true r
      else UNDERSCORE :: sub_other_runs true r
  end.

Definition _safe_filename (title suffix : str) : str :=
  let slug := strip_chars (Ascii.eqb UNDERSCORE) (sub_other_runs false title) in
  let slug := match slug with [] => lit "unnamed" | _ => slug end in
  slug ++ suffix.

(** ** [Course._next_link] *)

(** [for p in params]: a parameter that contains [rel=] sets [rel] to
    what follows its first equals sign, stripped of whitespace and then
    of double quotes. *)
Fixpoint rel_of (params : list str) (rel : option str) : result (option str) :=
  match params with
  | [] => Ok rel
  | p :: rest =>
      if has_substring (lit "rel=") p then
        match split1 EQUALS p with
        | Some (_, v) => rel_of rest (Some (strip_chars (Ascii.eqb DQ) (strip v)))
        | None => Raise IndexError
        end
      else rel_of rest rel
  end.

(** [for part in link_header.split(",")] *)
Fixpoint next_among (parts : list str) : result (option str) :=
  match parts with
  | [] => Ok None
  | part :: rest =>
      match split_on SEMICOLON (strip part) with
      | url_part :: p1 :: ps =>
          let url := slice_1_m1 (strip url_part) in
          rel <- rel_of (p1 :: ps) None ;;
          match rel with
          | Some r => if str_eqb r (lit "next") then Ok (Some url) else next_among rest
          | None => next_among rest
          end
      | _ => next_among rest
      end
  end.

(** The header is a string or [None]. *)
Definition _next_link (link_header : option str) : result (option str) :=
  match link_header with
  | None | Some [] => Ok None
  | Some h => next_among (split_on COMMA h)
  end.

(** ** [Course._paginate] *)

(** A decoded JSON value: a scalar, an array or an object. *)
#[warnings="-register-all"]
Inductive json : Type :=
  | JValue (v : pyval)
  | JArray (items : list json)
  | JObject (entries : list (str * json)).

(** What [results.extend(page_items)] appends for a decoded body: the
    values of an object, the elements of an array, the characters of a
    string; another value is not iterable. *)
Definition page_items (body : json) : result (list json) :=
  match body with
  | JObject entries => Ok (map snd entries)
  | JArray items => Ok items
  | JValue (VStr s) => Ok (map (fun c => JValue (VStr [c])) s)
  | JValue _ => Raise TypeError
  end.

(** An answer to a request: the decoded body and the [Link] header, or
    the error that the request, [raise_for_status] or [json] raises. *)
Definition response : Type := result (json * option str).

(** What a call did: its result ([None] when the answers ran out before
    the call ended) and the requests it sent, each with the URL and
    whether the parameters went with it. *)
Record fetched_pages : Type := {
  pages_result : option (result (list json));
  requests : list (str * bool)
}.

(** [while url: ...]: the answers of the service are taken from [answers]
    in order. *)
Fixpoint paginate_from (answers : list response) (url : str) (first : bool)
    (results : list json) (sent : list (str * bool)) : fetched_pages :=
  match url with
  | [] => {| pages_result := Some (Ok results); requests := sent |}
  | _ =>
      let sent := sent ++ [(url, first)] in
      match answers with
      | [] => {| pages_result := None; requests := sent |}
      | Raise e :: _ => {| pages_result := Some (Raise e); requests := sent |}
      | Ok (body, link) :: answers' =>
          match page_items body with
          | Raise e => {| pages_result := Some (Raise e); requests := sent |}
          | Ok items =>
              match _next_link link with
              | Raise e => {| pages_result := Some (Raise e); requests := sent |}
              | Ok next =>
                  paginate_from answers'
                    (match next with Some u => u | None => [] end)
                    false (results ++ items) sent
              end
          end
      end
  end.

Definition _paginate (answers : list response) (url : str) : fetched_pages :=
  paginate_from answers url true [] [].

(** ** The course: [Course] of [__init__.py] *)

Module Course.

Record course : Type := {
  base_url : pyval;
  course_id : pyval;
  token : pyval;
  _user_cache : dict
}.

(** [Course.__init__]: [config] is what [tomllib.load] gives for the
    configuration file when a path is given, or the error of reading
    it. *)
Definition __init__ (config : option (result dict)) (base_url course_id token : pyval)
  : result course :=
  ' (base_url, course_id, token) <-
    match config with
    | None => Ok (base_url, course_id, token)
    | Some (Raise e) => Raise e
    | Some (Ok data) =>
        Ok (get_default data (lit "base_url") base_url,
            get_default data (lit "course_id") course_id,
            get_default data (lit "token") token)
    end ;;
  base_url <-
    (if truthy base_url then
       match base_url with
       | VStr s => Ok (VStr (rstrip_chars (Ascii.eqb SLASH) s))
       | _ => Raise AttributeError
       end
     else Ok base_url) ;;
  Ok {| base_url := base_url; course_id := course_id; token := token;
        _user_cache := [] |}.

(** [self.base_url and self.course_id and self.token], as a condition. *)
Definition configured (c : course) : bool :=
  truthy (base_url c) && truthy (course_id c) && truthy (token c).

Section Urls.

Variable float_repr : spec_float -> str.

Local Abbreviation str_ v := (py_str float_repr v).

(** The URL of [get_collection]. *)
Definition collection_url (c : course) (collection : str) : str :=
  str_ (base_url c) ++ lit "/api/v1/courses/" ++ str_ (course_id c)
  ++ [SLASH] ++ collection.

(** [get_collection]: the pages are fetched without parameters. *)
Definition get_collection (c : course) (collection : str) (answers : list response)
  : fetched_pages :=
  if negb (configured c)
  then {| pages_result := Some (Raise ValueError); requests := [] |}
  else paginate_from answers (collection_url c collection) false [] [].

Definition get_assignments (c : course) (answers : list response) : fetched_pages :=
  get_collection c (lit "assignments") answers.

Definition get_quizzes (c : course) (answers : list response) : fetched_pages :=
  get_collection c (lit "quizzes") answers.

(** [get_submissions]: the parameters go with the first request. *)
Definition get_submissions (c : course) (assignment_id : pyval)
    (answers : list response) : fetched_pages :=
  if negb (configured c)
  then {| pages_result := Some (Raise ValueError); requests := [] |}
  else _paginate answers
         (str_ (base_url c) ++ lit "/api/v1/courses/" ++ str_ (course_id c)
          ++ lit "/assignments/" ++ str_ assignment_id ++ lit "/submissions").

(** [_submission_url] *)
Definition _submission_url (c : course) (assignment_id user_id : pyval) : str :=
  let assignment := quote [] (strip (str_ assignment_id)) in
  let user := quote [] (strip (str_ user_id)) in
  str_ (base_url c) ++ lit "/api/v1/courses/" ++ str_ (course_id c)
  ++ lit "/assignments/" ++ assignment ++ lit "/submissions/" ++ user.

(** The URL that [add_comment] posts to. *)
Definition add_comment_url (c : course) (assignment_id user_id : pyval) : str :=
  str_ (base_url c) ++ lit "/api/v1/courses/" ++ str_ (course_id c)
  ++ lit "/assignments/" ++ quote [] (str_ assignment_id)
  ++ lit "/submissions/" ++ quote [] (str_ user_id) ++ lit "/comments".

(** [d[k] = v] *)
Definition set_key (k : str) (v : pyval) (d : dict) : dict :=
  if has_key d k
  then map (fun kv => if str_eqb (fst kv) k then (fst kv, v) else kv) d
  else d ++ [(k, v)].

(** The references [resolve_canvas_user_id] looks up, in order. *)
Definition candidates (ref : str) : list str :=
  if startswith (lit "sis_user_id:") ref then
    [ref; replace_first (lit "sis_user_id:") (lit "sis_login_id:") ref]
  else if startswith (lit "sis_login_id:") ref then
    [ref; replace_first (lit "sis_login_id:") (lit "sis_user_id:") ref]
  else [lit "sis_user_id:" ++ ref; lit "sis_login_id:" ++ ref].

Definition user_url (c : course) (cand : str) : str :=
  str_ (base_url c) ++ lit "/api/v1/users/" ++ quote (lit ":") cand.

Definition roster_url (c : course) : str :=
  str_ (base_url c) ++ lit "/api/v1/courses/" ++ str_ (course_id c)
  ++ lit "/users?enrollment_type[]=student&include[]=sis_user_id&per_page=100".

(** The body of [for u in users]. *)
Definition remember_user (cache : dict) (u : dict) : dict :=
  let cid := get u (lit "id") in
  if negb (truthy cid) then cache
  else
    let sis_uid := get u (lit "sis_user_id") in
    let login_id := get u (lit "login_id") in
    let cache :=
      if truthy sis_uid then set_key (lit "sis_user_id:" ++ str_ sis_uid) cid cache
      else cache in
    let cache :=
      if truthy login_id then set_key (lit "sis_login_id:" ++ str_ login_id) cid cache
      else cache in
    set_key (str_ cid) cid cache.

(** The remote service: a state that every request reads and changes.
    [get_user url] answers a request for one user with [None] for the
    status 404, with the JSON object of the user, or with the error
    raised; [get_users url] is [_paginate] on the roster of the course,
    taken to give JSON objects. *)
Variable World : Type.
Variable get_user : str -> World -> result (option dict) * World.
Variable get_users : str -> World -> result (list dict) * World.

(** [for cand in candidates] *)
Fixpoint lookup_candidates (c : course) (user_ref : str) (cands : list str)
    (cache : dict) (w : World) : result (option pyval) * dict * World :=
  match cands with
  | [] => (Ok None, cache, w)
  | cand :: rest =>
      let '(r, w) := get_user (user_url c cand) w in
      match r with
      | Raise e => (Raise e, cache, w)
      | Ok None => lookup_candidates c user_ref rest cache w
      | Ok (Some data) =>
          let cid := get data (lit "id") in
          if truthy cid then (Ok (Some cid), set_key user_ref cid cache, w)
          else lookup_candidates c user_ref rest cache w
      end
  end.

(** [resolve_canvas_user_id] for a reference that is a string: the
    result, the cache of the course after the call and the service after
    it. *)
Definition resolve_canvas_user_id (c : course) (user_ref : str) (w : World)
  : result pyval * dict * World :=
  let cache := _user_cache c in
  if Cli.isdigit user_ref then
    match PyNum.py_int (strip user_ref) with
    | Some z => (Ok (VInt z), cache, w)
    | None => (Raise ValueError, cache, w)
    end
  else if truthy (get cache user_ref) then (Ok (get cache user_ref), cache, w)
  else if negb (truthy (base_url c) && truthy (token c)) then (Raise ValueError, cache, w)
  else
    let '(r, cache, w) :=
      lookup_candidates c user_ref (candidates (strip user_ref)) cache w in
    match r with
    | Raise e => (Raise e, cache, w)
    | Ok (Some cid) => (Ok cid, cache, w)
    | Ok None =>
        let '(r, w) := get_users (roster_url c) w in
        match r with
        | Raise _ => (Ok VNone, cache, w)
        | Ok users =>
            let cache := fold_left remember_user users cache in
            if truthy (get cache user_ref) then (Ok (get cache user_ref), cache, w)
            else (Ok VNone, cache, w)
        end
    end.

End Urls.

End Course.

(** ** [_prompt_choice] of [cli.py] *)

Section Prompt.

Variable float_repr : spec_float -> str.

(** The line printed for item number [idx]. *)
Definition menu_line (label_key : str) (idx : nat) (item : dict) : str :=
  let name :=
    por (por (por (get item label_key) (get item (lit "title"))) (get item (lit "name")))
      (VStr (lit "Untitled")) in
  let due := get item (lit "due_at") in
  let suffix :=
    if truthy due then lit " (due " ++ py_str float_repr due ++ lit ")" else [] in
  str_of_Z (Z.of_nat idx) ++ lit ") " ++ py_str float_repr name ++ suffix.

Fixpoint menu_from (label_key : str) (idx : nat) (items : list dict) : list str :=
  match items with
  | [] => []
  | item :: rest => menu_line label_key idx item :: menu_from label_key (S idx) rest
  end.

(** How a call ends: with the item picked, with [None], with an error
    raised, or, when the lines of the input run out, with the error of
    [input] at the end of the input. *)
Inductive picked : Type :=
  | Picked (item : dict)
  | NoChoice
  | Crashed (e : exn)
  | EndOfInput.

Definition retry_line (n : nat) : str :=
  lit "Please enter a value between 1 and " ++ str_of_Z (Z.of_nat n)
  ++ lit ", or 'q' to cancel.".

(** [while True: ...]: [inputs] are the lines the user types; the result
    comes with the lines printed. *)
Fixpoint ask (items : list dict) (inputs : list str) (printed : list str)
  : picked * list str :=
  match inputs with
  | [] => (EndOfInput, printed)
  | line :: rest =>
      let choice := lower (strip line) in
      if str_eqb choice (lit "q") || str_eqb choice (lit "quit")
         || str_eqb choice (lit "exit")
      then (NoChoice, printed)
      else
        let again := ask items rest (printed ++ [retry_line (length items)]) in
        if Cli.isdigit choice then
          match PyNum.py_int choice with
          | None => (Crashed ValueError, printed)
          | Some num =>
              if ((1 <=? num) && (num <=? Z.of_nat (length items)))%Z
              then match nth_error items (Z.to_nat (num - 1)) with
                   | Some item => (Picked item, printed)
                   | None => (Crashed IndexError, printed)
                   end
              else again
          end
        else again
  end.

Definition _prompt_choice (items : list dict) (label_key : str) (inputs : list str)
  : picked * list str :=
  match items with
  | [] => (NoChoice, [lit "No items found."])
  | _ => ask items inputs (menu_from label_key 1 items)
  end.

End Prompt.

(** ** [csv.reader], as [parse_quiz_csv] calls it

    The reader of the dialect [excel], which is the default: fields are
    separated by commas; a field may stand between double quotes, where
    two quotes are one quote; the reader is not strict.  The definitions
    follow the automaton of [Modules/_csv.c]. *)

Module Csv.

Inductive state : Type :=
  | START_RECORD
  | START_FIELD
  | IN_FIELD
  | IN_QUOTED_FIELD
  | QUOTE_IN_QUOTED_FIELD
  | EAT_CRNL.

(** The record being read: the state, the characters of the field being
    read and the fields already saved. *)
Record reader : Type := {
  st : state;
  field : str;
  fields : list str
}.

Definition fresh : reader := {| st := START_RECORD; field := []; fields := [] |}.

(** [csv.field_size_limit()] *)
Definition field_limit : nat := 128 * 1024.

Definition goto (s : state) (r : reader) : reader :=
  {| st := s; field := field r; fields := fields r |}.

(** [parse_add_char]: [None] stands for [csv.Error]. *)
Definition add_char (c : ascii) (s : state) (r : reader) : option reader :=
  if field_limit <=? length (field r) then None
  else Some {| st := s; field := field r ++ [c]; fields := fields r |}.

(** [parse_save_field] *)
Definition save_field (s : state) (r : reader) : reader :=
  {| st := s; field := []; fields := fields r ++ [field r] |}.

Definition is_newline (c : ascii) : bool := Ascii.eqb c NL || Ascii.eqb c CR.

(** [parse_process_char] for a character of the line ([Some c]) and for
    the end of the line ([None]). *)
Definition process (c : option ascii) (r : reader) : option reader :=
  let start_field (r : reader) :=
    match c with
    | None => Some (save_field START_RECORD r)
    | Some x =>
        if is_newline x then Some (save_field EAT_CRNL r)
        else if Ascii.eqb x DQ then Some (goto IN_QUOTED_FIELD r)
        else if Ascii.eqb x COMMA then Some (save_field START_FIELD r)
        else add_char x IN_FIELD r
    end in
  match st r with
  | START_RECORD =>
      match c with
      | None => Some r
      | Some x => if is_newline x then Some (goto EAT_CRNL r) else start_field r
      end
  | START_FIELD => start_field r
  | IN_FIELD =>
      match c with
      | None => Some (save_field START_RECORD r)
      | Some x =>
          if is_newline x then Some (save_field EAT_CRNL r)
          else if Ascii.eqb x COMMA then Some (save_field START_FIELD r)
          else add_char x IN_FIELD r
      end
  | IN_QUOTED_FIELD =>
      match c with
      | None => Some r
      | Some x =>
          if Ascii.eqb x DQ then Some (goto QUOTE_IN_QUOTED_FIELD r)
          else add_char x IN_QUOTED_FIELD r
      end
  | QUOTE_IN_QUOTED_FIELD =>
      match c with
      | None => Some (save_field START_RECORD r)
      | Some x =>
          if Ascii.eqb x DQ then add_char x IN_QUOTED_FIELD r
          else if Ascii.eqb x COMMA then Some (save_field START_FIELD r)
          else if is_newline x then Some (save_field EAT_CRNL r)
          else add_char x IN_FIELD r
      end
  | EAT_CRNL =>
      match c with
      | None => Some (goto START_RECORD r)
      | Some x => if is_newline x then Some r else None
      end
  end.

(** The characters of a line, one after the other. *)
Fixpoint feed (chars : str) (r : reader) : option reader :=
  match chars with
  | [] => Some r
  | c :: rest =>
      match process (Some c) r with
      | Some r' => feed rest r'
      | None => None
      end
  end.

(** One line: its characters, then the end of the line. *)
Definition read_line (line : str) (r : reader) : option reader :=
  match feed line r with
  | Some r' => process None r'
  | None => None
  end.

(** The rows the reader yields for the lines, in order, and whether it
    raises [csv.Error] after them.  [r] is the record being read: a
    record goes on with the next line while a quoted field is open, and
    when the lines end there the open record is yielded. *)
Fixpoint rows_from (lines : list str) (r : reader) : list (list str) * bool :=
  match lines with
  | [] =>
      match st r with
      | IN_QUOTED_FIELD => ([fields (save_field START_RECORD r)], false)
      | _ => ([], false)
      end
  | line :: rest =>
      match read_line line r with
      | None => ([], true)
      | Some r' =>
          match st r' with
          | START_RECORD =>
              let '(rows, failed) := rows_from rest fresh in (fields r' :: rows, failed)
          | _ => rows_from rest r'
          end
      end
  end.

(** [csv.reader(lines)], read to its end. *)
Definition reader_rows (lines : list str) : list (list str) * bool :=
  rows_from lines fresh.

End Csv.

(** ** [parse_quiz_csv] from the text of the file

    [text] is [csv_bytes.decode()].  The reader is read row by row: the
    first row is the header row, and the error of a row comes before the
    error of the reader in a later line. *)

Inductive parsed : Type :=
  | Parsed (sa : analysis)
  | Raised (e : exn)
  | CsvError
  | StopIteration.

Definition parse_quiz_csv_of_text (text : str) : parsed :=
  match Csv.reader_rows (splitlines text) with
  | ([], true) => CsvError
  | ([], false) => StopIteration
  | (headers :: rows, failed) =>
      match parse_quiz_csv headers rows with
      | Raise e => Raised e
      | Ok sa => if failed then CsvError else Parsed sa
      end
  end.

(** ** [Course.download_quiz_student_analysis] with its parameter [raw]

    [Poller.download_quiz_student_analysis] is the call up to the
    download.  The last statement of the function returns the bytes
    downloaded when [raw] is set, and [parse_quiz_csv] of them when it is
    not, which is the default. *)

Module Analysis.

(** How the call ends: it returns the bytes, it ends as [parse_quiz_csv]
    does on the decoded bytes, [decode] raises [UnicodeDecodeError], or an
    error was raised before. *)
Inductive finish : Type :=
  | Content (bytes : str)
  | FromCsv (p : parsed)
  | UndecodableBytes
  | Failed (e : exn).

(** What happened: how the call ended ([None] for a script that ended
    before the call did), the number of polling requests sent and the
    URLs fetched. *)
Record run : Type := {
  ended : option finish;
  poll_requests : nat;
  fetched : list pyval
}.

Section Download.

(** [bytes.decode()]: the text, or [None] for bytes that are not
    UTF-8. *)
Variable decode : str -> option str.

(** [parse_quiz_csv(download_resp.content)] *)
Definition parse_quiz_csv_of_bytes (content : str) : finish :=
  match decode content with
  | None => UndecodableBytes
  | Some text => FromCsv (parse_quiz_csv_of_text text)
  end.

(** [download_quiz_student_analysis(quiz, raw, timeout=timeout)] *)
Definition download_quiz_student_analysis (raw : bool) (quiz_id : pyval)
    (configured : bool) (timeout : Z) (env : Poller.script) : run :=
  let t := Poller.download_quiz_student_analysis quiz_id configured timeout env in
  {| ended :=
       match Poller.outcome t with
       | None => None
       | Some (Raise e) => Some (Failed e)
       | Some (Ok content) =>
           Some (if raw then Content content else parse_quiz_csv_of_bytes content)
       end;
     poll_requests := Poller.poll_requests t;
     fetched := Poller.fetched t |}.

End Download.

End Analysis.

(** ** Stand-ins for the examples

    A remote service that answers every call without error, a Markdown
    converter that changes nothing, and a float printer for data without
    floats. *)

Module Calm.

Definition float_repr (f : spec_float) : str := [].
Definition markdown_html (s : str) : str := s.
Definition md (v : pyval) : result str :=
  match v with VStr s => Ok s | _ => Raise TypeError end.
Definition lookup_user (user_ref : str) (w : unit) : result pyval * unit :=
  (Ok VNone, w).
Definition get_submission (assignment_id user : pyval) (w : unit)
  : result dict * unit := (Ok [], w).
Definition update_submission (assignment_id user score comment attempt : pyval)
    (w : unit) : result unit * unit := (Ok tt, w).
Definition add_comment (assignment_id user : pyval) (comment : str)
    (attempt : pyval) (w : unit) : result unit * unit := (Ok tt, w).

Definition cmd_upload :=
  Cli.cmd_upload float_repr markdown_html unit lookup_user get_submission
    update_submission add_comment.

End Calm.

(** * The vocabulary of the statements *)

Import Textwrap.

(** [l] occurs in [text] as a run of neighbouring characters. *)
Definition substr (l text : str) : Prop := exists a b, text = a ++ l ++ b.

Definition is_dq (c : ascii) : bool := Ascii.eqb c DQ.

Definition starts_dq (s : str) : bool :=
  match s with c :: _ => is_dq c | [] => false end.

(** No two double quotes stand side by side. *)
Fixpoint no_qq (s : str) : bool :=
  match s with
  | [] => true
  | c :: r => negb (is_dq c && starts_dq r) && no_qq r
  end.

(** [woven b text lines]: [text] is the lines, in order, with blank text in
    front of, between and behind them; a gap between two lines is not
    empty.  With [b] the gap in front of the first line is not empty
    either. *)
Inductive woven : bool -> str -> list str -> Prop :=
  | woven_end (b : bool) (g : str) : is_blank g = true -> woven b g []
  | woven_line (b : bool) (g l t : str) (ls : list str) :
      is_blank g = true -> (b = true -> g <> []) -> woven true t ls ->
      woven b (g ++ l ++ t) (l :: ls).

(** Every line break stands where the text has whitespace: the lines are
    the text with a run of whitespace taken out at each break (and at the
    two ends). *)
Definition breaks_at_whitespace (text : str) (lines : list str) : Prop :=
  woven false text lines.

Definition not_ws (c : ascii) : bool := negb (is_ws c).

(** The words of a text: what stands between its whitespace characters. *)
Fixpoint words_from (cur s : str) : list str :=
  match s with
  | [] => [cur]
  | c :: r => if is_ws c then cur :: words_from [] r else words_from (cur ++ [c]) r
  end.

Definition words (s : str) : list str := words_from [] s.

(** Chunks as [_split] gives them for a text without hyphen whose words
    fit the width: none is empty, one that is not blank fits and is
    followed by a blank one. *)
Fixpoint tidy (w : nat) (chunks : list str) : Prop :=
  match chunks with
  | [] => True
  | c :: r =>
      c <> []
      /\ (is_blank c = false ->
          length c <= w /\ match r with [] => True | d :: _ => is_blank d = true end)
      /\ tidy w r
  end.

(** [run_over n k s]: [s] has more than [n] characters in a row that are
    no whitespace, where the [k] characters in front of [s] count with
    its first run. *)
Fixpoint run_over (n k : nat) (s : str) : bool :=
  match s with
  | [] => n <? k
  | c :: r => if isspace c then (n <? k) || run_over n 0 r else run_over n (S k) r
  end.

(** The text has a word of more than [n] characters: a run of characters
    that are no whitespace. *)
Definition has_long_word (n : nat) (s : str) : bool := run_over n 0 s.

(** [kept text lines]: [text] is the lines, in order, with blank text
    (perhaps none) in front of, between and behind them, and no line is
    empty: only whitespace is taken out of the text. *)
Inductive kept : str -> list str -> Prop :=
  | kept_end (g : str) : is_blank g = true -> kept g []
  | kept_line (g l t : str) (ls : list str) :
      is_blank g = true -> l <> [] -> kept t ls -> kept (g ++ l ++ t) (l :: ls).

(** [cut_in_word text lines]: a line break stands inside a word: two
    lines that follow one another stand side by side in the text, the
    first ending and the second beginning with a character that is no
    whitespace. *)
Inductive cut_in_word : str -> list str -> Prop :=
  | cut_here (g a b t : str) (x y : ascii) (ls : list str) :
      is_blank g = true -> isspace x = false -> isspace y = false -> kept t ls ->
      cut_in_word (g ++ (a ++ [x]) ++ (y :: b) ++ t) ((a ++ [x]) :: (y :: b) :: ls)
  | cut_later (g l t : str) (ls : list str) :
      is_blank g = true -> l <> [] -> cut_in_word t ls ->
      cut_in_word (g ++ l ++ t) (l :: ls).

(** What holds of a line [p] of the escaped text (with its tabs expanded
    and its whitespace made spaces) and of the lines it is wrapped to: no
    line is longer than 80 characters or has a newline; the lines are
    [p] with nothing but whitespace taken out; without hyphen and without
    a word of more than 80 characters every line break stands where [p]
    has whitespace; with a word of more than 80 characters that is not
    so, and a line break stands inside a word. *)
Definition wrapped_to (p : str) (lines : list str) : Prop :=
  Forall (fun l => length l <= 80 /\ contains NL l = false) lines
  /\ kept (_munge_whitespace p) lines
  /\ (contains HYPHEN (_munge_whitespace p) = false ->
      forallb (fun wd => length wd <=? 80) (words (_munge_whitespace p)) = true ->
      breaks_at_whitespace (_munge_whitespace p) lines)
  /\ (has_long_word 80 (_munge_whitespace p) = true ->
      cut_in_word (_munge_whitespace p) lines
      /\ ~ breaks_at_whitespace (_munge_whitespace p) lines).




(** A polling answer without a file to fetch. *)
Definition is_pending (r : result Poller.report) : bool :=
  match r with
  | Ok rep => match Poller._has_file rep with None => true | Some _ => false end
  | Raise _ => false
  end.

(** A reading of the clock at which the deadline has not passed. *)
Definition in_time (start_time timeout now : Z) : bool :=
  negb (timeout <? now - start_time)%Z.

(** ** The vocabulary of the further properties *)

Definition is_bsl (c : ascii) : bool := Ascii.eqb c BSL.

(** The text is made of characters other than the backslash and the
    double quote and of the two escapes backslash-backslash and
    backslash-quote; [pending] tells that a backslash has just been
    read. *)
Fixpoint escapes_only (pending : bool) (s : str) : bool :=
  match s with
  | [] => negb pending
  | c :: r =>
      if pending then (is_dq c || is_bsl c) && escapes_only false r
      else if is_bsl c then escapes_only true r
      else negb (is_dq c) && escapes_only false r
  end.

(** A character that is no whitespace, or the space. *)
Definition plain_char (c : ascii) : bool := negb (isspace c) || Ascii.eqb c SP.

(** The last character is not a space (or there is none). *)
Definition no_trailing_space (s : str) : bool :=
  match rev s with c :: _ => negb (Ascii.eqb c SP) | [] => true end.

(** A text that is not empty and has no whitespace at its two ends. *)
Definition trimmed (s : str) : Prop := s <> [] /\ strip s = s.

(** Every update call comes straight after the backup of the previous
    state of the submission it sends (its score is the score of the
    submission backed up, its attempt the attempt of the previous
    state), and every comment call straight after the update call for
    the same assignment, user and attempt; [prev] is the event before
    the first one. *)
Fixpoint in_order (prev : option Cli.event) (es : list Cli.event) : Prop :=
  match es with
  | [] => True
  | e :: r =>
      match e with
      | Cli.UpdateCall _ _ score _ attempt =>
          match prev with
          | Some (Cli.BackupSubmission submission previous) =>
              score = get submission (lit "score")
              /\ attempt = get previous (lit "attempt")
          | _ => False
          end
      | Cli.CommentCall assignment_id user _ attempt =>
          match prev with
          | Some (Cli.UpdateCall assignment_id' user' _ comment' attempt') =>
              assignment_id = assignment_id' /\ user = user' /\ attempt = attempt'
              /\ comment' <> VNone
          | _ => False
          end
      | _ => True
      end /\ in_order (Some e) r
  end.

(** The counters [k/n] of the progress messages, in the order they are
    printed. *)
Definition progress (es : list Cli.event) : list (nat * nat) :=
  flat_map (fun e => match e with
                     | Cli.Print (Cli.MsgUpdated k n _) => [(k, n)]
                     | _ => []
                     end) es.

(** An event that touches neither the remote service nor the backup
    file. *)
Definition is_talk (e : Cli.event) : bool :=
  match e with Cli.Print _ | Cli.Prompt _ => true | _ => false end.

(** What holds of every end of a run. *)
Definition settled (env : Poller.script) (bound : nat) (t : Poller.trace) : Prop :=
  Poller.poll_requests t <= bound
  /\ (Poller.fetched t = []
      /\ (forall content, Poller.outcome t <> Some (Ok content))
      \/ exists u, Poller.fetched t = [u] /\ truthy u = true
                   /\ Poller.outcome t = Some (Poller.download env u)).


(** One link of a [Link] header as the service writes it: the URL between
    angle brackets, a semicolon, and [rel=] with the relation between
    double quotes. *)
Definition link_value (url rel : str) : str :=
  [chr 60] ++ url ++ [chr 62] ++ lit "; rel=" ++ [DQ] ++ rel ++ [DQ].

(** A [Link] header: the links, separated by commas. *)
Definition link_header_of (links : list (str * str)) : str :=
  join [COMMA] (map (fun l => link_value (fst l) (snd l)) links).

(** A URL and a relation that can stand in a header: without comma and
    semicolon, and the relation without double quote. *)
Definition link_ok (l : str * str) : bool :=
  negb (contains COMMA (fst l)) && negb (contains SEMICOLON (fst l))
  && negb (contains COMMA (snd l)) && negb (contains SEMICOLON (snd l))
  && negb (contains DQ (snd l)).

(** The items of an answer that is a page, and the URL its header gives
    for the next page (empty when it gives none). *)
Definition items_of (a : response) : list json :=
  match a with
  | Ok (body, _) => match page_items body with Ok items => items | Raise _ => [] end
  | Raise _ => []
  end.

Definition next_of (a : response) : str :=
  match a with
  | Ok (_, link) => match _next_link link with Ok (Some u) => u | _ => [] end
  | Raise _ => []
  end.

(** [chained url answers]: the answers are the pages of one collection,
    read from [url] on: every answer is a body that can be iterated, the
    header of each but the last names the URL of the next page and the
    header of the last names none. *)
Fixpoint chained (url : str) (answers : list response) : Prop :=
  match answers with
  | [] => False
  | a :: rest =>
      url <> []
      /\ (exists body link items next,
            a = Ok (body, link) /\ page_items body = Ok items
            /\ _next_link link = Ok next)
      /\ match rest with
         | [] => next_of a = []
         | _ :: _ => chained (next_of a) rest
         end
  end.

(** A character that [quote] leaves or writes: a letter, a digit, one of
    [_.-~], or the percent sign. *)
Definition is_quoted_char (c : ascii) : bool := is_unreserved c || Ascii.eqb c PERCENT.

(** The character that a quoted text begins with, and the rest: what
    [quote_char] wrote is read back.  (Used to tell quoted texts apart.) *)
Definition hex_value (c : ascii) : nat :=
  if between 48 57 c then code c - 48 else code c - 55.

Definition unquote_char (s : str) : option (ascii * str) :=
  match s with
  | [] => None
  | c :: r =>
      if Ascii.eqb c PERCENT then
        match r with
        | h1 :: l1 :: r1 =>
            let b1 := 16 * hex_value h1 + hex_value l1 in
            if b1 <? 128 then Some (chr b1, r1)
            else match r1 with
                 | _ :: h2 :: l2 :: r2 =>
                     let b2 := 16 * hex_value h2 + hex_value l2 in
                     Some (chr (64 * (b1 - 192) + (b2 - 128)), r2)
                 | _ => None
                 end
        | _ => None
        end
      else Some (c, r)
  end.

(** *** The text of a CSV file *)

(** A field between quotes: every quote of the field is written twice. *)
Definition double_quotes (f : str) : str :=
  flat_map (fun c => if Ascii.eqb c DQ then [DQ; DQ] else [c]) f.

(** A field as it stands in the file, between quotes or bare. *)
Definition written (qf : bool * str) : str :=
  if fst qf then DQ :: double_quotes (snd qf) ++ [DQ] else snd qf.

Definition csv_line (row : list (bool * str)) : str := join [COMMA] (map written row).

Definition csv_text (rows : list (list (bool * str))) : str :=
  join [NL] (map csv_line rows).

(** A field that can stand bare: without comma, quote and line
    boundary. *)
Definition bare_ok (f : str) : bool :=
  forallb (fun c => negb (Ascii.eqb c COMMA || Ascii.eqb c DQ || is_linebreak c)) f.

Definition writable (qf : bool * str) : bool :=
  (fst qf || bare_ok (snd qf)) && (length (snd qf) <=? Csv.field_limit).

(** A row that can be written: it has a field, its line is not empty (it
    is not one bare empty field), and every field can be written. *)
Definition row_ok (row : list (bool * str)) : bool :=
  match row with
  | [] => false
  | [(false, [])] => false
  | _ => forallb writable row
  end.

(** The field without its line boundaries. *)
Definition unbroken (f : str) : str := filter (fun c => negb (is_linebreak c)) f.

(** *** The reader on the text

    [stream] reads the text character by character: what the reader
    yields for the lines of [splitlines], without the list of the
    lines.  [started] tells that the line being read is not empty. *)

Definition end_line (r : Csv.reader) (k : Csv.reader -> list (list str) * bool)
  : list (list str) * bool :=
  match Csv.process None r with
  | None => ([], true)
  | Some r' =>
      match Csv.st r' with
      | Csv.START_RECORD =>
          let '(rows, failed) := k Csv.fresh in (Csv.fields r' :: rows, failed)
      | _ => k r'
      end
  end.

Fixpoint stream (s : str) (started : bool) (r : Csv.reader) : list (list str) * bool :=
  match s with
  | [] => if started then end_line r (Csv.rows_from []) else Csv.rows_from [] r
  | c :: rest =>
      if is_linebreak c then
        match rest with
        | d :: rest' =>
            if Ascii.eqb c CR && Ascii.eqb d NL
            then end_line r (stream rest' false)
            else end_line r (stream rest false)
        | [] => end_line r (Csv.rows_from [])
        end
      else
        match Csv.process (Some c) r with
        | None => ([], true)
        | Some r' => stream rest true r'
        end
  end.

(** *** What the proofs say of the reader *)

(** The reader raised no [csv.Error]. *)
Definition no_error (x : list (list str) * bool) : Prop := snd x = false.

(** The reader yielded a row or raised [csv.Error]. *)
Definition yields (x : list (list str) * bool) : Prop := fst x <> [] \/ snd x = true.

(** Where the text goes on after a line boundary. *)
Definition after_break (c : ascii) (s : str) : str :=
  match s with
  | d :: s' => if Ascii.eqb c CR && Ascii.eqb d NL then s' else s
  | [] => []
  end.

(** A field, read up to what follows it: the reader holds the field
    [f], and a comma saves it. *)
Definition field_read (r' : Csv.reader) (done : list str) (f : str) : Prop :=
  Csv.st r' <> Csv.IN_QUOTED_FIELD /\ Csv.st r' <> Csv.EAT_CRNL
  /\ Csv.field r' = f /\ Csv.fields r' = done.

(** What follows the last field of a row: the end of the text, or a line
    feed and the other rows. *)
Definition ending (tail : str) : Prop := tail = [] \/ exists more, tail = NL :: more.

(** The state at the beginning of a field. *)
Definition at_start (r : Csv.reader) : Prop :=
  (Csv.st r = Csv.START_RECORD \/ Csv.st r = Csv.START_FIELD) /\ Csv.field r = [].

(** * Theorems *)

(** ** [name_lf] *)

Lemma split1_app_sep (sep : ascii) (a b : str) :
  contains sep a = false -> split1 sep (a ++ sep :: b) = Some (a, b).
Proof.
  induction a as [|c a IH]; simpl; intros H.
  - now rewrite Ascii.eqb_refl.
  - apply orb_false_iff in H as [Hc Ha].
    rewrite Ascii.eqb_sym, Hc, (IH Ha). reflexivity.
Qed.

Lemma split1_none (sep : ascii) (s : str) :
  contains sep s = false -> split1 sep s = None.
Proof.
  induction s as [|c s IH]; simpl; intros H; [reflexivity|].
  apply orb_false_iff in H as [Hc Hs].
  now rewrite Ascii.eqb_sym, Hc, (IH Hs).
Qed.

Lemma name_lf_first_space (first rest : str) :
  contains SP first = false ->
  name_lf (first ++ SP :: rest) = rest ++ lit ", " ++ first.
Proof.
  intros H. unfold name_lf. now rewrite (split1_app_sep _ _ _ H).
Qed.

(** C9: a two-part name "First Last" with exactly one space is keyed as
    "Last, First", and a name without a space is returned unchanged. *)
Theorem name_lf_two_part_and_single_token :
  (forall first last : str,
      contains SP first = false -> contains SP last = false ->
      name_lf (first ++ lit " " ++ last) = last ++ lit ", " ++ first)
  /\ (forall name : str, contains SP name = false -> name_lf name = name).
Proof.
  split.
  - intros first last Hf _. apply (name_lf_first_space _ _ Hf).
  - intros name H. unfold name_lf. now rewrite (split1_none _ _ H).
Qed.

Lemma name_lf_two_part_and_single_token_witness :
  name_lf (lit "Jane" ++ lit " " ++ lit "Doe") = lit "Doe" ++ lit ", " ++ lit "Jane"
  /\ name_lf (lit "Cher") = lit "Cher".
Proof.
  split.
  - apply (proj1 name_lf_two_part_and_single_token); reflexivity.
  - apply (proj2 name_lf_two_part_and_single_token); reflexivity.
Defined.

(** ** [textwrap] and [toml_string] *)


Lemma is_blank_app (a b : str) : is_blank (a ++ b) = is_blank a && is_blank b.
Proof. unfold is_blank. apply forallb_app. Qed.

Lemma is_blank_firstn n (s : str) : is_blank s = true -> is_blank (firstn n s) = true.
Proof.
  intros H. rewrite <- (firstn_skipn n s), is_blank_app in H.
  now apply andb_true_iff in H.
Qed.

Lemma is_blank_skipn n (s : str) : is_blank s = true -> is_blank (skipn n s) = true.
Proof.
  intros H. rewrite <- (firstn_skipn n s), is_blank_app in H.
  now apply andb_true_iff in H.
Qed.

Lemma take_fitting_spec w (chunks cur : list str) n chunks2 cur2 n2 :
  take_fitting w chunks cur n = (chunks2, cur2, n2) ->
  exists taken,
    chunks = taken ++ chunks2 /\ cur2 = cur ++ taken
    /\ n2 = n + length (concat taken)
    /\ (n <= w -> n2 <= w)
    /\ match chunks2 with [] => True | d :: _ => w < n2 + length d end.
Proof.
  revert cur n. induction chunks as [|c rest IH]; simpl; intros cur n H.
  - inversion H; subst. exists []. simpl. rewrite app_nil_r.
    repeat split; auto; lia.
  - destruct (n + length c <=? w) eqn:E.
    + apply IH in H as (taken & -> & -> & -> & Hle & Hd).
      exists (c :: taken). simpl. rewrite <- app_assoc, length_app.
      apply Nat.leb_le in E.
      repeat split; auto; try lia.
    + inversion H; subst. exists []. simpl. rewrite app_nil_r.
      apply Nat.leb_gt in E. repeat split; auto; lia.
Qed.

Lemma rfind_from_bound i stop c s j :
  rfind_from i stop c s = Some j -> i <= j /\ j < stop /\ j < i + length s.
Proof.
  revert i. induction s as [|x r IH]; simpl; intros i H; [discriminate|].
  destruct (stop <=? i) eqn:E; [discriminate|].
  apply Nat.leb_gt in E.
  destruct (rfind_from (S i) stop c r) eqn:R.
  - inversion H; subst. apply IH in R. lia.
  - destruct (Ascii.eqb x c); inversion H; subst. lia.
Qed.

Lemma handle_long_word_spec (d : str) (rest cur : list str) cur_len w :
  1 <= w -> cur_len <= w -> w < length d ->
  exists e,
    _handle_long_word (d :: rest) cur cur_len w
      = (skipn e d :: rest, cur ++ [firstn e d])
    /\ e <= w - cur_len /\ e < length d /\ (cur_len = 0 -> 1 <= e).
Proof.
  intros Hw Hc Hd. unfold _handle_long_word.
  replace (w <? 1) with false by (symmetry; apply Nat.ltb_ge; lia).
  replace (w - cur_len <? length d) with true by (symmetry; apply Nat.ltb_lt; lia).
  destruct (rfind HYPHEN (w - cur_len) d) as [h|] eqn:R.
  - apply rfind_from_bound in R. 
    destruct ((0 <? h) && existsb (fun c => negb (is_hyphen c)) (firstn h d)).
    + exists (h + 1). repeat split; try reflexivity; lia.
    + exists (w - cur_len). repeat split; try reflexivity; try lia.
  - exists (w - cur_len). repeat split; try reflexivity; lia.
Qed.

Lemma drop_trailing_blank_spec (cur : list str) :
  exists post,
    concat cur = concat (drop_trailing_blank cur) ++ post
    /\ is_blank post = true
    /\ (drop_trailing_blank cur = cur /\ post = []
          /\ (cur = [] \/ exists init x, cur = init ++ [x] /\ is_blank x = false)
        \/ cur = drop_trailing_blank cur ++ [post]).
Proof.
  unfold drop_trailing_blank.
  destruct (rev cur) as [|c t] eqn:E.
  - exists []. rewrite app_nil_r. repeat split; auto. left. repeat split; auto.
    left. now apply (f_equal (@rev str)) in E; rewrite rev_involutive in E.
  - assert (Hcur : cur = rev t ++ [c]).
    { rewrite <- (rev_involutive cur), E. reflexivity. }
    destruct (is_blank c) eqn:B.
    + exists c. rewrite Hcur, removelast_last, concat_app. simpl.
      rewrite app_nil_r. repeat split; auto.
    + exists []. rewrite app_nil_r. repeat split; auto. left. repeat split; auto.
      right. exists (rev t), c. auto.
Qed.

Lemma wrap_step_inv w (c0 : str) (rest0 lines chunks' lines' : list str) :
  1 <= w ->
  wrap_step w (c0 :: rest0) lines = (chunks', lines') ->
  exists (pre : str) (taken chunks2 cur3 : list str) (post : str),
    ((is_blank c0 = true /\ lines <> [] /\ pre = c0 /\ rest0 = taken ++ chunks2)
     \/ ((is_blank c0 = false \/ lines = []) /\ pre = []
         /\ c0 :: rest0 = taken ++ chunks2))
    /\ length (concat taken) <= w
    /\ match chunks2 with
       | [] => True
       | d :: _ => w < length (concat taken) + length d
       end
    /\ ((exists d r2 e,
            chunks2 = d :: r2 /\ w < length d
            /\ e <= w - length (concat taken) /\ e < length d
            /\ (length (concat taken) = 0 -> 1 <= e)
            /\ chunks' = skipn e d :: r2 /\ cur3 = taken ++ [firstn e d])
        \/ (match chunks2 with [] => True | d :: _ => length d <= w end
            /\ chunks' = chunks2 /\ cur3 = taken))
    /\ is_blank post = true
    /\ (drop_trailing_blank cur3 = cur3 /\ post = []
          /\ (cur3 = [] \/ exists init x, cur3 = init ++ [x] /\ is_blank x = false)
        \/ cur3 = drop_trailing_blank cur3 ++ [post])
    /\ (drop_trailing_blank cur3 = [] /\ lines' = lines
        \/ drop_trailing_blank cur3 <> []
           /\ lines' = lines ++ [concat (drop_trailing_blank cur3)]).
Proof.
  intros Hw H. unfold wrap_step in H.
  set (chunks1 := if is_blank c0 && negb match lines with [] => true | _ => false end
                  then rest0 else c0 :: rest0) in H.
  destruct (take_fitting w chunks1 [] 0) as [[chunks2 cur] n] eqn:T.
  apply take_fitting_spec in T as (taken & H1 & Hcur & Hn & Hle & Hfit).
  simpl in Hcur, Hn. subst cur n. specialize (Hle (Nat.le_0_l _)).
  assert (Hpre : exists pre : str,
             (is_blank c0 = true /\ lines <> [] /\ pre = c0 /\ rest0 = taken ++ chunks2)
             \/ ((is_blank c0 = false \/ lines = []) /\ pre = []
                 /\ c0 :: rest0 = taken ++ chunks2)).
  { subst chunks1. destruct (is_blank c0) eqn:B; simpl in H1.
    - destruct lines as [|l0 ls]; simpl in H1.
      + exists []. right. auto.
      + exists c0. left. repeat split; auto. discriminate.
    - exists []. right. auto. }
  destruct Hpre as (pre & Hpre). clear H1 chunks1.
  assert (Hlong : exists cur3 : list str,
     ((exists d r2 e,
            chunks2 = d :: r2 /\ w < length d
            /\ e <= w - length (concat taken) /\ e < length d
            /\ (length (concat taken) = 0 -> 1 <= e)
            /\ (match chunks2 with
                | c :: _ => if w <? length c
                            then _handle_long_word chunks2 taken (length (concat taken)) w
                            else (chunks2, taken)
                | [] => (chunks2, taken) end) = (skipn e d :: r2, cur3)
            /\ cur3 = taken ++ [firstn e d])
        \/ (match chunks2 with [] => True | d :: _ => length d <= w end
            /\ (match chunks2 with
                | c :: _ => if w <? length c
                            then _handle_long_word chunks2 taken (length (concat taken)) w
                            else (chunks2, taken)
                | [] => (chunks2, taken) end) = (chunks2, cur3) /\ cur3 = taken))).
  { destruct chunks2 as [|d r2].
    - exists taken. right. auto.
    - destruct (w <? length d) eqn:L.
      + apply Nat.ltb_lt in L.
        destruct (handle_long_word_spec d r2 taken (length (concat taken)) w Hw Hle L)
          as (e & He & H2 & H3 & H4).
        exists (taken ++ [firstn e d]). left. exists d, r2, e. rewrite He.
        repeat split; auto.
      + apply Nat.ltb_ge in L. exists taken. right. auto. }
  destruct Hlong as (cur3 & Hlong).
  destruct (drop_trailing_blank_spec cur3) as (post & _ & Hpost & Hdrop).
  exists pre, taken, chunks2, cur3, post.
  split; [exact Hpre|]. split; [exact Hle|]. split; [exact Hfit|].
  assert (Hres : exists chunks3,
             (match chunks2 with
              | c :: _ => if w <? length c
                          then _handle_long_word chunks2 taken (length (concat taken)) w
                          else (chunks2, taken)
              | [] => (chunks2, taken) end) = (chunks3, cur3)
             /\ ((exists d r2 e,
                     chunks2 = d :: r2 /\ w < length d
                     /\ e <= w - length (concat taken) /\ e < length d
                     /\ (length (concat taken) = 0 -> 1 <= e)
                     /\ chunks3 = skipn e d :: r2 /\ cur3 = taken ++ [firstn e d])
                 \/ (match chunks2 with [] => True | d :: _ => length d <= w end
                     /\ chunks3 = chunks2 /\ cur3 = taken))).
  { destruct Hlong as [(d & r2 & e & A1 & A2 & A3 & A4 & A5 & A6 & A7)|(A1 & A2 & A3)].
    - exists (skipn e d :: r2). split; [exact A6|]. left. exists d, r2, e. repeat split; auto.
    - exists chunks2. split; [exact A2|]. right. auto. }
  destruct Hres as (chunks3 & Heq & Hshape).
  rewrite Heq in H.
  destruct (drop_trailing_blank cur3) as [|x xs] eqn:D4.
  - inversion H; subst chunks' lines'.
    split; [exact Hshape|]. split; [exact Hpost|]. split; [exact Hdrop|]. left. auto.
  - inversion H; subst chunks' lines'.
    split; [exact Hshape|]. split; [exact Hpost|]. split; [exact Hdrop|]. right.
    split; [discriminate|reflexivity].
Qed.

Lemma passes_app (a b : list str) : passes (a ++ b) = passes a + passes b.
Proof. induction a as [|x a IH]; simpl; [reflexivity|]. rewrite IH. lia. Qed.

Lemma length_concat_app (a b : list str) :
  length (concat (a ++ b)) = length (concat a) + length (concat b).
Proof. now rewrite concat_app, length_app. Qed.



Lemma wrap_step_full w (c0 : str) (rest0 lines chunks' lines' : list str) :
  1 <= w ->
  wrap_step w (c0 :: rest0) lines = (chunks', lines') ->
  exists (pre : str) (taken chunks2 cur3 : list str) (post : str),
    ((is_blank c0 = true /\ lines <> [] /\ pre = c0 /\ rest0 = taken ++ chunks2)
     \/ ((is_blank c0 = false \/ lines = []) /\ pre = []
         /\ c0 :: rest0 = taken ++ chunks2))
    /\ ((exists d r2 e,
            chunks2 = d :: r2 /\ w < length d /\ e < length d
            /\ (length (concat taken) = 0 -> 1 <= e)
            /\ chunks' = skipn e d :: r2 /\ cur3 = taken ++ [firstn e d])
        \/ (chunks' = chunks2 /\ cur3 = taken))
    /\ is_blank post = true
    /\ (drop_trailing_blank cur3 = cur3 /\ post = []
          /\ (cur3 = [] \/ exists init x, cur3 = init ++ [x] /\ is_blank x = false)
        \/ cur3 = drop_trailing_blank cur3 ++ [post])
    /\ (drop_trailing_blank cur3 = [] /\ lines' = lines
        \/ drop_trailing_blank cur3 <> []
           /\ lines' = lines ++ [concat (drop_trailing_blank cur3)])
    /\ concat (c0 :: rest0)
       = pre ++ concat (drop_trailing_blank cur3) ++ post ++ concat chunks'
    /\ is_blank pre = true
    /\ length (concat (drop_trailing_blank cur3)) <= w
    /\ passes chunks' < passes (c0 :: rest0).
Proof.
  intros Hw H.
  destruct (wrap_step_inv _ _ _ _ _ _ Hw H)
    as (pre & taken & chunks2 & cur3 & post & Hpre & Hle & Hfit & Hlong & Hpost & Hdrop & Hline).
  exists pre, taken, chunks2, cur3, post.
  assert (Hcat : concat cur3 = concat (drop_trailing_blank cur3) ++ post).
  { destruct Hdrop as [(-> & -> & _)|E]; [now rewrite app_nil_r|].
    rewrite E at 1. rewrite concat_app. simpl. now rewrite app_nil_r. }
  assert (Hmid : concat taken ++ concat chunks2 = concat cur3 ++ concat chunks'
                 /\ length (concat cur3) <= w
                 /\ passes chunks' <= passes chunks2
                 /\ (taken = [] -> chunks2 <> [] -> passes chunks' < passes chunks2)).
  { destruct Hlong as [(d & r2 & e & -> & A2 & A3 & A4 & A5 & -> & ->)|(A1 & -> & ->)].
    - rewrite concat_app. simpl. rewrite app_nil_r, <- app_assoc.
      rewrite (app_assoc (firstn e d)), firstn_skipn.
      rewrite length_app, length_firstn, length_skipn.
      repeat split; try lia.
      intros -> _. simpl in A5. specialize (A5 eq_refl). lia.
    - repeat split; auto.
      intros -> Hne. destruct chunks2 as [|d r2]; [contradiction|].
      simpl in Hfit. lia. }
  destruct Hmid as (Hmid & Hlen & Hp & Hps).
  assert (Hblank : is_blank pre = true).
  { destruct Hpre as [(B & _ & -> & _)|(_ & -> & _)]; auto. }
  assert (Hall : concat (c0 :: rest0) = pre ++ concat taken ++ concat chunks2
                 /\ passes chunks' < passes (c0 :: rest0)).
  { destruct Hpre as [(B & _ & -> & ->)|(_ & -> & E)].
    - simpl. rewrite concat_app, passes_app. split; [reflexivity|]. lia.
    - rewrite E, concat_app, passes_app. split; [reflexivity|].
      destruct taken as [|t ts].
      + simpl in *. apply Hps; auto. rewrite <- E. discriminate.
      + simpl. lia. }
  destruct Hall as (Hall & Hdec).
  split; [exact Hpre|].
  split.
  { destruct Hlong as [(d & r2 & e & A1 & A2 & A3 & A4 & A5 & A6 & A7)|(A1 & A2 & A3)].
    - left. exists d, r2, e. repeat split; auto.
    - right. auto. }
  split; [exact Hpost|]. split; [exact Hdrop|]. split; [exact Hline|].
  split.
  { rewrite Hall, Hmid, Hcat, <- !app_assoc. reflexivity. }
  split; [exact Hblank|].
  split; [|exact Hdec].
  rewrite Hcat, length_app in Hlen. lia.
Qed.


Lemma wrap_loop_lines w n :
  1 <= w ->
  forall chunks lines : list str,
    passes chunks <= n ->
    exists new,
      wrap_loop n w chunks lines = Some (lines ++ new)
      /\ Forall (fun l => length l <= w /\ substr l (concat chunks)) new.
Proof.
  intros Hw. induction n as [|n IH]; intros chunks lines Hn.
  - destruct chunks as [|c0 rest0]; [|simpl in Hn; lia].
    exists []. simpl. now rewrite app_nil_r.
  - destruct chunks as [|c0 rest0].
    + exists []. simpl. now rewrite app_nil_r.
    + cbn [wrap_loop].
      destruct (wrap_step w (c0 :: rest0) lines) as [chunks' lines'] eqn:S.
      destruct (wrap_step_full _ _ _ _ _ _ Hw S)
        as (pre & taken & chunks2 & cur3 & post & _ & _ & _ & _ & Hl & Hcat & _ & Hlen & Hdec).
      set (body := concat (drop_trailing_blank cur3)) in *.
      destruct (IH chunks' lines' ltac:(lia)) as (new & Hloop & Hall).
      assert (Hsub : Forall (fun l => length l <= w /\ substr l (concat (c0 :: rest0))) new).
      { eapply Forall_impl; [|exact Hall]. intros l [Hl1 (a & b & Hl2)].
        split; [exact Hl1|]. rewrite Hcat, Hl2.
        exists (pre ++ body ++ post ++ a), b. now rewrite <- !app_assoc. }
      destruct Hl as [[_ ->]|[_ ->]].
      * exists new. auto.
      * exists (body :: new). rewrite Hloop, <- app_assoc. split; [reflexivity|].
        constructor; [|exact Hsub]. split; [exact Hlen|].
        rewrite Hcat. exists pre, (post ++ concat chunks'). reflexivity.
Qed.

Lemma span_app p (s a b : str) : span p s = (a, b) -> s = a ++ b.
Proof.
  revert a b. induction s as [|c r IH]; simpl; intros a b H.
  - now inversion H.
  - destruct (p c).
    + destruct (span p r) as [a' b']. inversion H; subst. simpl. f_equal. now apply IH.
    + now inversion H.
Qed.

Lemma span_all p (s a b : str) : span p s = (a, b) -> forallb p a = true.
Proof.
  revert a b. induction s as [|c r IH]; simpl; intros a b H.
  - now inversion H.
  - destruct (p c) eqn:E.
    + destruct (span p r) as [a' b']. inversion H; subst. simpl. rewrite E. eapply IH; eauto.
    + now inversion H.
Qed.

Lemma span_rest p (s a b : str) :
  span p s = (a, b) -> match b with [] => True | c :: _ => p c = false end.
Proof.
  revert a b. induction s as [|c r IH]; simpl; intros a b H.
  - now inversion H.
  - destruct (p c) eqn:E.
    + destruct (span p r) as [a' b']. inversion H; subst. eapply IH; eauto.
    + inversion H; subst. exact E.
Qed.

Lemma word_end_app (before acc s chunk rest : str) :
  word_end before acc s = (chunk, rest) ->
  acc ++ s = chunk ++ rest /\ length acc <= length chunk.
Proof.
  revert before acc. induction s as [|c r IH]; simpl; intros before acc H.
  - inversion H; subst. split; auto.
  - destruct (is_hyphen c && hyphen_behind before && hyphen_ahead r).
    + inversion H; subst. rewrite <- app_assoc. simpl. rewrite length_app. simpl. split; auto; lia.
    + destruct (is_ws c); [inversion H; subst; split; auto|].
      destruct (word_punct_behind before && emdash_ahead (c :: r));
        [inversion H; subst; split; auto|].
      apply IH in H as [H1 H2]. rewrite <- app_assoc in H1. simpl in H1.
      rewrite length_app in H2. simpl in H2. split; [exact H1|lia].
Qed.

Lemma match_chunk_app (before s : str) :
  s <> [] ->
  exists chunk rest,
    match_chunk before s = Some (chunk, rest) /\ s = chunk ++ rest /\ chunk <> [].
Proof.
  destruct s as [|c r]; [contradiction|]. intros _. unfold match_chunk.
  destruct (is_ws c) eqn:W.
  - destruct (span is_ws (c :: r)) as [a b] eqn:S. exists a, b.
    split; [reflexivity|]. split; [eapply span_app; eauto|].
    simpl in S. rewrite W in S. destruct (span is_ws r). inversion S. discriminate.
  - destruct (word_punct_behind before && emdash_ahead (c :: r)) eqn:E.
    + destruct (span is_hyphen (c :: r)) as [a b] eqn:S. exists a, b.
      split; [reflexivity|]. split; [eapply span_app; eauto|].
      apply andb_true_iff in E as [_ E]. unfold emdash_ahead in E. rewrite S in E.
      destruct a; [discriminate|discriminate].
    + destruct (word_end (c :: before) [c] r) as [a b] eqn:S. exists a, b.
      split; [reflexivity|]. apply word_end_app in S as [S1 S2].
      split; [exact S1|]. destruct a; [simpl in S2; lia|discriminate].
Qed.

Lemma split_n_concat n : forall before s : str,
  length s <= n -> concat (split_n n before s) = s.
Proof.
  induction n as [|n IH]; intros before s H.
  - destruct s; [reflexivity|simpl in H; lia].
  - destruct s as [|c r]; [reflexivity|].
    destruct (match_chunk_app before (c :: r) ltac:(discriminate))
      as (chunk & rest & M & E & Hne).
    cbn [split_n]. rewrite M. simpl. rewrite IH; [now rewrite E|].
    assert (L : length (c :: r) = length chunk + length rest)
      by now rewrite E, length_app.
    destruct chunk; [contradiction|]. simpl in L, H |- *. lia.
Qed.

Lemma split_concat (text : str) : concat (_split text) = text.
Proof. apply split_n_concat. lia. Qed.

Lemma wrap_lines (text : str) w :
  1 <= w ->
  Forall (fun l => length l <= w /\ substr l (_munge_whitespace text)) (wrap text w).
Proof.
  intros Hw. unfold wrap, _wrap_chunks, _split_chunks.
  destruct (wrap_loop_lines w (passes (_split (_munge_whitespace text))) Hw
              (_split (_munge_whitespace text)) [] (le_n _)) as (new & -> & H).
  simpl. now rewrite split_concat in H.
Qed.


Lemma no_qq_app_l (a b : str) : no_qq (a ++ b) = true -> no_qq a = true.
Proof.
  induction a as [|c a IH]; simpl; [reflexivity|]. intros H.
  apply andb_true_iff in H as [H1 H2]. rewrite (IH H2), andb_true_r.
  destruct a; simpl in *; [now rewrite andb_false_r|exact H1].
Qed.

Lemma no_qq_app_r (a b : str) : no_qq (a ++ b) = true -> no_qq b = true.
Proof.
  induction a as [|c a IH]; simpl; [auto|]. intros H.
  apply andb_true_iff in H as [_ H2]. auto.
Qed.

Lemma no_qq_substr (l text : str) : substr l text -> no_qq text = true -> no_qq l = true.
Proof.
  intros (a & b & ->) H. apply no_qq_app_r in H. now apply no_qq_app_l in H.
Qed.

Lemma no_qq_app (a b : str) :
  no_qq a = true -> no_qq b = true ->
  (starts_dq (rev a) && starts_dq b = false) -> no_qq (a ++ b) = true.
Proof.
  induction a as [|c a IH]; simpl; [auto|]. intros Ha Hb Hj.
  apply andb_true_iff in Ha as [H1 H2].
  destruct a as [|d a].
  - simpl in *. now rewrite Hj, Hb.
  - rewrite IH; auto.
    + simpl in *. now rewrite H1.
    + cbn [rev] in Hj |- *. destruct (rev a ++ [d]) eqn:E.
      * destruct (rev a); discriminate.
      * exact Hj.
Qed.

Lemma no_qq_triple (a b : str) : no_qq (a ++ TRIPLE ++ b) = false.
Proof.
  induction a as [|c a IH].
  - reflexivity.
  - cbn [app no_qq]. rewrite IH. apply andb_false_r.
Qed.

Lemma strip_prefix_app (p s rest : str) : strip_prefix p s = Some rest -> s = p ++ rest.
Proof.
  revert s. induction p as [|a p IH]; simpl; intros s H.
  - now inversion H.
  - destruct s as [|b s]; [discriminate|].
    destruct (Ascii.eqb_spec a b); [|discriminate]. subst. f_equal. auto.
Qed.

(** After the quotes are escaped no two quotes touch. *)
Lemma replace_quote_start n (s : str) :
  starts_dq (replace_n n [DQ] [BSL; DQ] s) = true -> n = 0 /\ starts_dq s = true.
Proof.
  destruct n; [simpl; auto|].
  destruct s as [|c r]; [simpl; intros H; discriminate H|].
  cbn [replace_n strip_prefix].
  destruct (Ascii.eqb_spec DQ c).
  - intros H; discriminate H.
  - cbn [starts_dq]. unfold is_dq.
    destruct (Ascii.eqb_spec c DQ); [congruence|intros H; discriminate H].
Qed.

Lemma replace_quote_no_qq n : forall s : str,
  length s <= n -> no_qq (replace_n n [DQ] [BSL; DQ] s) = true.
Proof.
  induction n as [|n IH]; intros s H.
  - destruct s; [reflexivity|simpl in H; lia].
  - destruct s as [|c r]; [reflexivity|]. simpl in H.
    assert (Y : starts_dq (replace_n n [DQ] [BSL; DQ] r) = false).
    { destruct (starts_dq (replace_n n [DQ] [BSL; DQ] r)) eqn:E; [|reflexivity].
      apply replace_quote_start in E as [-> E]. destruct r; [discriminate|simpl in H; lia]. }
    cbn [replace_n strip_prefix].
    destruct (Ascii.eqb DQ c).
    + cbn [app no_qq]. rewrite Y, IH by lia. reflexivity.
    + cbn [no_qq]. rewrite Y, IH by lia. now rewrite andb_false_r.
Qed.

(** A replacement by a text without quotes that is not empty keeps the
    quotes apart. *)
Lemma replace_start (old new : str) n (s : str) :
  new <> [] -> existsb is_dq new = false ->
  starts_dq (replace_n n old new s) = true -> starts_dq s = true.
Proof.
  intros Hne Hq. destruct n; [simpl; auto|].
  destruct s as [|c r]; [simpl; auto|]. cbn [replace_n].
  destruct (strip_prefix old (c :: r)); [|simpl; auto].
  destruct new as [|x new]; [contradiction|]. simpl in Hq |- *.
  apply orb_false_iff in Hq as [-> _]. intros H; discriminate H.
Qed.

Lemma no_qq_prepend (new x : str) :
  existsb is_dq new = false -> no_qq x = true -> no_qq (new ++ x) = true.
Proof.
  induction new as [|c new IH]; simpl; [auto|]. intros Hq Hx.
  apply orb_false_iff in Hq as [-> Hq]. simpl. auto.
Qed.

Lemma replace_no_qq (old new : str) n :
  new <> [] -> existsb is_dq new = false ->
  forall s : str, no_qq s = true -> no_qq (replace_n n old new s) = true.
Proof.
  intros Hne Hq. induction n as [|n IH]; intros s H; [exact H|].
  destruct s as [|c r]; [reflexivity|]. cbn [replace_n].
  destruct (strip_prefix old (c :: r)) as [rest|] eqn:P.
  - apply no_qq_prepend; [exact Hq|]. apply IH.
    apply strip_prefix_app in P. rewrite P in H. now apply no_qq_app_r in H.
  - cbn [no_qq] in H |- *. apply andb_true_iff in H as [H1 H2].
    rewrite (IH _ H2), andb_true_r.
    destruct (starts_dq (replace_n n old new r)) eqn:E; [|now rewrite andb_false_r].
    apply (replace_start old new n r Hne Hq) in E. now rewrite E in H1.
Qed.

Lemma escape_no_qq (s : str) : no_qq (toml_escape_basic s) = true.
Proof.
  unfold toml_escape_basic, replace.
  apply replace_no_qq; [discriminate|reflexivity|].
  apply replace_no_qq; [discriminate|reflexivity|].
  apply replace_quote_no_qq. lia.
Qed.

Lemma substr_refl (s : str) : substr s s.
Proof. exists [], []. now rewrite app_nil_r. Qed.

Lemma substr_extend (l t a b : str) : substr l t -> substr l (a ++ t ++ b).
Proof.
  intros (x & y & ->). exists (a ++ x), (y ++ b). now rewrite <- !app_assoc.
Qed.

Lemma splitlines_from_substr n : forall (s cur p : str),
  length s <= n -> In p (splitlines_from cur s) -> substr p (cur ++ s).
Proof.
  induction n as [|n IH]; intros s cur p Hn Hin.
  - destruct s; [|simpl in Hn; lia]. simpl in Hin. rewrite app_nil_r.
    destruct cur; [contradiction|]. destruct Hin as [<-|[]]. apply substr_refl.
  - destruct s as [|c r].
    + simpl in Hin. rewrite app_nil_r.
      destruct cur; [contradiction|]. destruct Hin as [<-|[]]. apply substr_refl.
    + simpl in Hn. cbn [splitlines_from] in Hin.
      destruct (is_linebreak c).
      * destruct Hin as [<-|Hin].
        { exists [], (c :: r). reflexivity. }
        destruct r as [|d r']; [contradiction|].
        destruct (Ascii.eqb c CR && Ascii.eqb d NL).
        -- apply IH in Hin; [|simpl in Hn |- *; lia]. simpl in Hin.
           destruct Hin as (x & y & ->).
           exists (cur ++ c :: d :: x), y. now rewrite <- app_assoc.
        -- apply IH in Hin; [|simpl in Hn |- *; lia]. simpl in Hin.
           destruct Hin as (x & y & E).
           exists (cur ++ c :: x), y. rewrite E, <- app_assoc. reflexivity.
      * apply IH in Hin; [|lia]. now rewrite <- app_assoc in Hin.
Qed.

Lemma splitlines_substr (s p : str) : In p (splitlines s) -> substr p s.
Proof. intros H. apply (splitlines_from_substr (length s) s [] p (le_n _) H). Qed.

Lemma no_qq_map (f : ascii -> ascii) (s : str) :
  (forall c, is_dq (f c) = is_dq c) -> no_qq (map f s) = no_qq s.
Proof.
  intros Hf. induction s as [|c r IH]; [reflexivity|].
  cbn [map no_qq]. rewrite IH, Hf. destruct r; simpl; [reflexivity|now rewrite Hf].
Qed.

Lemma no_qq_spaces k (x : str) : no_qq (repeat SP k ++ x) = no_qq x.
Proof. induction k as [|k IH]; [reflexivity|]. cbn [repeat app no_qq]. now rewrite IH. Qed.

Lemma expandtabs_start col (s : str) :
  starts_dq (expandtabs_from 8 col s) = true -> starts_dq s = true.
Proof.
  destruct s as [|c r]; [auto|]. cbn [expandtabs_from].
  destruct (Ascii.eqb c TAB) eqn:T.
  - replace (0 <? 8) with true by reflexivity. cbv zeta.
    pose proof (Nat.mod_upper_bound col 8 ltac:(lia)) as Hm.
    destruct (8 - col mod 8) as [|k] eqn:E; [lia|].
    intros H; discriminate H.
  - destruct (Ascii.eqb c NL || Ascii.eqb c CR); auto.
Qed.

Lemma expandtabs_no_qq (s : str) : forall col,
  no_qq s = true -> no_qq (expandtabs_from 8 col s) = true.
Proof.
  induction s as [|c r IH]; intros col H; [reflexivity|].
  cbn [no_qq] in H. apply andb_true_iff in H as [H1 H2].
  cbn [expandtabs_from].
  assert (Hc : forall col', no_qq (c :: expandtabs_from 8 col' r) = true).
  { intros col'. cbn [no_qq]. rewrite (IH _ H2), andb_true_r.
    destruct (starts_dq (expandtabs_from 8 col' r)) eqn:E; [|now rewrite andb_false_r].
    apply expandtabs_start in E. now rewrite E in H1. }
  destruct (Ascii.eqb c TAB).
  - replace (0 <? 8) with true by reflexivity. cbv zeta.
    rewrite no_qq_spaces. auto.
  - destruct (Ascii.eqb c NL || Ascii.eqb c CR); apply Hc.
Qed.

Lemma munge_no_qq (p : str) : no_qq p = true -> no_qq (_munge_whitespace p) = true.
Proof.
  intros H. unfold _munge_whitespace. rewrite no_qq_map.
  - now apply expandtabs_no_qq.
  - intros c. unfold is_dq. destruct (Ascii.eqb_spec c DQ) as [->|Hc]; [reflexivity|].
    destruct (is_ws c); [reflexivity|]. now destruct (Ascii.eqb_spec c DQ).
Qed.

Lemma join_no_qq (ls : list str) :
  Forall (fun l => no_qq l = true) ls -> no_qq (join [NL] ls) = true.
Proof.
  induction 1 as [|l ls Hl Hls IH]; [reflexivity|].
  cbn [join]. destruct ls as [|l2 ls2]; [exact Hl|].
  apply no_qq_app; [exact Hl|exact IH|apply andb_false_r].
Qed.

Lemma fill_no_qq (p : str) : no_qq p = true -> no_qq (fill p 80) = true.
Proof.
  intros H. unfold fill. apply join_no_qq.
  eapply Forall_impl; [|apply (wrap_lines p 80); lia].
  intros l [_ Hl]. apply (no_qq_substr _ _ Hl). now apply munge_no_qq.
Qed.

Lemma wrapped_no_qq (s : str) : no_qq (wrapped s) = true.
Proof.
  unfold wrapped. apply join_no_qq. apply Forall_forall. intros l Hl.
  apply in_map_iff in Hl as (p & <- & Hp). apply fill_no_qq.
  apply (no_qq_substr _ _ (splitlines_substr _ _ Hp)). apply escape_no_qq.
Qed.

Lemma strip_prefix_length (p s rest : str) :
  strip_prefix p s = Some rest -> length s = length p + length rest.
Proof. intros H. apply strip_prefix_app in H. now rewrite H, length_app. Qed.

(** The counter of [replace_n] is never used up: any two counters that
    are at least the length of the text give the same result. *)
Lemma replace_n_enough (old new : str) :
  old <> [] ->
  forall (n m : nat) (s : str),
    length s <= n -> length s <= m -> replace_n n old new s = replace_n m old new s.
Proof.
  intros Ho. induction n as [|n IH]; intros m s Hn Hm.
  - destruct s; [|simpl in Hn; lia]. destruct m; reflexivity.
  - destruct s as [|c r]; [destruct m; reflexivity|].
    destruct m as [|m]; [simpl in Hm; lia|]. simpl in Hn, Hm.
    cbn [replace_n]. destruct (strip_prefix old (c :: r)) as [rest|] eqn:P.
    + apply strip_prefix_length in P. simpl in P.
      destruct old; [contradiction|]. simpl in P.
      f_equal. apply IH; lia.
    + f_equal. apply IH; lia.
Qed.

(** [replace] as the equation one expects of it. *)
Lemma replace_unfold (old new : str) (c : ascii) (r : str) :
  old <> [] ->
  replace old new (c :: r)
  = match strip_prefix old (c :: r) with
    | Some rest => new ++ replace old new rest
    | None => c :: replace old new r
    end.
Proof.
  intros Ho. unfold replace. cbn [length replace_n].
  destruct (strip_prefix old (c :: r)) as [rest|] eqn:P.
  - apply strip_prefix_length in P. simpl in P.
    destruct old; [contradiction|]. simpl in P.
    f_equal. apply replace_n_enough; [discriminate|lia|lia].
  - reflexivity.
Qed.

(** A text without two quotes side by side has no three quotes to
    replace: the copy [esc] that [toml_string] computes is the text it
    emits. *)
Lemma replace_triple_no_qq (n : nat) : forall s : str,
  no_qq s = true -> replace_n n TRIPLE (BSL :: TRIPLE) s = s.
Proof.
  induction n as [|n IH]; intros s H; [reflexivity|].
  destruct s as [|c r]; [reflexivity|]. cbn [replace_n].
  destruct (strip_prefix TRIPLE (c :: r)) as [rest|] eqn:P.
  - apply strip_prefix_app in P. rewrite P in H.
    pose proof (no_qq_triple [] rest) as Q. simpl in Q. simpl in H. congruence.
  - f_equal. apply IH. cbn [no_qq] in H. now apply andb_true_iff in H.
Qed.

Lemma unused_escape_is_the_text (s : str) :
  replace TRIPLE (BSL :: TRIPLE) (wrapped s) = wrapped s.
Proof. apply replace_triple_no_qq, wrapped_no_qq. Qed.

(** The bound on the passes of [_wrap_chunks] is never reached. *)
Lemma wrap_chunks_total (w : nat) (chunks : list str) :
  1 <= w -> exists lines, wrap_loop (passes chunks) w chunks [] = Some lines.
Proof.
  intros Hw. destruct (wrap_loop_lines w (passes chunks) Hw chunks [] (le_n _))
    as (new & H & _).
  exists new. exact H.
Qed.

(** C1: when the escaped and wrapped text has a newline, [toml_string]
    gives the block of three quotes, newline, text, newline, three quotes,
    and wherever three quotes stand in the text a backslash stands in
    front of them; otherwise it gives the text between two double
    quotes. *)
Theorem toml_string_block_or_scalar (s : str) :
  (contains NL (wrapped s) = true ->
     toml_string s = TRIPLE ++ [NL] ++ wrapped s ++ [NL] ++ TRIPLE
     /\ forall a b : str, wrapped s = a ++ TRIPLE ++ b -> exists a', a = a' ++ [BSL])
  /\ (contains NL (wrapped s) = false ->
        toml_string s = [DQ] ++ wrapped s ++ [DQ]).
Proof.
  unfold toml_string. split; intros H; rewrite H.
  - split; [reflexivity|]. intros a b E.
    pose proof (wrapped_no_qq s) as Q. rewrite E, no_qq_triple in Q. discriminate Q.
  - reflexivity.
Qed.
Lemma tidy_app_r w (a b : list str) : tidy w (a ++ b) -> tidy w b.
Proof. induction a as [|x a IH]; simpl; [auto|]. intros (_ & _ & H). auto. Qed.

Lemma tidy_long w (d : str) (r : list str) :
  tidy w (d :: r) -> w < length d -> is_blank d = true.
Proof.
  intros (_ & H & _) L. destruct (is_blank d); [reflexivity|].
  destruct (H eq_refl). lia.
Qed.

Lemma tidy_skipn w (d : str) (r : list str) e :
  tidy w (d :: r) -> is_blank d = true -> e < length d -> tidy w (skipn e d :: r).
Proof.
  intros (H1 & H2 & H3) B L. simpl. split; [|split; [|exact H3]].
  - intros E. apply (f_equal (@length ascii)) in E. rewrite length_skipn in E. simpl in E. lia.
  - rewrite (is_blank_skipn e d B). discriminate.
Qed.

Lemma tidy_head_after w (init : list str) (x d : str) (r : list str) :
  tidy w (init ++ x :: d :: r) -> is_blank x = false -> is_blank d = true.
Proof.
  intros H B. apply tidy_app_r in H. destruct H as (_ & H & _). now destruct (H B).
Qed.

Lemma tidy_concat_nonempty w (l : list str) : tidy w l -> l <> [] -> concat l <> [].
Proof.
  destruct l as [|c r]; [contradiction|]. intros (H & _) _. simpl.
  destruct c; [contradiction|discriminate].
Qed.

Lemma tidy_app_l w (a b : list str) : tidy w (a ++ b) -> Forall (fun c : str => c <> []) a.
Proof.
  induction a as [|x a IH]; simpl; [constructor|]. intros (H1 & _ & H3). constructor; auto.
Qed.

Lemma woven_blank_front (b b' : bool) (g t : str) (ls : list str) :
  is_blank g = true -> woven b' t ls ->
  (b = true -> g <> [] \/ b' = true \/ ls = []) ->
  woven b (g ++ t) ls.
Proof.
  intros Hg Hw Hb. inversion Hw as [b0 g0 Hg0|b0 g0 l t0 ls0 Hg0 Hs Ht]; subst.
  - constructor. now rewrite is_blank_app, Hg, Hg0.
  - rewrite app_assoc. constructor; [now rewrite is_blank_app, Hg, Hg0| |exact Ht].
    intros Hbt. destruct (Hb Hbt) as [Hne|[Hb'|Hnil]].
    + destruct g; [contradiction|discriminate].
    + specialize (Hs Hb'). destruct g; simpl; [exact Hs|discriminate].
    + discriminate.
Qed.

Lemma wrap_loop_woven w n :
  1 <= w ->
  forall (chunks lines : list str) (b : bool),
    passes chunks <= n ->
    tidy w chunks ->
    (b = true ->
     lines <> [] /\ match chunks with [] => True | c :: _ => is_blank c = true end) ->
    exists new,
      wrap_loop n w chunks lines = Some (lines ++ new)
      /\ woven b (concat chunks) new.
Proof.
  intros Hw. induction n as [|n IH]; intros chunks lines b Hn Ht Hb.
  - destruct chunks as [|c0 rest0]; [|simpl in Hn; lia].
    exists []. simpl. rewrite app_nil_r. split; [reflexivity|]. now constructor.
  - destruct chunks as [|c0 rest0].
    + exists []. simpl. rewrite app_nil_r. split; [reflexivity|]. now constructor.
    + cbn [wrap_loop].
      destruct (wrap_step w (c0 :: rest0) lines) as [chunks' lines'] eqn:S.
      destruct (wrap_step_full _ _ _ _ _ _ Hw S)
        as (pre & taken & chunks2 & cur3 & post & Hpre & Hlong & Hpost & Hdrop & Hline
            & Hcat & Hblank & _ & Hdec).
      (* the chunks after the leading drop *)
      assert (Ht1 : tidy w (taken ++ chunks2)).
      { destruct Hpre as [(_ & _ & _ & E)|(_ & _ & E)].
        - rewrite <- E. now destruct Ht as (_ & _ & Ht).
        - now rewrite <- E. }
      assert (Ht' : tidy w chunks'
                    /\ (post = [] -> drop_trailing_blank cur3 <> [] ->
                        match chunks' with [] => True | c :: _ => is_blank c = true end)).
      { destruct Hlong as [(d & r2 & e & -> & A2 & A3 & A4 & -> & ->)|(-> & ->)].
        - pose proof (tidy_app_r _ _ _ Ht1) as Td.
          pose proof (tidy_long _ _ _ Td A2) as Bd.
          split; [now apply tidy_skipn|]. intros _ _. now apply is_blank_skipn.
        - split; [now apply tidy_app_r in Ht1|]. intros -> Hne.
          destruct chunks2 as [|d r2]; [exact I|].
          destruct Hdrop as [(E & _ & [E0|(init & x & E1 & Bx)])|E].
          + rewrite E, E0 in Hne. contradiction.
          + rewrite E1 in Ht1. rewrite <- app_assoc in Ht1.
            now apply (tidy_head_after _ _ _ _ _ Ht1).
          + pose proof (tidy_app_l _ _ _ Ht1) as Hall. rewrite E in Hall.
            apply Forall_app in Hall as [_ Hall]. inversion Hall; subst. contradiction. }
      destruct Ht' as (Ht' & Hpend).
      assert (Hpre_ne : b = true -> pre <> []).
      { intros Hbt. destruct (Hb Hbt) as [Hl Hc0].
        destruct Hpre as [(_ & _ & -> & _)|([B|L] & _ & _)].
        - now destruct Ht.
        - rewrite Hc0 in B. discriminate.
        - contradiction. }
      destruct Hline as [(E4 & ->)|(E4 & ->)].
      * (* no line in this pass: what was read is a gap that is not empty *)
        rewrite E4 in Hcat.
        assert (Hcat' : concat (c0 :: rest0) = (pre ++ post) ++ concat chunks').
        { rewrite Hcat. simpl. now rewrite app_assoc. }
        assert (Hgap : pre ++ post <> []).
        { intros E. apply app_eq_nil in E as [-> ->].
          assert (Hc3 : concat cur3 = []).
          { destruct Hdrop as [(Ed & _ & _)|Ed].
            - rewrite <- Ed, E4. reflexivity.
            - rewrite Ed, E4. reflexivity. }
          assert (Hall : concat (c0 :: rest0) = concat cur3 ++ concat chunks').
          { rewrite Hc3. exact Hcat'. }
          destruct Hpre as [(_ & _ & Ec & _)|(_ & _ & Ec)].
          - destruct Ht as (Hc0 & _). now symmetry in Ec.
          - destruct Hlong as [(d & r2 & e & -> & A2 & A3 & A4 & -> & ->)|(-> & ->)].
            + rewrite concat_app in Hc3. apply app_eq_nil in Hc3 as [T0 F0].
              simpl in F0. rewrite app_nil_r in F0.
              rewrite T0 in A4. specialize (A4 eq_refl).
              apply (f_equal (@length ascii)) in F0. rewrite length_firstn in F0.
              simpl in F0. lia.
            + destruct taken as [|t ts].
              * simpl in Ec. rewrite <- Ec in Hdec. lia.
              * pose proof (tidy_app_l _ _ _ Ht1) as Hall'. inversion Hall'; subst.
                simpl in Hc3. destruct t; [contradiction|discriminate]. }
        destruct (IH chunks' lines false ltac:(lia) Ht' ltac:(discriminate))
          as (new & Hloop & Hwov).
        exists new. split; [exact Hloop|].
        rewrite Hcat'.
        apply (woven_blank_front b false); [now rewrite is_blank_app, Hblank, Hpost|exact Hwov|].
        intros _. left. exact Hgap.
      * (* a line is added *)
        set (b' := match post with [] => true | _ => false end).
        assert (Hb' : b' = true ->
                      lines ++ [concat (drop_trailing_blank cur3)] <> []
                      /\ match chunks' with [] => True | c :: _ => is_blank c = true end).
        { intros Eb. split; [destruct lines; discriminate|].
          apply Hpend; [|exact E4]. subst b'. destruct post; [reflexivity|discriminate]. }
        destruct (IH chunks' (lines ++ [concat (drop_trailing_blank cur3)]) b'
                    ltac:(lia) Ht' Hb') as (new & Hloop & Hwov).
        exists (concat (drop_trailing_blank cur3) :: new).
        rewrite Hloop, <- app_assoc. split; [reflexivity|].
        rewrite Hcat. constructor; [exact Hblank|exact Hpre_ne|].
        apply (woven_blank_front true b'); [exact Hpost|exact Hwov|].
        intros _. subst b'. destruct post; [right; left; reflexivity|left; discriminate].
Qed.



Lemma is_ws_isspace c : is_ws c = true -> isspace c = true.
Proof.
  destruct c as [[] [] [] [] [] [] [] []]; vm_compute; intros H;
    first [reflexivity | discriminate H].
Qed.

Lemma all_ws_blank (a : str) : forallb is_ws a = true -> is_blank a = true.
Proof.
  induction a as [|c a IH]; simpl; [auto|]. intros H.
  apply andb_true_iff in H as [H1 H2]. now rewrite (is_ws_isspace _ H1), IH.
Qed.

Lemma contains_cons x c (r : str) :
  contains x (c :: r) = Ascii.eqb x c || contains x r.
Proof. reflexivity. Qed.

Lemma emdash_ahead_no_hyphen (s : str) :
  contains HYPHEN s = false -> emdash_ahead s = false.
Proof.
  destruct s as [|c r]; [reflexivity|]. rewrite contains_cons. intros H.
  apply orb_false_iff in H as [H _]. unfold emdash_ahead. cbn [span].
  unfold is_hyphen. rewrite Ascii.eqb_sym, H. reflexivity.
Qed.

Lemma word_end_no_hyphen (s : str) : forall before acc,
  contains HYPHEN s = false ->
  word_end before acc s = (acc ++ fst (span not_ws s), snd (span not_ws s)).
Proof.
  induction s as [|c r IH]; intros before acc H.
  - simpl. now rewrite app_nil_r.
  - pose proof (emdash_ahead_no_hyphen _ H) as E.
    cbn [word_end]. rewrite E, andb_false_r.
    rewrite contains_cons in H. apply orb_false_iff in H as [Hc Hr].
    unfold is_hyphen at 1. rewrite Ascii.eqb_sym, Hc. cbn [andb].
    cbn [span]. unfold not_ws at 1 3. destruct (is_ws c); cbn [negb].
    + simpl. now rewrite app_nil_r.
    + rewrite (IH _ _ Hr). destruct (span not_ws r) as [a b]. simpl.
      now rewrite <- app_assoc.
Qed.

Lemma words_from_word (a : str) : forall cur b,
  forallb not_ws a = true -> words_from cur (a ++ b) = words_from (cur ++ a) b.
Proof.
  induction a as [|c a IH]; intros cur b H; simpl.
  - now rewrite app_nil_r.
  - simpl in H. apply andb_true_iff in H as [H1 H2].
    unfold not_ws in H1. apply negb_true_iff in H1. rewrite H1, (IH _ _ H2).
    now rewrite <- app_assoc.
Qed.

Lemma words_from_ws (P : str -> Prop) (a : str) : forall b,
  forallb is_ws a = true -> Forall P (words_from [] (a ++ b)) -> Forall P (words_from [] b).
Proof.
  induction a as [|c a IH]; intros b H F; simpl in *; [exact F|].
  apply andb_true_iff in H as [H1 H2]. rewrite H1 in F. inversion F; subst. auto.
Qed.

Lemma contains_app_r c (a b : str) : contains c (a ++ b) = false -> contains c b = false.
Proof.
  unfold contains. rewrite existsb_app. intros H. now apply orb_false_iff in H.
Qed.

Lemma split_n_tidy w n : forall before s : str,
  contains HYPHEN s = false ->
  Forall (fun wd => length wd <= w) (words s) ->
  tidy w (split_n n before s)
  /\ match s with
     | c :: _ =>
         is_ws c = true ->
         match split_n n before s with [] => True | ch :: _ => is_blank ch = true end
     | [] => True
     end.
Proof.
  induction n as [|n IH]; intros before s Hh Hw.
  - simpl. split; [exact I|]. destruct s; auto.
  - destruct s as [|c r]; [simpl; auto|].
    cbn [split_n match_chunk].
    destruct (is_ws c) eqn:W.
    + destruct (span is_ws (c :: r)) as [a b] eqn:S.
      pose proof (span_app _ _ _ _ S) as E. pose proof (span_all _ _ _ _ S) as A.
      assert (Ha : a <> []).
      { simpl in S. rewrite W in S. destruct (span is_ws r). inversion S. discriminate. }
      rewrite E in Hh, Hw.
      destruct (IH (rev a ++ before) b (contains_app_r _ _ _ Hh)
                  (words_from_ws _ _ _ A Hw)) as [T _].
      split.
      * simpl. split; [exact Ha|]. split; [|exact T].
        rewrite (all_ws_blank _ A). discriminate.
      * intros _. now apply all_ws_blank.
    + rewrite (emdash_ahead_no_hyphen _ Hh), andb_false_r.
      assert (Hr : contains HYPHEN r = false).
      { rewrite contains_cons in Hh. now apply orb_false_iff in Hh. }
      rewrite (word_end_no_hyphen r (c :: before) [c] Hr).
      destruct (span not_ws r) as [a b] eqn:S. cbn [fst snd].
      pose proof (span_app _ _ _ _ S) as E. pose proof (span_all _ _ _ _ S) as A.
      pose proof (span_rest _ _ _ _ S) as R.
      assert (A' : forallb not_ws ([c] ++ a) = true).
      { simpl. unfold not_ws at 1. now rewrite W, A. }
      assert (Hw' : Forall (fun wd => length wd <= w) (words_from ([c] ++ a) b)).
      { unfold words in Hw. rewrite E in Hw.
        change (c :: a ++ b) with (([c] ++ a) ++ b) in Hw.
        now rewrite (words_from_word _ [] b A') in Hw. }
      assert (Hb : contains HYPHEN b = false).
      { rewrite E in Hr. now apply contains_app_r in Hr. }
      assert (Hwb : Forall (fun wd => length wd <= w) (words b)
                    /\ length ([c] ++ a) <= w).
      { destruct b as [|d b']; simpl in Hw'.
        - inversion Hw'; subst. split; [repeat constructor; simpl; lia|assumption].
        - unfold not_ws in R. apply negb_false_iff in R. rewrite R in Hw'.
          inversion Hw'; subst. split; [|assumption].
          unfold words. simpl. rewrite R. constructor; [simpl; lia|assumption]. }
      destruct Hwb as [Hwb Hlen].
      destruct (IH (rev ([c] ++ a) ++ before) b Hb Hwb) as [T Hhead].
      split; [|intros H; discriminate H].
      simpl. split; [discriminate|]. split; [|exact T].
      intros _. split; [exact Hlen|].
      destruct b as [|d b']; [destruct n; exact I|].
      unfold not_ws in R. apply negb_false_iff in R. specialize (Hhead R).
      exact Hhead.
Qed.


Lemma wrap_breaks_at_whitespace (text : str) w :
  1 <= w ->
  contains HYPHEN (_munge_whitespace text) = false ->
  Forall (fun wd => length wd <= w) (words (_munge_whitespace text)) ->
  breaks_at_whitespace (_munge_whitespace text) (wrap text w).
Proof.
  intros Hw Hh Hwd. unfold breaks_at_whitespace, wrap, _wrap_chunks, _split_chunks.
  set (T := _munge_whitespace text) in *.
  destruct (split_n_tidy w (length T) [] T Hh Hwd) as [Ht _].
  destruct (wrap_loop_woven w (passes (_split T)) Hw (_split T) [] false (le_n _) Ht
              ltac:(discriminate)) as (new & -> & H).
  simpl. now rewrite split_concat in H.
Qed.

Lemma toml_string_block_or_scalar_witness :
  toml_string (lit "a" ++ [NL] ++ lit "b")
  = TRIPLE ++ [NL] ++ (lit "a" ++ [NL] ++ lit "b") ++ [NL] ++ TRIPLE
  /\ toml_string (lit "say " ++ [DQ] ++ lit "hi" ++ [DQ])
     = [DQ] ++ (lit "say " ++ [BSL; DQ] ++ lit "hi" ++ [BSL; DQ]) ++ [DQ].
Proof.
  split.
  - apply (proj1 (toml_string_block_or_scalar (lit "a" ++ [NL] ++ lit "b"))).
    reflexivity.
  - apply (proj2 (toml_string_block_or_scalar (lit "say " ++ [DQ] ++ lit "hi" ++ [DQ]))).
    reflexivity.
Defined.

Lemma forallb_length_le (w : nat) (l : list str) :
  forallb (fun wd => length wd <=? w) l = true ->
  Forall (fun wd => length wd <= w) l.
Proof.
  intros H. apply Forall_forall. intros x Hx.
  rewrite forallb_forall in H. apply Nat.leb_le. now apply H.
Qed.

Lemma run_over_blank (n : nat) (g rest : str) :
  forall k,
    is_blank g = true -> k <= n ->
    run_over n k (g ++ rest) = run_over n (match g with [] => k | _ => 0 end) rest.
Proof.
  induction g as [|c g IH]; intros k Hg Hk; [reflexivity|].
  cbn [is_blank forallb] in Hg. apply andb_prop in Hg as [Hc Hg].
  cbn [app run_over]. rewrite Hc.
  replace (n <? k) with false by (symmetry; apply Nat.ltb_ge; exact Hk).
  cbn [orb]. rewrite (IH 0 Hg (Nat.le_0_l n)). destruct g; reflexivity.
Qed.

Lemma run_over_line (n : nat) (l t : str) :
  (forall k, k <= n -> run_over n k t = false) ->
  forall k, k + length l <= n -> run_over n k (l ++ t) = false.
Proof.
  intros Ht. induction l as [|c l IH]; intros k Hk.
  - apply Ht. cbn [length] in Hk. lia.
  - cbn [length] in Hk. cbn [app run_over]. destruct (isspace c).
    + replace (n <? k) with false by (symmetry; apply Nat.ltb_ge; lia).
      apply IH. lia.
    + apply IH. cbn [length]. lia.
Qed.

(** Lines of at most [n] characters that are woven into a text leave no
    run of more than [n] characters whole. *)
Lemma woven_no_long_word (n : nat) (b : bool) (text : str) (lines : list str) :
  woven b text lines ->
  Forall (fun l => length l <= n) lines ->
  forall k, k <= n -> (b = false -> k = 0) -> run_over n k text = false.
Proof.
  induction 1 as [b g Hg|b g l t ls Hg Hb Ht IH]; intros Hl k Hk Hk0.
  - rewrite <- (app_nil_r g), run_over_blank by assumption.
    cbn [run_over]. apply Nat.ltb_ge. destruct g; lia.
  - inversion Hl as [|? ? Hlen Hls]; subst.
    rewrite run_over_blank by assumption.
    apply run_over_line.
    + intros k' Hk'. apply IH; [exact Hls|exact Hk'|discriminate].
    + destruct g; [|cbn [Nat.add]; exact Hlen].
      destruct b; [now destruct (Hb eq_refl)|]. rewrite (Hk0 eq_refl). exact Hlen.
Qed.

Lemma munge_no_newline (text : str) : contains NL (_munge_whitespace text) = false.
Proof.
  unfold _munge_whitespace. induction (expandtabs 8 text) as [|c r IH]; [reflexivity|].
  cbn [map contains existsb]. fold (contains NL (map (fun c => if is_ws c then SP else c) r)).
  rewrite IH, orb_false_r. destruct (is_ws c) eqn:W; [reflexivity|].
  destruct (Ascii.eqb_spec NL c) as [<-|]; [discriminate W|reflexivity].
Qed.

Lemma contains_substr (c : ascii) (l text : str) :
  substr l text -> contains c text = false -> contains c l = false.
Proof.
  intros (a & b & ->). unfold contains. rewrite !existsb_app.
  intros H. apply orb_false_iff in H as [_ H]. now apply orb_false_iff in H as [H _].
Qed.

Lemma kept_blank_front (g t : str) (ls : list str) :
  is_blank g = true -> kept t ls -> kept (g ++ t) ls.
Proof.
  intros Hg Hk. inversion Hk as [g0 Hg0|g0 l t0 ls0 Hg0 Hl Ht]; subst.
  - constructor. now rewrite is_blank_app, Hg, Hg0.
  - rewrite app_assoc. constructor; [now rewrite is_blank_app, Hg, Hg0|exact Hl|exact Ht].
Qed.

Lemma split_n_chunks_nonempty (n : nat) :
  forall before s : str, Forall (fun c : str => c <> []) (split_n n before s).
Proof.
  induction n as [|n IH]; intros before s; [constructor|].
  cbn [split_n]. destruct s as [|c r]; [constructor|].
  destruct (match_chunk_app before (c :: r) ltac:(discriminate))
    as (chunk & rest & -> & _ & Hne).
  constructor; [exact Hne|apply IH].
Qed.

Lemma concat_nonempty (l : list str) :
  l <> [] -> Forall (fun c : str => c <> []) l -> concat l <> [].
Proof.
  destruct l as [|c r]; [contradiction|]. intros _ H. inversion H; subst.
  cbn [concat]. destruct c; [contradiction|discriminate].
Qed.

(** The loop of [_wrap_chunks] takes only blank text away. *)
Lemma wrap_loop_kept w n :
  1 <= w ->
  forall chunks lines : list str,
    passes chunks <= n ->
    Forall (fun c : str => c <> []) chunks ->
    exists new,
      wrap_loop n w chunks lines = Some (lines ++ new)
      /\ kept (concat chunks) new.
Proof.
  intros Hw. induction n as [|n IH]; intros chunks lines Hn Hne.
  - destruct chunks as [|c0 rest0]; [|simpl in Hn; lia].
    exists []. simpl. rewrite app_nil_r. split; [reflexivity|]. now constructor.
  - destruct chunks as [|c0 rest0].
    + exists []. simpl. rewrite app_nil_r. split; [reflexivity|]. now constructor.
    + cbn [wrap_loop].
      destruct (wrap_step w (c0 :: rest0) lines) as [chunks' lines'] eqn:S.
      destruct (wrap_step_full _ _ _ _ _ _ Hw S)
        as (pre & taken & chunks2 & cur3 & post & Hpre & Hlong & Hpost & Hdrop & Hline
            & Hcat & Hblank & _ & Hdec).
      assert (H12 : Forall (fun c : str => c <> []) taken
                    /\ Forall (fun c : str => c <> []) chunks2).
      { apply Forall_app. destruct Hpre as [(_ & _ & _ & E)|(_ & _ & E)].
        - rewrite <- E. now inversion Hne.
        - now rewrite <- E. }
      destruct H12 as [Htaken Hchunks2].
      assert (Hne' : Forall (fun c : str => c <> []) chunks').
      { destruct Hlong as [(d & r2 & e & -> & A2 & A3 & A4 & -> & ->)|(-> & ->)];
          [|exact Hchunks2].
        inversion Hchunks2; subst. constructor; [|assumption].
        intros E. apply (f_equal (@length ascii)) in E. rewrite length_skipn in E.
        cbn [length] in E. lia. }
      assert (Hkeep : Forall (fun c : str => c <> []) (drop_trailing_blank cur3)).
      { destruct Hdrop as [(E & _ & [E0|(init & x & E1 & Bx)])|E].
        - rewrite E, E0. constructor.
        - rewrite E.
          destruct Hlong as [(d & r2 & e & _ & _ & _ & _ & _ & Ec)|(_ & Ec)].
          + rewrite Ec. apply Forall_app. split; [exact Htaken|].
            rewrite E1 in Ec. apply app_inj_tail in Ec as [_ <-].
            constructor; [|constructor].
            intros E0. rewrite E0 in Bx. discriminate Bx.
          + now rewrite Ec.
        - destruct Hlong as [(d & r2 & e & _ & _ & _ & _ & _ & Ec)|(_ & Ec)].
          + rewrite Ec in E |- *. apply app_inj_tail in E as [E _].
            rewrite <- E. exact Htaken.
          + rewrite Ec in E |- *. rewrite E in Htaken. now apply Forall_app in Htaken. }
      destruct Hline as [(E4 & ->)|(E4 & ->)].
      * destruct (IH chunks' lines ltac:(lia) Hne') as (new & Hloop & Hk).
        exists new. split; [exact Hloop|].
        rewrite Hcat, E4. cbn [concat app].
        apply kept_blank_front; [exact Hblank|]. now apply kept_blank_front.
      * destruct (IH chunks' (lines ++ [concat (drop_trailing_blank cur3)])
                    ltac:(lia) Hne') as (new & Hloop & Hk).
        exists (concat (drop_trailing_blank cur3) :: new).
        rewrite Hloop, <- app_assoc. split; [reflexivity|].
        rewrite Hcat. constructor; [exact Hblank|now apply concat_nonempty|].
        now apply kept_blank_front.
Qed.

(** [wrap] takes only whitespace out of the text. *)
Lemma wrap_kept (text : str) w :
  1 <= w -> kept (_munge_whitespace text) (wrap text w).
Proof.
  intros Hw. unfold wrap, _wrap_chunks, _split_chunks.
  set (T := _munge_whitespace text).
  destruct (wrap_loop_kept w (passes (_split T)) Hw (_split T) [] (le_n _)
              (split_n_chunks_nonempty _ _ _)) as (new & -> & H).
  simpl. now rewrite split_concat in H.
Qed.

(** A line that is read with [k] characters of a run in front of it. *)
Lemma run_over_through (n : nat) (t : str) (l : str) :
  forall k,
    k + length l <= n ->
    run_over n k (l ++ t) = true ->
    exists k',
      k' <= n /\ run_over n k' t = true
      /\ (0 < k' -> (l = [] /\ k' = k) \/ exists a x, l = a ++ [x] /\ isspace x = false).
Proof.
  induction l as [|c l IH]; intros k Hk H.
  - exists k. cbn [length] in Hk. split; [lia|]. split; [exact H|]. intros _. now left.
  - cbn [length] in Hk. cbn [app run_over] in H. destruct (isspace c) eqn:Hc.
    + replace (n <? k) with false in H by (symmetry; apply Nat.ltb_ge; lia).
      cbn [orb] in H. destruct (IH 0 ltac:(lia) H) as (k' & Hk' & Hr & Hlast).
      exists k'. split; [exact Hk'|]. split; [exact Hr|]. intros Hpos. right.
      destruct (Hlast Hpos) as [[-> ->]|(a & x & -> & Hx)]; [lia|].
      exists (c :: a), x. split; [reflexivity|exact Hx].
    + destruct (IH (S k) ltac:(lia) H) as (k' & Hk' & Hr & Hlast).
      exists k'. split; [exact Hk'|]. split; [exact Hr|]. intros Hpos. right.
      destruct (Hlast Hpos) as [[-> ->]|(a & x & -> & Hx)].
      * exists [], c. split; [reflexivity|exact Hc].
      * exists (c :: a), x. split; [reflexivity|exact Hx].
Qed.

(** Where lines of at most [n] characters are kept of a text with a run
    of more than [n] characters, a line break stands inside a word: in
    the lines, or in front of the first line when [k] characters of a run
    stand in front of the text. *)
Lemma kept_long_word_cut (n : nat) (text : str) (lines : list str) :
  kept text lines ->
  Forall (fun l => length l <= n) lines ->
  forall k,
    k <= n ->
    run_over n k text = true ->
    cut_in_word text lines
    \/ (0 < k /\ exists y b t ls,
          text = (y :: b) ++ t /\ lines = (y :: b) :: ls /\ isspace y = false
          /\ kept t ls).
Proof.
  induction 1 as [g Hg|g l t ls Hg Hl Ht IH]; intros Hlen k Hk Hrun.
  - exfalso. rewrite <- (app_nil_r g), run_over_blank in Hrun by assumption.
    cbn [run_over] in Hrun. apply Nat.ltb_lt in Hrun. destruct g; lia.
  - inversion Hlen as [|? ? Hll Hls]; subst.
    rewrite run_over_blank in Hrun by assumption.
    (* the run that stands in front of the line, or none *)
    destruct l as [|y b]; [contradiction|].
    assert (Hin : exists k1,
               k1 + length (y :: b) <= n + k1 /\ (k1 = 0 \/ (g = [] /\ k1 = k /\ 0 < k))
               /\ run_over n k1 ((y :: b) ++ t) = true).
    { destruct g as [|c g].
      - exists k. split; [lia|]. split; [|exact Hrun]. destruct k; [now left|right].
        repeat split; lia.
      - exists 0. split; [lia|]. split; [now left|exact Hrun]. }
    destruct Hin as (k1 & _ & Hk1 & Hrun1).
    destruct (isspace y) eqn:Hy.
    + (* the line begins with whitespace: the run begins anew *)
      cbn [app run_over] in Hrun1. rewrite Hy in Hrun1.
      replace (n <? k1) with false in Hrun1
        by (symmetry; apply Nat.ltb_ge; destruct Hk1 as [->|(_ & -> & _)]; lia).
      cbn [orb] in Hrun1. cbn [length] in Hll.
      destruct (run_over_through n t b 0 ltac:(lia) Hrun1) as (k' & Hk' & Hr & Hlast).
      destruct (IH Hls k' Hk' Hr) as [Hcut|(Hpos & y2 & b2 & t2 & ls2 & -> & -> & Hy2 & Hk2)].
      * left. now apply cut_later.
      * left. destruct (Hlast Hpos) as [[-> ->]|(a & x & -> & Hx)]; [lia|].
        change (y :: a ++ [x]) with ((y :: a) ++ [x]).
        now apply cut_here.
    + destruct Hk1 as [->|(-> & -> & Hpos)].
      * (* no run in front of the line *)
        destruct (run_over_through n t (y :: b) 0 ltac:(lia) Hrun1)
          as (k' & Hk' & Hr & Hlast).
        destruct (IH Hls k' Hk' Hr)
          as [Hcut|(Hpos & y2 & b2 & t2 & ls2 & -> & -> & Hy2 & Hk2)].
        -- left. now apply cut_later.
        -- left. destruct (Hlast Hpos) as [[E _]|(a & x & E & Hx)]; [discriminate E|].
           rewrite E. now apply cut_here.
      * (* the run goes on into the line *)
        right. split; [exact Hpos|]. exists y, b, t, ls. cbn [app]. auto.
Qed.

(** The lines [wrap] gives for a line of the escaped text. *)
Lemma wrap_wrapped_to (p : str) : wrapped_to p (wrap p 80).
Proof.
  assert (W : Forall (fun l => length l <= 80) (wrap p 80)).
  { eapply Forall_impl; [|apply (wrap_lines p 80); lia]. intros l [H _]. exact H. }
  assert (K : kept (_munge_whitespace p) (wrap p 80)) by (apply wrap_kept; lia).
  split; [|split; [exact K|split]].
  - eapply Forall_impl; [|apply (wrap_lines p 80); lia]. intros l [H S]. split; [exact H|].
    apply (contains_substr NL l _ S), munge_no_newline.
  - intros Hh Hw. apply wrap_breaks_at_whitespace; [lia|exact Hh|].
    now apply forallb_length_le.
  - intros Hlong. unfold has_long_word in Hlong. split.
    + destruct (kept_long_word_cut 80 _ _ K W 0 (Nat.le_0_l _) Hlong) as [H|[H _]];
        [exact H|lia].
    + intros Hwoven.
      rewrite (woven_no_long_word 80 false _ _ Hwoven W 0) in Hlong;
        [discriminate|lia|reflexivity].
Qed.

Lemma Forall2_map_r {A B : Type} (P : A -> B -> Prop) (f : A -> B) (l : list A) :
  (forall x, In x l -> P x (f x)) -> Forall2 P l (map f l).
Proof.
  induction l as [|x l IH]; intros H; [constructor|].
  cbn [map]. constructor; [apply H; now left|]. apply IH. intros y Hy. apply H. now right.
Qed.

(** C3 (amended): what [toml_string] puts between the quotes is made of
    the lines of the escaped text, each filled to 80 columns, joined by
    newlines: for every line [p] of the escaped text there is a group of
    lines, none longer than 80 characters, which are [p] (with its tabs
    expanded and its whitespace made spaces) with nothing but whitespace
    taken out; when [p] has no hyphen and no word longer than 80
    characters, every line break of its group stands where [p] has
    whitespace; and when [p] has a word of more than 80 characters, that
    is not so: a line break stands inside a word. *)
Theorem wrap_width_and_whitespace_breaks (s : str) :
  exists groups : list (list str),
    let payload := join [NL] (map (join [NL]) groups) in
    wrapped s = payload
    /\ (toml_string s = TRIPLE ++ [NL] ++ payload ++ [NL] ++ TRIPLE
        \/ toml_string s = [DQ] ++ payload ++ [DQ])
    /\ Forall2 wrapped_to (splitlines (toml_escape_basic s)) groups.
Proof.
  exists (map (fun p => wrap p 80) (splitlines (toml_escape_basic s))).
  cbv zeta. rewrite map_map.
  assert (E : wrapped s
              = join [NL] (map (fun p => join [NL] (wrap p 80))
                             (splitlines (toml_escape_basic s)))) by reflexivity.
  rewrite <- E. split; [reflexivity|]. split.
  - unfold toml_string. destruct (contains NL (wrapped s)); [now left|now right].
  - apply Forall2_map_r. intros p _. apply wrap_wrapped_to.
Qed.

Lemma wrap_width_and_whitespace_breaks_witness :
  let s := concat (repeat (lit "the quick brown fox ") 6) in
  exists lines : list str,
    wrapped s = join [NL] lines
    /\ Forall (fun l => length l <= 80 /\ contains NL l = false) lines
    /\ breaks_at_whitespace (_munge_whitespace s) lines.
Proof.
  intros s. destruct (wrap_width_and_whitespace_breaks s) as (groups & E & _ & F).
  assert (P : splitlines (toml_escape_basic s) = [s]) by (vm_compute; reflexivity).
  rewrite P in F. inversion F as [|p lines ps gs W Hnil]; subst. inversion Hnil; subst.
  exists lines. split; [exact E|]. destruct W as (Hw & _ & Hb & _).
  split; [exact Hw|]. apply Hb; vm_compute; reflexivity.
Defined.

Lemma woven_two_lines (b : bool) (text l1 l2 : str) :
  woven b text [l1; l2] -> length l1 + length l2 < length text.
Proof.
  intros H. inversion H as [|b0 g l t ls Hg Hb Ht]; subst.
  inversion Ht as [|b1 g1 l' t1 ls1 Hg1 Hb1 Ht1]; subst.
  specialize (Hb1 eq_refl). rewrite !length_app.
  destruct g1; [contradiction|]. simpl. lia.
Qed.

(** C3, as stated, fails: a word of 81 letters has no whitespace, and
    [toml_string] breaks it after its 80th letter. *)
Lemma long_word_broken_inside_the_word :
  let s := repeat "a"%char 81 in
  In s (splitlines (toml_escape_basic s))
  /\ wrap s 80 = [repeat "a"%char 80; ["a"%char]]
  /\ toml_string s
     = TRIPLE ++ [NL] ++ repeat "a"%char 80 ++ [NL] ++ ["a"%char] ++ [NL] ++ TRIPLE
  /\ ~ breaks_at_whitespace (_munge_whitespace s) (wrap s 80).
Proof.
  intros s.
  assert (E : wrap s 80 = [repeat "a"%char 80; ["a"%char]]) by (vm_compute; reflexivity).
  split; [vm_compute; left; reflexivity|].
  split; [exact E|].
  split; [vm_compute; reflexivity|].
  unfold breaks_at_whitespace. rewrite E. intros H.
  apply woven_two_lines in H.
  assert (L : length (_munge_whitespace s) = 81) by (vm_compute; reflexivity).
  rewrite L, repeat_length in H. simpl in H. lia.
Qed.

(** ** [name_lf] on names of several words *)

(** C10: a name with two or more spaces is split at its first space only,
    so the key is everything after the first word, a comma and the first
    word; [name_lf("A B C")] is ["B C, A"], and the quiz document, which
    sorts by this key, puts "Bo Moe" (key "Moe, Bo") in front of
    "Al Zed Abe" (key "Zed Abe, Al") although Abe stands before Moe. *)
Theorem name_lf_splits_at_first_space_only :
  (forall first rest : str,
      contains SP first = false -> contains SP rest = true ->
      name_lf (first ++ lit " " ++ rest) = rest ++ lit ", " ++ first)
  /\ name_lf (lit "A B C") = lit "B C, A"
  /\ submission_order [lit "Al Zed Abe"; lit "Bo Moe"] = [1; 0].
Proof.
  split; [|split; reflexivity].
  intros first rest Hf _. apply (name_lf_first_space _ _ Hf).
Qed.

Lemma name_lf_splits_at_first_space_only_witness :
  name_lf (lit "Mary" ++ lit " " ++ lit "Ann van Dyke")
  = lit "Ann van Dyke" ++ lit ", " ++ lit "Mary".
Proof.
  apply (proj1 name_lf_splits_at_first_space_only); reflexivity.
Defined.

(** ** [try_int] *)

(** C8: [try_int] gives the integer when [int] reads the stripped text,
    else the float when [float] reads it, else 0, and raises nothing (it
    is a total function); "12" gives the integer 12, "3.5" the float
    [7881299347898368 * 2 ^ -51], which is 3.5, and "abc" gives 0. *)
Theorem try_int_coercion :
  (forall (s : str) (z : Z),
      PyNum.py_int (strip s) = Some z -> try_int s = VInt z)
  /\ (forall (s : str) (f : spec_float),
         PyNum.py_int (strip s) = None -> PyNum.py_float (strip s) = Some f ->
         try_int s = VFloat f)
  /\ (forall s : str,
         PyNum.py_int (strip s) = None -> PyNum.py_float (strip s) = None ->
         try_int s = VInt 0)
  /\ try_int (lit "12") = VInt 12
  /\ try_int (lit "3.5") = VFloat (S754_finite false 7881299347898368 (-51))
  /\ (7881299347898368 * 2 = 7 * 2 ^ 51)%Z
  /\ try_int (lit "abc") = VInt 0.
Proof.
  unfold try_int. repeat split.
  - intros s z H. now rewrite H.
  - intros s f H1 H2. now rewrite H1, H2.
  - intros s H1 H2. now rewrite H1, H2.
Qed.

Lemma try_int_coercion_witness :
  try_int (lit " 42 ") = VInt 42
  /\ try_int (lit "1e3") = VFloat (S754_finite false 8796093022208000 (-43))
  /\ try_int (lit "12 apples") = VInt 0.
Proof.
  destruct try_int_coercion as (H1 & H2 & H3 & _).
  split; [apply H1; reflexivity|].
  split; [apply H2; reflexivity|].
  apply H3; reflexivity.
Defined.

(** ** Sorting *)


Section SortedByFacts.

Context {A K : Type}.
Variable ltb : K -> K -> bool.
Variable key : A -> K.


Hypothesis ltb_asym : forall x y, ltb x y = true -> ltb y x = false.
Hypothesis le_trans :
  forall x y z, ltb y x = false -> ltb z y = false -> ltb z x = false.

Lemma insert_by_perm (x : A) (l : list A) :
  Permutation (insert_by ltb key x l) (x :: l).
Proof.
  induction l as [|y r IH]; simpl; [reflexivity|].
  destruct (ltb (key y) (key x)); [|reflexivity].
  rewrite IH. apply perm_swap.
Qed.

Lemma sorted_by_perm (l : list A) : Permutation (sorted_by ltb key l) l.
Proof.
  induction l as [|x r IH]; simpl; [reflexivity|].
  rewrite insert_by_perm. now constructor.
Qed.



End SortedByFacts.

Lemma str_compare_refl (a : str) : str_compare a a = Eq.
Proof. induction a as [|x a IH]; simpl; [reflexivity|]. now rewrite Nat.compare_refl. Qed.


Lemma code_inj (x y : ascii) : code x = code y -> x = y.
Proof.
  unfold code. intros H. rewrite <- (ascii_nat_embedding x), <- (ascii_nat_embedding y).
  now rewrite H.
Qed.

Lemma str_compare_eq (a : str) : forall b, str_compare a b = Eq -> a = b.
Proof.
  induction a as [|x a IH]; intros [|y b]; simpl; try discriminate; [reflexivity|].
  destruct (code x ?= code y) eqn:E; try discriminate.
  intros H. apply Nat.compare_eq in E. apply code_inj in E. subst. f_equal. auto.
Qed.




Lemma str_eqb_eq (a b : str) : str_eqb a b = true -> a = b.
Proof.
  unfold str_eqb. destruct (str_compare a b) eqn:E; try discriminate.
  intros _. now apply str_compare_eq.
Qed.

Lemma str_eqb_refl (a : str) : str_eqb a a = true.
Proof. unfold str_eqb. now rewrite str_compare_refl. Qed.

Lemma str_ltb_irrefl (a : str) : str_ltb a a = false.
Proof. unfold str_ltb. now rewrite str_compare_refl. Qed.





(** ** The quiz document *)



Lemma bind_ok {A B : Type} (r : result A) (k : A -> result B) (b : B) :
  bind r k = Ok b -> exists a, r = Ok a /\ k a = Ok b.
Proof. destruct r as [a|e]; simpl; [eauto|discriminate]. Qed.

Ltac bind_inv H :=
  let a := fresh "a" in
  let E := fresh "E" in
  apply bind_ok in H as (a & E & H).

Section QuizFacts.

Variable float_repr : spec_float -> str.
Variable md : pyval -> result str.














(** The text of the document is what the fragments spell. *)
Lemma generate_quiz_toml_text (qi : dict) (sa : analysis) (pi : list (str * pyval))
    (text : str) :
  generate_quiz_toml float_repr md qi sa pi = Ok text <->
  exists es, quiz_emissions float_repr md qi sa pi = Ok es
             /\ text = concat (map emitted es).
Proof.
  unfold generate_quiz_toml. split.
  - intros H. bind_inv H. injection H as <-. eauto.
  - intros (es & -> & ->). reflexivity.
Qed.

End QuizFacts.

(** ** The order of the blocks *)





Lemma nth_map_name_lf (k : nat) (l : list str) :
  nth k (map name_lf l) [] = name_lf (nth k l []).
Proof. exact (map_nth name_lf l [] k). Qed.




(** ** The upload command *)

Section UploadFacts.

Variable float_repr : spec_float -> str.
Variable markdown_html : str -> str.
Variable World : Type.
Variable lookup_user : str -> World -> result pyval * World.
Variable get_submission : pyval -> pyval -> World -> result dict * World.
Variable update_submission :
  pyval -> pyval -> pyval -> pyval -> pyval -> World -> result unit * World.
Variable add_comment : pyval -> pyval -> str -> pyval -> World -> result unit * World.

(** The exit code of a run. *)
Local Abbreviation exit_of course_loaded input_is_file loaded answer w :=
  (fst (fst (Cli.cmd_upload float_repr markdown_html World lookup_user get_submission
               update_submission add_comment course_loaded input_is_file loaded answer w))).

(** C4 (amended): the upload command returns 1 when the course
    configuration is missing, when the input file is missing, when the
    file has no [assignment_id] and when it has no submission; it returns
    0 when no submission carries a score or a comment, when the user
    declines and when the batch has run. *)
Theorem cmd_upload_exit_codes (course_loaded input_is_file : bool)
    (data : Cli.toml_doc) (answer : str) (w : World) :
  let has_id := negb (Cli.is_none (get (Cli.top data) (lit "assignment_id"))) in
  let count := Cli._count_valid_submissions (Cli.submission data) in
  (forall loaded,
      course_loaded = false ->
      exit_of course_loaded input_is_file loaded answer w = Cli.Return 1)
  /\ (forall loaded,
         course_loaded = true -> input_is_file = false ->
         exit_of course_loaded input_is_file loaded answer w = Cli.Return 1)
  /\ (course_loaded = true -> input_is_file = true ->
      (has_id = false ->
       exit_of course_loaded input_is_file (Ok data) answer w = Cli.Return 1)
      /\ (has_id = true -> Cli.submission data = [] ->
          exit_of course_loaded input_is_file (Ok data) answer w = Cli.Return 1)
      /\ (has_id = true -> Cli.submission data <> [] -> count = 0 ->
          exit_of course_loaded input_is_file (Ok data) answer w = Cli.Return 0)
      /\ (has_id = true -> Cli.submission data <> [] -> count <> 0 ->
          exit_of course_loaded input_is_file (Ok data) answer w = Cli.Return 0)).
Proof.
  intros has_id count. unfold Cli.cmd_upload.
  split; [intros loaded ->; reflexivity|].
  split; [intros loaded -> ->; reflexivity|].
  intros -> ->. cbn [negb].
  fold count. subst has_id.
  destruct (Cli.is_none (get (Cli.top data) (lit "assignment_id"))); cbn [negb].
  - split; [reflexivity|]. repeat split; intros H; discriminate H.
  - split; [intros H; discriminate H|].
    destruct (Cli.submission data) as [|sub rest] eqn:Es.
    + split; [reflexivity|]. split; intros _ H; contradiction.
    + split; [intros _ H; discriminate H|].
      split.
      * intros _ _ ->. reflexivity.
      * intros _ _ Hc. destruct (count =? 0) eqn:E; [apply Nat.eqb_eq in E; contradiction|].
        match goal with
        | |- context [if ?c then _ else _] => destruct c
        end; reflexivity.
Qed.

End UploadFacts.

Lemma cmd_upload_exit_codes_witness :
  let doc :=
    {| Cli.top := [(lit "assignment_id", VInt 7)];
       Cli.submission := [[(lit "id", VInt 22); (lit "score", VInt 8)]] |} in
  fst (fst (Calm.cmd_upload false true (Ok doc) (lit "y") tt)) = Cli.Return 1
  /\ fst (fst (Calm.cmd_upload true false (Ok doc) (lit "y") tt)) = Cli.Return 1
  /\ fst (fst (Calm.cmd_upload true true (Ok doc) (lit "y") tt)) = Cli.Return 0.
Proof.
  intros doc.
  destruct (cmd_upload_exit_codes Calm.float_repr Calm.markdown_html unit
              Calm.lookup_user Calm.get_submission Calm.update_submission
              Calm.add_comment false true doc (lit "y") tt) as (H1 & _).
  destruct (cmd_upload_exit_codes Calm.float_repr Calm.markdown_html unit
              Calm.lookup_user Calm.get_submission Calm.update_submission
              Calm.add_comment true false doc (lit "y") tt) as (_ & H2 & _).
  destruct (cmd_upload_exit_codes Calm.float_repr Calm.markdown_html unit
              Calm.lookup_user Calm.get_submission Calm.update_submission
              Calm.add_comment true true doc (lit "y") tt) as (_ & _ & H3).
  split; [exact (H1 (Ok doc) eq_refl)|].
  split; [exact (H2 (Ok doc) eq_refl eq_refl)|].
  destruct (H3 eq_refl eq_refl) as (_ & _ & _ & H4).
  apply H4; [reflexivity|discriminate|vm_compute; discriminate].
Defined.

(** C4, as stated, fails: a file whose only submission carries neither a
    score nor a comment makes the command return 0, not 1. *)
Lemma no_eligible_data_exits_with_0 :
  let doc :=
    {| Cli.top := [(lit "assignment_id", VInt 7)];
       Cli.submission := [[(lit "id", VInt 11)]] |} in
  Cli._count_valid_submissions (Cli.submission doc) = 0
  /\ Calm.cmd_upload true true (Ok doc) (lit "y") tt
     = (Cli.Return 0, [Cli.Print Cli.MsgNothingToUpload], tt)
  /\ fst (fst (Calm.cmd_upload true true (Ok doc) (lit "y") tt)) <> Cli.Return 1.
Proof.
  intros doc. split; [reflexivity|]. split; [reflexivity|].
  vm_compute. discriminate.
Qed.

(** C5 (the code departs from it): with one submission that has an empty
    comment and no score and one that has score 8, the prompt announces 1
    submission, and the run sends an update for both users, 11 and 22:
    the loop skips a submission only when its comment is [None], where the
    count asks for a comment that is not empty. *)
Theorem upload_sends_submission_with_empty_comment :
  let doc :=
    {| Cli.top := [(lit "assignment_id", VInt 7)];
       Cli.submission :=
         [[(lit "id", VInt 11); (lit "comment", VStr [])];
          [(lit "id", VInt 22); (lit "score", VInt 8)]] |} in
  Cli._count_valid_submissions (Cli.submission doc) = 1
  /\ snd (fst (Calm.cmd_upload true true (Ok doc) (lit "y") tt))
     = [Cli.Prompt (lit "Found 1 submissions with scores/comments to upload. Proceed? [y/N]: ");
        Cli.BackupHeader;
        Cli.BackupSubmission [(lit "id", VInt 11); (lit "comment", VStr [])] [];
        Cli.UpdateCall (VInt 7) (VInt 11) VNone (VStr []) VNone;
        Cli.CommentCall (VInt 7) (VInt 11) [] VNone;
        Cli.Print (Cli.MsgUpdated 1 1 (VInt 11));
        Cli.BackupSubmission [(lit "id", VInt 22); (lit "score", VInt 8)] [];
        Cli.UpdateCall (VInt 7) (VInt 22) (VInt 8) VNone VNone;
        Cli.Print (Cli.MsgUpdated 2 1 (VInt 22));
        Cli.Print Cli.MsgBackupSaved].
Proof.
  intros doc. split; vm_compute; reflexivity.
Qed.

(** ** The report poller *)

Lemma poll_loop_pending (env : Poller.script) (report_id : pyval)
    (start_time timeout : Z) (pending : list (result Poller.report)) :
  forall (within rest : list Z) (more : list (result Poller.report)) (n : nat),
    truthy report_id = true ->
    length within = length pending ->
    forallb (in_time start_time timeout) within = true ->
    forallb is_pending pending = true ->
    Poller.poll_loop env report_id start_time timeout (within ++ rest) (pending ++ more) n
    = Poller.poll_loop env report_id start_time timeout rest more (n + length pending).
Proof.
  induction pending as [|p pending IH]; intros within rest more n Hid Hlen Ht Hp.
  - destruct within; [|discriminate]. simpl. now rewrite Nat.add_0_r.
  - destruct within as [|t within]; [discriminate|].
    simpl in Hlen, Ht, Hp. injection Hlen as Hlen.
    apply andb_true_iff in Ht as [Ht1 Ht2]. apply andb_true_iff in Hp as [Hp1 Hp2].
    unfold in_time in Ht1. apply negb_true_iff in Ht1.
    cbn [app Poller.poll_loop]. rewrite Ht1, Hid. cbn [negb].
    destruct p as [rep|e]; [|discriminate]. simpl in Hp1.
    destruct (Poller._has_file rep); [discriminate|].
    rewrite (IH within rest more (S n) Hid Hlen Ht2 Hp2).
    f_equal. simpl. lia.
Qed.

(** C7 (amended): with a quiz id and a configured course, (1) a creation
    answer that has [file.url] leads to the download after zero polling
    requests; (2) when no answer so far has [file.url] and a pass of the
    loop reads a time beyond the timeout, [TimeoutError] is raised; (3) a
    creation answer with neither file nor job id raises the error about
    the missing id, [RuntimeError], provided the first pass finds the
    deadline not passed (else it is case 2); (4) a job id, pending answers
    and then an answer with [file.url], all within the deadline, give
    exactly one fetch, whose bytes are the result. *)
Theorem report_poller_outcomes (quiz_id : pyval) (timeout : Z) (env : Poller.script)
    (rep : Poller.report) :
  Poller.is_none_quiz quiz_id = false ->
  Poller.created env = Ok rep ->
  let run := Poller.download_quiz_student_analysis quiz_id true timeout env in
  (forall file_info,
      Poller._has_file rep = Some file_info ->
      run = {| Poller.outcome := Some (Poller.download env (get file_info (lit "url")));
               Poller.poll_requests := 0;
               Poller.fetched := [get file_info (lit "url")] |})
  /\ (forall within late rest pending more,
         Poller._has_file rep = None ->
         Poller.clock env = within ++ late :: rest ->
         Poller.polls env = pending ++ more ->
         length within = length pending ->
         forallb (in_time (Poller.started env) timeout) within = true ->
         forallb is_pending pending = true ->
         in_time (Poller.started env) timeout late = false ->
         (pending = [] \/ truthy (Poller.rep_id rep) = true) ->
         run = {| Poller.outcome := Some (Raise TimeoutError);
                  Poller.poll_requests := length pending;
                  Poller.fetched := [] |})
  /\ (forall now rest,
         Poller._has_file rep = None ->
         truthy (Poller.rep_id rep) = false ->
         Poller.clock env = now :: rest ->
         in_time (Poller.started env) timeout now = true ->
         run = {| Poller.outcome := Some (Raise RuntimeError);
                  Poller.poll_requests := 0;
                  Poller.fetched := [] |})
  /\ (forall within now rest pending ready more file_info content,
         Poller._has_file rep = None ->
         truthy (Poller.rep_id rep) = true ->
         Poller.clock env = within ++ now :: rest ->
         Poller.polls env = pending ++ Ok ready :: more ->
         length within = length pending ->
         forallb (in_time (Poller.started env) timeout) within = true ->
         in_time (Poller.started env) timeout now = true ->
         forallb is_pending pending = true ->
         Poller._has_file ready = Some file_info ->
         Poller.download env (get file_info (lit "url")) = Ok content ->
         run = {| Poller.outcome := Some (Ok content);
                  Poller.poll_requests := S (length pending);
                  Poller.fetched := [get file_info (lit "url")] |}).
Proof.
  intros Hq Hc run. subst run. unfold Poller.download_quiz_student_analysis.
  rewrite Hq, Hc. cbn [negb].
  split; [|split; [|split]].
  - intros file_info ->. reflexivity.
  - intros within late rest pending more -> Hclock Hpolls Hlen Hw Hp Hlate Hid.
    rewrite Hclock, Hpolls.
    unfold in_time in Hlate. apply negb_false_iff in Hlate.
    destruct Hid as [->|Hid].
    + destruct within; [|discriminate]. simpl. now rewrite Hlate.
    + rewrite (poll_loop_pending env _ _ _ pending within (late :: rest) more 0 Hid Hlen Hw Hp).
      simpl. now rewrite Hlate.
  - intros now rest -> Hid Hclock Hnow. rewrite Hclock. simpl.
    unfold in_time in Hnow. apply negb_true_iff in Hnow. now rewrite Hnow, Hid.
  - intros within now rest pending ready more file_info content
      -> Hid Hclock Hpolls Hlen Hw Hnow Hp Hready Hdl.
    rewrite Hclock, Hpolls.
    rewrite (poll_loop_pending env _ _ _ pending within (now :: rest) (Ok ready :: more) 0
               Hid Hlen Hw Hp).
    unfold in_time in Hnow. apply negb_true_iff in Hnow.
    simpl. rewrite Hnow, Hid, Hready. simpl. unfold Poller.fetch. now rewrite Hdl.
Qed.

Lemma report_poller_outcomes_witness :
  let waiting := {| Poller.rep_id := VInt 5; Poller.rep_file := None |} in
  let ready :=
    {| Poller.rep_id := VInt 5;
       Poller.rep_file := Some [(lit "url", VStr (lit "https://files/5.csv"))] |} in
  let env :=
    {| Poller.created := Ok waiting;
       Poller.started := 0;
       Poller.clock := [0; 2; 4; 6]%Z;
       Poller.polls := [Ok waiting; Ok waiting; Ok waiting; Ok ready];
       Poller.download := fun _ => Ok (lit "name,id") |} in
  Poller.download_quiz_student_analysis (VInt 9) true 120 env
  = {| Poller.outcome := Some (Ok (lit "name,id"));
       Poller.poll_requests := 4;
       Poller.fetched := [VStr (lit "https://files/5.csv")] |}.
Proof.
  intros waiting ready env.
  destruct (report_poller_outcomes (VInt 9) 120 env waiting eq_refl eq_refl)
    as (_ & _ & _ & H).
  apply (H [0; 2; 4]%Z 6%Z [] [Ok waiting; Ok waiting; Ok waiting] ready []
           [(lit "url", VStr (lit "https://files/5.csv"))] (lit "name,id"));
    reflexivity.
Defined.

(** C7, as stated, fails in its third case: with neither file nor job id
    in the creation answer, a timeout of 0 and a first reading of the
    clock one unit after the start, the error is [TimeoutError], not the
    error about the missing id. *)
Lemma missing_id_after_deadline_is_timeout :
  let env :=
    {| Poller.created := Ok {| Poller.rep_id := VNone; Poller.rep_file := None |};
       Poller.started := 0;
       Poller.clock := [1%Z];
       Poller.polls := [];
       Poller.download := fun _ => Raise HTTPError |} in
  Poller.download_quiz_student_analysis (VInt 9) true 0 env
  = {| Poller.outcome := Some (Raise TimeoutError);
       Poller.poll_requests := 0;
       Poller.fetched := [] |}
  /\ Poller.outcome (Poller.download_quiz_student_analysis (VInt 9) true 0 env)
     <> Some (Raise RuntimeError).
Proof.
  intros env. split; [reflexivity|]. vm_compute. discriminate.
Qed.

(** ** The quiz CSV *)









Section EmptyPoints.

Variable float_repr : spec_float -> str.
Variable md : pyval -> result str.


End EmptyPoints.


(** * Further properties of the code *)

(** ** Stripping *)

Section Strip.

Variable p : ascii -> bool.

Lemma lstrip_chars_head (s : str) :
  match lstrip_chars p s with c :: _ => p c = false | [] => True end.
Proof.
  induction s as [|c r IH]; [exact I|]. cbn [lstrip_chars].
  destruct (p c) eqn:E; [exact IH|exact E].
Qed.

Lemma lstrip_chars_suffix (s : str) :
  exists front, s = front ++ lstrip_chars p s /\ forallb p front = true.
Proof.
  induction s as [|c r (front & IH & F)]; [now exists []|]. cbn [lstrip_chars].
  destruct (p c) eqn:E.
  - exists (c :: front). cbn [app forallb]. rewrite E, F. split; [now f_equal|reflexivity].
  - now exists [].
Qed.

Lemma lstrip_chars_fixed (s : str) :
  match s with c :: _ => p c = false | [] => True end -> lstrip_chars p s = s.
Proof. destruct s as [|c r]; [reflexivity|]. cbn [lstrip_chars]. now intros ->. Qed.

(** What [strip_chars] returns is empty or has no character of the set at
    its ends. *)
Lemma strip_chars_ends (s : str) :
  match strip_chars p s with c :: _ => p c = false | [] => True end
  /\ match rev (strip_chars p s) with c :: _ => p c = false | [] => True end.
Proof.
  unfold strip_chars, rstrip_chars. rewrite rev_involutive.
  pose proof (lstrip_chars_head s) as H1.
  pose proof (lstrip_chars_head (rev (lstrip_chars p s))) as H2.
  destruct (lstrip_chars_suffix (rev (lstrip_chars p s))) as (front & Hw & _).
  split; [|exact H2].
  destruct (lstrip_chars p (rev (lstrip_chars p s))) as [|z zs] eqn:Z; [exact I|].
  apply (f_equal (@rev ascii)) in Hw. rewrite rev_involutive, rev_app_distr in Hw.
  destruct (rev (z :: zs)) as [|c t] eqn:R.
  { apply (f_equal (@length ascii)) in R. rewrite length_rev in R. discriminate R. }
  rewrite Hw in H1. exact H1.
Qed.

Lemma strip_chars_fixed (s : str) :
  match s with c :: _ => p c = false | [] => True end ->
  match rev s with c :: _ => p c = false | [] => True end ->
  strip_chars p s = s.
Proof.
  intros H1 H2. unfold strip_chars, rstrip_chars.
  rewrite (lstrip_chars_fixed s H1), (lstrip_chars_fixed _ H2). apply rev_involutive.
Qed.

(** [strip_chars] keeps a run of neighbouring characters of the text. *)
Lemma strip_chars_substr (s : str) :
  exists front back,
    s = front ++ strip_chars p s ++ back
    /\ forallb p front = true /\ forallb p back = true.
Proof.
  unfold strip_chars, rstrip_chars.
  destruct (lstrip_chars_suffix s) as (front & Hs & Ff).
  destruct (lstrip_chars_suffix (rev (lstrip_chars p s))) as (kcab & Hr & Fb).
  exists front, (rev kcab). split; [|split; [exact Ff|]].
  - rewrite Hs at 1. f_equal.
    apply (f_equal (@rev ascii)) in Hr. rewrite rev_involutive, rev_app_distr in Hr.
    exact Hr.
  - rewrite forallb_forall in *. intros x Hx. apply Fb. now apply in_rev.
Qed.

End Strip.

Lemma lstrip_as_chars (s : str) : lstrip s = lstrip_chars isspace s.
Proof. induction s as [|c r IH]; [reflexivity|]. cbn. now rewrite IH. Qed.

Lemma strip_as_chars (s : str) : strip s = strip_chars isspace s.
Proof.
  unfold strip, rstrip, strip_chars, rstrip_chars. now rewrite !lstrip_as_chars.
Qed.

(** ** [_safe_filename] *)

Lemma sub_other_runs_chars (title : str) :
  forall in_run, forallb is_filename_char (sub_other_runs in_run title) = true.
Proof.
  induction title as [|c r IH]; intros in_run; [reflexivity|].
  cbn [sub_other_runs]. destruct (is_filename_char c) eqn:E.
  - cbn [forallb]. now rewrite E, IH.
  - destruct in_run; [apply IH|]. cbn [forallb]. now rewrite IH.
Qed.

Lemma sub_other_runs_fixed (s : str) :
  forallb is_filename_char s = true -> forall in_run, sub_other_runs in_run s = s.
Proof.
  induction s as [|c r IH]; intros H in_run; [reflexivity|].
  cbn [forallb] in H. apply andb_prop in H as [Hc Hr].
  cbn [sub_other_runs]. rewrite Hc. f_equal. now apply IH.
Qed.

Lemma forallb_substr (q : ascii -> bool) (a b c : str) :
  forallb q (a ++ b ++ c) = true -> forallb q b = true.
Proof.
  rewrite !forallb_app. intros H. apply andb_prop in H as [_ H].
  now apply andb_prop in H as [H _].
Qed.

(** The slug of a title: what [_safe_filename] puts in front of the
    suffix. *)
Lemma safe_filename_slug (title suffix : str) :
  exists slug,
    _safe_filename title suffix = slug ++ suffix
    /\ slug <> []
    /\ forallb is_filename_char slug = true
    /\ match slug with c :: _ => Ascii.eqb UNDERSCORE c = false | [] => True end
    /\ match rev slug with c :: _ => Ascii.eqb UNDERSCORE c = false | [] => True end.
Proof.
  unfold _safe_filename.
  set (t := sub_other_runs false title).
  destruct (strip_chars_ends (Ascii.eqb UNDERSCORE) t) as [H1 H2].
  destruct (strip_chars_substr (Ascii.eqb UNDERSCORE) t) as (front & back & Ht & _ & _).
  pose proof (sub_other_runs_chars title false) as Hc. fold t in Hc.
  rewrite Ht in Hc. apply forallb_substr in Hc.
  destruct (strip_chars (Ascii.eqb UNDERSCORE) t) as [|c r] eqn:E.
  - exists (lit "unnamed"). repeat split; try reflexivity. discriminate.
  - exists (c :: r). repeat split; auto. discriminate.
Qed.

(** X1: A file name made by [_safe_filename] (without suffix) is never empty,
    is made of letters, digits, full stops, underscores and hyphens
    only, so that it holds no path separator, and neither begins nor ends
    with an underscore. *)
Theorem safe_filename_is_safe (title : str) :
  let name := _safe_filename title [] in
  name <> []
  /\ forallb is_filename_char name = true
  /\ contains SLASH name = false
  /\ (forall r, name <> UNDERSCORE :: r)
  /\ (forall r, name <> r ++ [UNDERSCORE]).
Proof.
  cbv zeta. destruct (safe_filename_slug title []) as (slug & -> & Hne & Hc & H1 & H2).
  rewrite app_nil_r. split; [exact Hne|]. split; [exact Hc|]. split; [|split].
  - clear - Hc. induction slug as [|c r IH]; [reflexivity|].
    cbn [forallb] in Hc. apply andb_prop in Hc as [Hc Hr].
    cbn [contains existsb]. fold (contains SLASH r). rewrite (IH Hr), orb_false_r.
    destruct (Ascii.eqb_spec SLASH c) as [<-|]; [discriminate Hc|reflexivity].
  - intros r E. rewrite E in H1. now rewrite Ascii.eqb_refl in H1.
  - intros r E. rewrite E, rev_app_distr in H2. cbn [rev app] in H2.
    now rewrite Ascii.eqb_refl in H2.
Qed.

(** X2: [_safe_filename] changes nothing in a name it has made. *)
Theorem safe_filename_idempotent (title : str) :
  _safe_filename (_safe_filename title []) [] = _safe_filename title [].
Proof.
  destruct (safe_filename_slug title []) as (slug & -> & Hne & Hc & H1 & H2).
  rewrite app_nil_r. unfold _safe_filename.
  rewrite (sub_other_runs_fixed slug Hc), (strip_chars_fixed _ slug H1 H2), app_nil_r.
  destruct slug; [contradiction|reflexivity].
Qed.

(** ** The shape of the parsed quiz CSV *)

Lemma scan_headers_lengths (headers : list str) :
  forall todo i st cols,
    scan_headers headers i todo st = Ok cols ->
    length (q_prompts st) = length (q_col st) ->
    length (q_max_points st) = length (q_col st) ->
    length (q_prompts cols) = length (q_col cols)
    /\ length (q_max_points cols) = length (q_col cols).
Proof.
  induction todo as [|h todo IH]; intros i st cols H L1 L2; cbn [scan_headers] in H.
  - injection H as <-. auto.
  - destruct (str_eqb h (lit "name")); [apply IH in H; auto|].
    destruct (str_eqb h (lit "id")); [apply IH in H; auto|].
    destruct (str_eqb h (lit "sis_id")); [apply IH in H; auto|].
    destruct (question_prompt h).
    + bind_inv H. apply IH in H; auto; simpl; rewrite !length_app; simpl; lia.
    + apply IH in H; auto.
Qed.

Lemma read_questions_lengths (row : list str) (qs : list nat) (n : nat) :
  forall ans pts ans2 pts2,
    read_questions row qs ans pts = Ok (ans2, pts2) ->
    length ans = length qs -> length pts = length qs ->
    Forall (fun a : list str => length a = n) ans ->
    Forall (fun p : list pyval => length p = n) pts ->
    length ans2 = length qs /\ length pts2 = length qs
    /\ Forall (fun a : list str => length a = S n) ans2
    /\ Forall (fun p : list pyval => length p = S n) pts2.
Proof.
  induction qs as [|q qs IH]; intros ans pts ans2 pts2 H La Lp Fa Fp.
  - destruct ans; [|discriminate]. destruct pts; [|discriminate].
    simpl in H. injection H as <- <-. auto.
  - destruct ans as [|a ans]; [discriminate|]. destruct pts as [|p pts]; [discriminate|].
    simpl in H, La, Lp. bind_inv H. bind_inv H. bind_inv H.
    destruct a2 as [ans' pts']. injection H as <- <-.
    inversion Fa as [|? ? Ha Fa']; subst. inversion Fp as [|? ? Hp Fp']; subst.
    destruct (IH _ _ _ _ E1 ltac:(lia) ltac:(lia) Fa' Fp') as (L1 & L2 & F1 & F2).
    repeat split; simpl; try lia.
    + constructor; [rewrite length_app; simpl; lia|exact F1].
    + constructor; [rewrite length_app; simpl; lia|exact F2].
Qed.

Lemma read_rows_lengths (cols : columns) (rows : list (list str)) :
  forall t0 t n,
    read_rows cols rows t0 = Ok t ->
    length (t_names t0) = n -> length (t_ids t0) = n -> length (t_sis_ids t0) = n ->
    length (t_answers t0) = length (q_col cols) ->
    length (t_points t0) = length (q_col cols) ->
    Forall (fun a : list str => length a = n) (t_answers t0) ->
    Forall (fun p : list pyval => length p = n) (t_points t0) ->
    let m := n + length rows in
    length (t_names t) = m /\ length (t_ids t) = m /\ length (t_sis_ids t) = m
    /\ length (t_answers t) = length (q_col cols)
    /\ length (t_points t) = length (q_col cols)
    /\ Forall (fun a : list str => length a = m) (t_answers t)
    /\ Forall (fun p : list pyval => length p = m) (t_points t).
Proof.
  induction rows as [|row rows IH]; intros t0 t n H Hn Hi Hs La Lp Fa Fp m; subst m.
  - simpl in H. injection H as <-. rewrite Nat.add_0_r. auto 10.
  - simpl in H. bind_inv H. bind_inv H. bind_inv H. bind_inv H.
    destruct a2 as [ans pts].
    destruct (read_questions_lengths _ _ _ _ _ _ _ E2 La Lp Fa Fp) as (L1 & L2 & F1 & F2).
    specialize (IH _ _ (S n) H). simpl in IH.
    rewrite !length_app in IH. simpl in IH.
    replace (n + length (row :: rows)) with (S n + length rows) by (simpl; lia).
    apply IH; auto; lia.
Qed.

(** What [parse_quiz_csv] returns: one name, id and SIS id for each data
    row; one prompt, answer list, points entry and maximum for each
    question column; every answer list, and every points list that is
    kept, has one entry for each data row. *)
Lemma parse_quiz_csv_lengths (headers : list str) (rows : list (list str))
    (sa : analysis) :
  parse_quiz_csv headers rows = Ok sa ->
  length (names sa) = length rows
  /\ length (ids sa) = length rows
  /\ length (sis_ids sa) = length rows
  /\ length (answers sa) = length (questions sa)
  /\ length (points sa) = length (questions sa)
  /\ length (max_points sa) = length (questions sa)
  /\ Forall (fun a : list str => length a = length rows) (answers sa)
  /\ Forall (fun p : option (list pyval) =>
               match p with Some l => length l = length rows | None => True end)
       (points sa).
Proof.
  unfold parse_quiz_csv. intros H. bind_inv H. bind_inv H. injection H as <-. simpl.
  destruct (scan_headers_lengths _ _ _ _ _ E eq_refl eq_refl) as (Q1 & Q2).
  destruct (read_rows_lengths _ _ _ _ 0 E0) as (Hn & Hi & Hs & A & P & FA & FP); simpl;
    try reflexivity; try apply length_map.
  - apply Forall_map. apply Forall_forall. reflexivity.
  - apply Forall_map. apply Forall_forall. reflexivity.
  - simpl in *. repeat split; try lia; try exact FA.
    + rewrite length_map. lia.
    + apply Forall_map. apply Forall_impl with (2 := FP).
      intros p Hp. unfold collapse_points. destruct (existsb truthy p); auto.
Qed.

(** X3: The record that [parse_quiz_csv] returns is rectangular: the three
    lists of the students have one entry for each data row; there is one
    list of answers, one entry of points and one maximum for each
    question; every list of answers has one entry for each row; and a
    list of points that is kept has one entry for each row, one of them
    other than zero. *)
Theorem parse_quiz_csv_shape (headers : list str) (rows : list (list str))
    (sa : analysis) :
  parse_quiz_csv headers rows = Ok sa ->
  let n := length rows in
  let q := length (questions sa) in
  (length (names sa) = n /\ length (ids sa) = n /\ length (sis_ids sa) = n)
  /\ (length (answers sa) = q /\ length (points sa) = q /\ length (max_points sa) = q)
  /\ (forall k a, nth_error (answers sa) k = Some a -> length a = n)
  /\ (forall k p, nth_error (points sa) k = Some (Some p) ->
        length p = n /\ existsb truthy p = true).
Proof.
  intros H n q. subst n q.
  destruct (parse_quiz_csv_lengths _ _ _ H) as (Hn & Hi & Hs & A & P & M & FA & FP).
  split; [auto|]. split; [auto|]. split.
  - intros k a Hk. rewrite Forall_forall in FA. apply FA. eapply nth_error_In; eauto.
  - intros k p Hk. split.
    + rewrite Forall_forall in FP. apply (FP (Some p)). eapply nth_error_In; eauto.
    + unfold parse_quiz_csv in H. bind_inv H. bind_inv H. injection H as <-.
      simpl in Hk. rewrite nth_error_map in Hk.
      destruct (nth_error (t_points a0) k) as [p'|]; [|discriminate].
      simpl in Hk. unfold collapse_points in Hk.
      destruct (existsb truthy p') eqn:T; [|discriminate].
      injection Hk as <-. exact T.
Qed.

Lemma parse_quiz_csv_shape_witness :
  let headers := [lit "name"; lit "id"; lit "sis_id"; lit "1: Why?"; lit "1.0"] in
  let rows := [[lit "Jane Doe"; lit "55"; lit "abc"; lit "because"; lit "1"];
               [lit "Amy Adams"; lit "56"; lit "abd"; []; lit "0"]] in
  exists sa,
    parse_quiz_csv headers rows = Ok sa
    /\ length (names sa) = 2 /\ length (answers sa) = 1
    /\ forall k p, nth_error (points sa) k = Some (Some p) -> length p = 2.
Proof.
  intros headers rows. eexists. split; [vm_compute; reflexivity|].
  match goal with
  | |- context [names ?sa] =>
      destruct (parse_quiz_csv_shape headers rows sa eq_refl) as ((N & _) & (A & _) & _ & P)
  end.
  split; [exact N|]. split; [exact A|].
  intros k p Hk. exact (proj1 (P k p Hk)).
Defined.

(** ** The document made from a parsed CSV *)

Section Composition.

Variable float_repr : spec_float -> str.
Variable md : pyval -> result str.

Lemma index_ok {A : Type} (l : list A) (n : nat) :
  n < length l -> exists x, index l (Some n) = Ok x.
Proof.
  intros H. unfold index. destruct (nth_error l n) eqn:E; [eauto|].
  apply nth_error_None in E. lia.
Qed.

Lemma quiz_questions_ok (sa : analysis) (prompts : list str) :
  forall qn,
    qn + length prompts <= length (max_points sa) ->
    exists q, quiz_questions float_repr sa qn prompts = Ok q.
Proof.
  induction prompts as [|p r IH]; intros qn H; cbn [quiz_questions length] in *; [eauto|].
  destruct (index_ok (max_points sa) qn ltac:(lia)) as (mp & ->).
  destruct (IH (S qn) ltac:(lia)) as (q & ->). cbn [bind]. eauto.
Qed.

Lemma submission_fields_ok (i : nat) (cols : list (list str * option (list pyval))) :
  Forall (fun c : list str * option (list pyval) =>
            i < length (fst c)
            /\ match snd c with Some l => i < length l | None => True end) cols ->
  forall qn, exists l, submission_fields float_repr i qn cols = Ok l.
Proof.
  induction 1 as [|[ans pts] r [Ha Hp] _ IH]; intros qn;
    cbn [submission_fields fst snd] in *; [eauto|].
  destruct (index_ok ans i Ha) as (a & ->). cbn [bind].
  destruct (IH (S qn)) as (more & Hm).
  destruct (has_points pts) eqn:P.
  - destruct pts as [l|]; [|discriminate].
    destruct (index_ok l i Hp) as (p & ->). cbn [bind]. rewrite Hm. cbn [bind]. eauto.
  - cbn [bind]. rewrite Hm. cbn [bind]. eauto.
Qed.

Lemma combine_Forall {A B : Type} (P : A -> Prop) (Q : B -> Prop)
    (la : list A) (lb : list B) :
  Forall P la -> Forall Q lb -> Forall (fun c => P (fst c) /\ Q (snd c)) (combine la lb).
Proof.
  intros Ha. revert lb. induction Ha as [|a la Pa _ IH]; intros lb Hb; simpl; [constructor|].
  destruct Hb as [|b lb Qb Hb]; constructor; auto.
Qed.

Lemma submission_blocks_ok (sa : analysis) (n : nat) :
  length (names sa) = n -> length (ids sa) = n -> length (sis_ids sa) = n ->
  Forall (fun a : list str => length a = n) (answers sa) ->
  Forall (fun p : option (list pyval) =>
            match p with Some l => length l = n | None => True end) (points sa) ->
  forall order,
    Forall (fun i => i < n) order ->
    exists b, submission_blocks float_repr sa order = Ok b.
Proof.
  intros Hn Hi' Hs FA FP. induction 1 as [|i r Hi _ IH]; cbn [submission_blocks]; [eauto|].
  destruct IH as (more & ->).
  unfold submission_block.
  destruct (index_ok (names sa) i ltac:(lia)) as (x & ->).
  destruct (index_ok (ids sa) i ltac:(lia)) as (y & ->).
  destruct (index_ok (sis_ids sa) i ltac:(lia)) as (z & ->). cbn [bind].
  destruct (submission_fields_ok i (combine (answers sa) (points sa))) with (qn := 0)
    as (f & ->).
  - apply (combine_Forall (fun a : list str => i < length a)
             (fun p : option (list pyval) =>
                match p with Some l => i < length l | None => True end)).
    + apply Forall_impl with (2 := FA). intros a ->. exact Hi.
    + apply Forall_impl with (2 := FP). intros [l|]; [intros ->; exact Hi|auto].
  - cbn [bind]. eauto.
Qed.

(** X4: The record that [parse_quiz_csv] returns always fits
    [generate_quiz_toml]: once the head of the document (ids, title,
    description, prepended keys) is written without error, no index of the
    questions and of the submission blocks is out of range and the
    document is returned. *)
Theorem parsed_csv_always_renders (headers : list str) (rows : list (list str))
    (sa : analysis) (quiz_info : dict) (prepend_info : list (str * pyval))
    (h : list emission) :
  parse_quiz_csv headers rows = Ok sa ->
  quiz_header float_repr md quiz_info prepend_info = Ok h ->
  exists text, generate_quiz_toml float_repr md quiz_info sa prepend_info = Ok text.
Proof.
  intros Hp Hh.
  destruct (parse_quiz_csv_lengths _ _ _ Hp) as (Hn & Hi & Hs & A & P & M & FA & FP).
  unfold generate_quiz_toml, quiz_emissions. rewrite Hh. cbn [bind].
  destruct (quiz_questions_ok sa (questions sa) 0 ltac:(simpl; lia)) as (q & ->). cbn [bind].
  destruct (submission_blocks_ok sa (length rows) Hn Hi Hs FA FP (submission_order (names sa)))
    as (b & ->).
  - apply Forall_forall. intros i Hin.
    apply (Permutation_in _ (sorted_by_perm _ _ _)) in Hin.
    apply in_seq in Hin. lia.
  - cbn [bind]. eauto.
Qed.

End Composition.

Lemma parsed_csv_always_renders_witness :
  exists text,
    generate_quiz_toml Calm.float_repr Calm.md
      [(lit "id", VInt 9); (lit "title", VStr (lit "Quiz 1"))]
      {| names := [lit "Jane Doe"]; ids := [lit "55"]; sis_ids := [lit "abc"];
         questions := [lit "Why?"]; answers := [[lit "because"]];
         points := [Some [VInt 1]]; max_points := [VFloat (S754_finite false 4503599627370496 (-52))] |}
      [] = Ok text.
Proof.
  eapply (parsed_csv_always_renders Calm.float_repr Calm.md
           [lit "name"; lit "id"; lit "sis_id"; lit "1: Why?"; lit "1.0"]
           [[lit "Jane Doe"; lit "55"; lit "abc"; lit "because"; lit "1"]]).
  - vm_compute. reflexivity.
  - vm_compute. reflexivity.
Defined.

(** ** Columns that are missing *)

Lemma scan_headers_no_name (headers : list str) :
  forall todo i st cols,
    scan_headers headers i todo st = Ok cols ->
    forallb (fun h => negb (str_eqb h (lit "name"))) todo = true ->
    name_col cols = name_col st.
Proof.
  induction todo as [|h todo IH]; intros i st cols H F;
    cbn [scan_headers forallb] in H, F.
  - now injection H as <-.
  - apply andb_prop in F as [F1 F2]. apply negb_true_iff in F1. rewrite F1 in H.
    destruct (str_eqb h (lit "id")); [now apply IH in H|].
    destruct (str_eqb h (lit "sis_id")); [now apply IH in H|].
    destruct (question_prompt h).
    + bind_inv H. now apply IH in H.
    + now apply IH in H.
Qed.

(** X5: A header row without a [name] column: with no data row the record is
    returned with empty lists; with a data row the first [row[name_col]]
    is [row[None]] and raises [TypeError]. *)
Theorem csv_without_name_column (headers : list str) (cols : columns) :
  scan_headers headers 0 headers no_columns = Ok cols ->
  forallb (fun h => negb (str_eqb h (lit "name"))) headers = true ->
  (exists sa, parse_quiz_csv headers [] = Ok sa /\ names sa = [] /\ ids sa = [])
  /\ (forall row rows, parse_quiz_csv headers (row :: rows) = Raise TypeError).
Proof.
  intros Hs Hn. pose proof (scan_headers_no_name _ _ _ _ _ Hs Hn) as Hc. simpl in Hc.
  unfold parse_quiz_csv. rewrite Hs. simpl. split.
  - eexists. split; [reflexivity|]. split; reflexivity.
  - intros row rows. rewrite Hc. reflexivity.
Qed.

Lemma csv_without_name_column_witness :
  (exists sa, parse_quiz_csv [lit "id"; lit "sis_id"] [] = Ok sa
              /\ names sa = [] /\ ids sa = [])
  /\ parse_quiz_csv [lit "id"; lit "sis_id"] [[lit "55"; lit "abc"]] = Raise TypeError.
Proof.
  destruct (csv_without_name_column [lit "id"; lit "sis_id"]
              {| name_col := None; id_col := Some 0; sis_id_col := Some 1;
                 q_col := []; q_prompts := []; q_max_points := [] |}
              eq_refl eq_refl) as [H1 H2].
  split; [exact H1|apply H2].
Defined.

Lemma question_prompt_not_key (h : str) (p : str) :
  question_prompt h = Some p ->
  str_eqb h (lit "name") = false /\ str_eqb h (lit "id") = false
  /\ str_eqb h (lit "sis_id") = false.
Proof.
  intros H. destruct h as [|c r]; [discriminate|].
  assert (D : is_decimal c = true).
  { unfold question_prompt in H. simpl in H. destruct (is_decimal c); [reflexivity|].
    discriminate. }
  assert (K : forall k : str, str_eqb (c :: r) k = true ->
                match k with x :: _ => is_decimal x = true | [] => True end).
  { intros k Hk. apply str_eqb_eq in Hk. subst k. exact D. }
  repeat split.
  - destruct (str_eqb (c :: r) (lit "name")) eqn:E; [|reflexivity].
    apply K in E. discriminate E.
  - destruct (str_eqb (c :: r) (lit "id")) eqn:E; [|reflexivity].
    apply K in E. discriminate E.
  - destruct (str_eqb (c :: r) (lit "sis_id")) eqn:E; [|reflexivity].
    apply K in E. discriminate E.
Qed.

Lemma scan_headers_last_question (last p : str) :
  question_prompt last = Some p ->
  forall todo pre i st,
    i = length pre ->
    scan_headers (pre ++ todo ++ [last]) i (todo ++ [last]) st = Raise IndexError.
Proof.
  intros Hq. destruct (question_prompt_not_key _ _ Hq) as (K1 & K2 & K3).
  induction todo as [|h todo IH]; intros pre i st ->.
  - cbn [app scan_headers]. rewrite K1, K2, K3, Hq. unfold index.
    replace (nth_error (pre ++ [last]) (length pre + 1)) with (@None str); [reflexivity|].
    symmetry. apply nth_error_None. rewrite length_app. simpl. lia.
  - assert (R : forall st',
               scan_headers (pre ++ (h :: todo) ++ [last]) (S (length pre)) (todo ++ [last]) st'
               = Raise IndexError).
    { intros st'. specialize (IH (pre ++ [h]) (S (length pre)) st').
      rewrite <- app_assoc in IH. simpl in IH. apply IH.
      rewrite length_app. simpl. lia. }
    cbn [app scan_headers].
    destruct (str_eqb h (lit "name")); [apply R|].
    destruct (str_eqb h (lit "id")); [apply R|].
    destruct (str_eqb h (lit "sis_id")); [apply R|].
    destruct (question_prompt h); [|apply R].
    unfold index.
    destruct (nth_error (pre ++ h :: todo ++ [last]) (length pre + 1)) eqn:E.
    + cbn [bind]. apply R.
    + apply nth_error_None in E. rewrite length_app in E. simpl in E.
      rewrite length_app in E. simpl in E. lia.
Qed.

(** X6: A question column needs the points column to its right: when the
    last header is a question header, [headers[i+1]] is out of range and
    [parse_quiz_csv] raises [IndexError], whatever the rows are. *)
Theorem question_header_in_last_column (headers : list str) (last p : str)
    (rows : list (list str)) :
  question_prompt last = Some p ->
  parse_quiz_csv (headers ++ [last]) rows = Raise IndexError.
Proof.
  intros Hq. unfold parse_quiz_csv.
  pose proof (scan_headers_last_question last p Hq headers [] 0 no_columns eq_refl) as E.
  cbn [app] in E. rewrite E. reflexivity.
Qed.

Lemma question_header_in_last_column_witness :
  parse_quiz_csv ([lit "name"; lit "id"; lit "sis_id"] ++ [lit "1: Why?"])
    [[lit "Jane"; lit "55"; lit "abc"; lit "because"]] = Raise IndexError.
Proof.
  apply (question_header_in_last_column _ _ (lit "Why?")). reflexivity.
Defined.

(** ** [toml_escape_basic] *)

(** The two replacements of backslash and quote, read from the left. *)
Lemma escape_quotes_cons (c : ascii) (r : str) :
  replace [DQ] [BSL; DQ] (replace [BSL] [BSL; BSL] (c :: r))
  = (if is_bsl c then [BSL; BSL] else if is_dq c then [BSL; DQ] else [c])
    ++ replace [DQ] [BSL; DQ] (replace [BSL] [BSL; BSL] r).
Proof.
  rewrite (replace_unfold [BSL] [BSL; BSL]) by discriminate.
  cbn [strip_prefix]. unfold is_bsl, is_dq.
  rewrite (Ascii.eqb_sym c BSL).
  destruct (Ascii.eqb_spec BSL c) as [<-|Hb].
  - cbn [app].
    rewrite (replace_unfold [DQ] [BSL; DQ]) by discriminate. cbn [strip_prefix].
    replace (Ascii.eqb DQ BSL) with false by reflexivity.
    rewrite (replace_unfold [DQ] [BSL; DQ]) by discriminate. cbn [strip_prefix].
    replace (Ascii.eqb DQ BSL) with false by reflexivity. reflexivity.
  - rewrite (replace_unfold [DQ] [BSL; DQ]) by discriminate. cbn [strip_prefix].
    rewrite (Ascii.eqb_sym c DQ).
    destruct (Ascii.eqb_spec DQ c) as [<-|Hq]; reflexivity.
Qed.

Lemma escape_quotes_escapes_only (s : str) :
  escapes_only false (replace [DQ] [BSL; DQ] (replace [BSL] [BSL; BSL] s)) = true.
Proof.
  induction s as [|c r IH]; [reflexivity|].
  rewrite escape_quotes_cons.
  destruct (is_bsl c) eqn:B; [exact IH|].
  destruct (is_dq c) eqn:Q; [exact IH|].
  cbn [app escapes_only]. now rewrite B, Q, IH.
Qed.

Lemma escapes_only_skip (pending : bool) (a b : str) :
  a <> [] -> forallb (fun c => negb (is_bsl c) && negb (is_dq c)) a = true ->
  escapes_only pending (a ++ b) = true -> pending = false /\ escapes_only false b = true.
Proof.
  revert pending. induction a as [|c a IH]; intros pending Hne F H; [contradiction|].
  cbn [forallb] in F. apply andb_prop in F as [Fc Fa].
  apply andb_prop in Fc as [Fb Fq].
  apply negb_true_iff in Fb. apply negb_true_iff in Fq.
  cbn [app escapes_only] in H. rewrite Fb, Fq in H.
  destruct pending; [discriminate H|]. split; [reflexivity|].
  cbn [negb andb] in H.
  destruct a as [|d a]; [exact H|].
  apply (IH false ltac:(discriminate) Fa H).
Qed.

Lemma escapes_only_plain_front (a b : str) :
  forallb (fun c => negb (is_bsl c) && negb (is_dq c)) a = true ->
  escapes_only false b = true -> escapes_only false (a ++ b) = true.
Proof.
  induction a as [|c a IH]; intros F H; [exact H|].
  cbn [forallb] in F. apply andb_prop in F as [Fc Fa].
  apply andb_prop in Fc as [Fb Fq].
  apply negb_true_iff in Fb. apply negb_true_iff in Fq.
  cbn [app escapes_only]. rewrite Fb, Fq. cbn [negb andb]. auto.
Qed.

(** Replacing one run of plain characters by another keeps the escapes. *)
Lemma replace_escapes_only (old new : str) (n : nat) :
  old <> [] ->
  forallb (fun c => negb (is_bsl c) && negb (is_dq c)) old = true ->
  forallb (fun c => negb (is_bsl c) && negb (is_dq c)) new = true ->
  forall (s : str) (pending : bool),
    escapes_only pending s = true -> escapes_only pending (replace_n n old new s) = true.
Proof.
  intros Ho Fo Fn. induction n as [|n IH]; intros s pending H; [exact H|].
  destruct s as [|c r]; [exact H|]. cbn [replace_n].
  destruct (strip_prefix old (c :: r)) as [rest|] eqn:P.
  - apply strip_prefix_app in P. rewrite P in H.
    destruct (escapes_only_skip _ _ _ Ho Fo H) as [-> Hr].
    apply escapes_only_plain_front; [exact Fn|]. now apply IH.
  - cbn [escapes_only] in H |- *. destruct pending.
    + apply andb_prop in H as [H1 H2]. rewrite H1. now apply IH.
    + destruct (is_bsl c); [now apply IH|].
      apply andb_prop in H as [H1 H2]. rewrite H1. now apply IH.
Qed.

Lemma replace_cr_no_cr (n : nat) :
  forall s : str, length s <= n -> contains CR (replace_n n [CR] [NL] s) = false.
Proof.
  induction n as [|n IH]; intros s H.
  - destruct s; [reflexivity|simpl in H; lia].
  - destruct s as [|c r]; [reflexivity|]. simpl in H.
    cbn [replace_n strip_prefix].
    destruct (Ascii.eqb_spec CR c) as [<-|Hc].
    + cbn [app contains existsb]. fold (contains CR (replace_n n [CR] [NL] r)).
      rewrite IH by lia. reflexivity.
    + cbn [contains existsb]. fold (contains CR (replace_n n [CR] [NL] r)).
      rewrite IH by lia. destruct (Ascii.eqb_spec CR c); [contradiction|reflexivity].
Qed.

(** X7: What [toml_escape_basic] returns is made of unescaped characters
    other than backslash and quote and of the escapes backslash-backslash
    and backslash-quote, so that no quote stands bare, and it has no
    carriage return. *)
Theorem toml_escape_basic_escapes (s : str) :
  escapes_only false (toml_escape_basic s) = true
  /\ contains CR (toml_escape_basic s) = false.
Proof.
  unfold toml_escape_basic. split.
  - unfold replace at 1 2.
    apply replace_escapes_only; [discriminate|reflexivity|reflexivity|].
    apply replace_escapes_only; [discriminate|reflexivity|reflexivity|].
    apply escape_quotes_escapes_only.
  - unfold replace at 1. apply replace_cr_no_cr. lia.
Qed.

(** ** Plain text *)

(** The escape of one character. *)
Lemma escape_quotes_flat_map (s : str) :
  replace [DQ] [BSL; DQ] (replace [BSL] [BSL; BSL] s)
  = flat_map (fun c => if is_bsl c then [BSL; BSL] else if is_dq c then [BSL; DQ] else [c]) s.
Proof.
  induction s as [|c r IH]; [reflexivity|].
  rewrite escape_quotes_cons, IH. reflexivity.
Qed.

Lemma replace_n_absent (o : ascii) (old new : str) (n : nat) :
  forall s : str, contains o s = false -> replace_n n (o :: old) new s = s.
Proof.
  induction n as [|n IH]; intros s H; [reflexivity|].
  destruct s as [|c r]; [reflexivity|].
  cbn [contains existsb] in H. apply orb_false_iff in H as [Hc Hr].
  cbn [replace_n strip_prefix]. rewrite Hc. f_equal. now apply IH.
Qed.

Lemma plain_char_not_cr (s : str) :
  forallb plain_char s = true -> contains CR s = false.
Proof.
  induction s as [|c r IH]; [reflexivity|]. cbn [forallb contains existsb].
  intros H. apply andb_prop in H as [Hc Hr].
  fold (contains CR r). rewrite (IH Hr), orb_false_r.
  destruct (Ascii.eqb_spec CR c) as [<-|]; [discriminate Hc|reflexivity].
Qed.

Lemma escape_plain (s : str) :
  forallb plain_char s = true ->
  toml_escape_basic s
  = flat_map (fun c => if is_bsl c then [BSL; BSL] else if is_dq c then [BSL; DQ] else [c]) s
  /\ forallb plain_char (toml_escape_basic s) = true.
Proof.
  intros H.
  assert (P : forallb plain_char
                (flat_map (fun c => if is_bsl c then [BSL; BSL]
                                    else if is_dq c then [BSL; DQ] else [c]) s) = true).
  { induction s as [|c r IH]; [reflexivity|].
    cbn [forallb] in H. apply andb_prop in H as [Hc Hr].
    cbn [flat_map]. rewrite forallb_app, (IH Hr), andb_true_r.
    destruct (is_bsl c); [reflexivity|]. destruct (is_dq c); [reflexivity|].
    cbn [forallb]. now rewrite Hc. }
  pose proof (plain_char_not_cr _ P) as C.
  assert (E : toml_escape_basic s
              = flat_map (fun c => if is_bsl c then [BSL; BSL]
                                   else if is_dq c then [BSL; DQ] else [c]) s).
  { unfold toml_escape_basic. rewrite escape_quotes_flat_map.
    unfold replace at 2. rewrite (replace_n_absent CR [NL] [NL]) by exact C.
    unfold replace. now rewrite (replace_n_absent CR [] [NL]) by exact C. }
  split; [exact E|rewrite E; exact P].
Qed.

Lemma escape_no_trailing_space (s : str) :
  forallb plain_char s = true -> no_trailing_space s = true ->
  no_trailing_space (toml_escape_basic s) = true.
Proof.
  intros H T. destruct (escape_plain s H) as [-> _].
  unfold no_trailing_space in *.
  destruct (rev s) as [|c t] eqn:E; [|].
  - apply (f_equal (@rev ascii)) in E. rewrite rev_involutive in E. subst s. reflexivity.
  - apply (f_equal (@rev ascii)) in E. rewrite rev_involutive in E. subst s.
    cbn [rev]. rewrite flat_map_app. cbn [flat_map]. rewrite app_nil_r, rev_app_distr.
    destruct (is_bsl c); [reflexivity|]. destruct (is_dq c); [reflexivity|].
    cbn [rev app]. exact T.
Qed.

Lemma plain_char_not_linebreak (c : ascii) :
  plain_char c = true -> is_linebreak c = false.
Proof.
  destruct c as [[] [] [] [] [] [] [] []]; vm_compute; intros H;
    first [reflexivity | discriminate H].
Qed.

Lemma splitlines_from_one_line (s : str) :
  forall cur : str,
    forallb plain_char s = true ->
    splitlines_from cur s = match cur ++ s with [] => [] | l => [l] end.
Proof.
  induction s as [|c r IH]; intros cur H.
  - cbn [splitlines_from]. rewrite app_nil_r. destruct cur; reflexivity.
  - cbn [forallb] in H. apply andb_prop in H as [Hc Hr].
    cbn [splitlines_from].
    pose proof (plain_char_not_linebreak c Hc) as L.
    rewrite L, (IH (cur ++ [c]) Hr), <- app_assoc. reflexivity.
Qed.

Lemma expandtabs_plain (s : str) :
  forall col, forallb plain_char s = true -> expandtabs_from 8 col s = s.
Proof.
  induction s as [|c r IH]; intros col H; [reflexivity|].
  cbn [forallb] in H. apply andb_prop in H as [Hc Hr].
  cbn [expandtabs_from].
  destruct (Ascii.eqb_spec c TAB) as [->|]; [discriminate Hc|].
  destruct (Ascii.eqb c NL || Ascii.eqb c CR); f_equal; now apply IH.
Qed.

Lemma munge_plain (s : str) :
  forallb plain_char s = true -> _munge_whitespace s = s.
Proof.
  intros H. unfold _munge_whitespace, expandtabs. rewrite (expandtabs_plain s 0 H).
  induction s as [|c r IH]; [reflexivity|].
  cbn [forallb] in H. apply andb_prop in H as [Hc Hr].
  cbn [map]. rewrite (IH Hr). f_equal.
  destruct (is_ws c) eqn:W; [|reflexivity].
  apply is_ws_isspace in W. unfold plain_char in Hc. rewrite W in Hc. cbn [negb orb] in Hc.
  now destruct (Ascii.eqb_spec c SP).
Qed.

Lemma split_n_nonempty (n : nat) :
  forall before s : str, Forall (fun c : str => c <> []) (split_n n before s).
Proof.
  induction n as [|n IH]; intros before s; [constructor|].
  cbn [split_n]. destruct s as [|c r]; [constructor|].
  destruct (match_chunk_app before (c :: r) ltac:(discriminate))
    as (chunk & rest & -> & _ & Hne).
  constructor; [exact Hne|apply IH].
Qed.

Lemma take_fitting_all (w : nat) (chunks : list str) :
  forall (cur : list str) (n : nat),
    n + length (concat chunks) <= w ->
    take_fitting w chunks cur n = ([], cur ++ chunks, n + length (concat chunks)).
Proof.
  induction chunks as [|c rest IH]; intros cur n H.
  - cbn [take_fitting concat length app]. now rewrite app_nil_r, Nat.add_0_r.
  - cbn [concat] in H. rewrite length_app in H.
    cbn [take_fitting]. replace (n + length c <=? w) with true
      by (symmetry; apply Nat.leb_le; lia).
    rewrite IH by lia. rewrite <- app_assoc. cbn [concat app].
    rewrite length_app. f_equal. lia.
Qed.

(** A text that fits one line and does not end in whitespace is one
    line. *)
Lemma wrap_chunks_one_line (w : nat) (chunks : list str) :
  chunks <> [] ->
  Forall (fun c : str => c <> []) chunks ->
  length (concat chunks) <= w ->
  no_trailing_space (concat chunks) = true ->
  forallb plain_char (concat chunks) = true ->
  _wrap_chunks w chunks = [concat chunks].
Proof.
  intros Hne Hall Hlen Hts Hpl.
  assert (Hkeep : drop_trailing_blank chunks = chunks).
  { unfold drop_trailing_blank. destruct (rev chunks) as [|x t] eqn:E; [reflexivity|].
    apply (f_equal (@rev str)) in E. rewrite rev_involutive in E. cbn [rev] in E.
    replace (is_blank x) with false; [reflexivity|]. symmetry.
    rewrite E in Hall, Hts, Hpl. rewrite concat_app in Hts, Hpl. cbn [concat] in Hts, Hpl.
    rewrite app_nil_r in Hts, Hpl.
    apply Forall_app in Hall as [_ Hx]. inversion Hx as [|? ? Hx' _]; subst.
    rewrite forallb_app in Hpl. apply andb_prop in Hpl as [_ Hpl].
    unfold no_trailing_space in Hts. rewrite rev_app_distr in Hts.
    destruct (rev x) as [|c t'] eqn:Ex.
    { apply (f_equal (@rev ascii)) in Ex. rewrite rev_involutive in Ex. contradiction. }
    cbn [app] in Hts.
    apply (f_equal (@rev ascii)) in Ex. rewrite rev_involutive in Ex. cbn [rev] in Ex.
    rewrite Ex in Hpl |- *. rewrite forallb_app in Hpl. apply andb_prop in Hpl as [_ Hc].
    cbn [forallb] in Hc. rewrite andb_true_r in Hc.
    unfold is_blank. rewrite forallb_app. cbn [forallb].
    unfold plain_char in Hc. apply negb_true_iff in Hts. rewrite Hts, orb_false_r in Hc.
    apply negb_true_iff in Hc. rewrite Hc. now rewrite andb_false_r. }
  unfold _wrap_chunks. destruct chunks as [|c0 rest]; [contradiction|].
  cbn [passes fold_right Nat.add wrap_loop]. unfold wrap_step.
  cbn [negb andb]. rewrite andb_false_r.
  rewrite (take_fitting_all w (c0 :: rest) [] 0) by exact Hlen.
  cbn [app]. rewrite Hkeep.
  match goal with |- context [wrap_loop ?n _ [] _] => destruct n end; reflexivity.
Qed.

Lemma fill_plain_line (p : str) :
  p <> [] -> forallb plain_char p = true -> no_trailing_space p = true ->
  length p <= 80 -> fill p 80 = p.
Proof.
  intros Hne Hpl Hts Hlen. unfold fill, wrap, _split_chunks.
  rewrite (munge_plain p Hpl).
  pose proof (split_concat p) as C.
  rewrite (wrap_chunks_one_line 80 (_split p)).
  - cbn [join]. exact C.
  - intros E. rewrite E in C. simpl in C. congruence.
  - apply split_n_nonempty.
  - now rewrite C.
  - now rewrite C.
  - now rewrite C.
Qed.

(** X8: A text of one line, of plain characters and spaces, that does not end
    in a space and whose escaped form has at most 80 characters is
    emitted as its escaped form between two double quotes: no character
    is moved, dropped or added by the wrapping. *)
Theorem toml_string_short_plain_text (s : str) :
  forallb plain_char s = true ->
  no_trailing_space s = true ->
  length (toml_escape_basic s) <= 80 ->
  toml_string s = [DQ] ++ toml_escape_basic s ++ [DQ].
Proof.
  intros Hpl Hts Hlen.
  destruct (escape_plain s Hpl) as [_ Hpe].
  pose proof (escape_no_trailing_space s Hpl Hts) as Hte.
  assert (W : wrapped s = toml_escape_basic s).
  { unfold wrapped, splitlines. rewrite (splitlines_from_one_line _ [] Hpe). cbn [app].
    destruct (toml_escape_basic s) as [|c r] eqn:E; [reflexivity|].
    cbn [map join]. apply fill_plain_line; auto. discriminate. }
  unfold toml_string. rewrite W.
  replace (contains NL (toml_escape_basic s)) with false; [reflexivity|].
  symmetry. clear - Hpe. induction (toml_escape_basic s) as [|c r IH]; [reflexivity|].
  cbn [forallb] in Hpe. apply andb_prop in Hpe as [Hc Hr].
  cbn [contains existsb]. fold (contains NL r). rewrite (IH Hr), orb_false_r.
  destruct (Ascii.eqb_spec NL c) as [<-|]; [discriminate Hc|reflexivity].
Qed.

Lemma toml_string_short_plain_text_witness :
  toml_string (lit "Jane  Doe") = [DQ] ++ lit "Jane  Doe" ++ [DQ].
Proof.
  apply (toml_string_short_plain_text (lit "Jane  Doe")).
  - reflexivity.
  - reflexivity.
  - vm_compute. lia.
Defined.

(** ** [name_lf] keeps names apart *)

Lemma split1_some (sep : ascii) (s : str) :
  forall a b, split1 sep s = Some (a, b) -> s = a ++ sep :: b /\ contains sep a = false.
Proof.
  induction s as [|c r IH]; intros a b H; [discriminate|].
  cbn [split1] in H. destruct (Ascii.eqb_spec c sep) as [->|Hc].
  - injection H as <- <-. auto.
  - destruct (split1 sep r) as [[a' b']|]; [|discriminate].
    injection H as <- <-. destruct (IH _ _ eq_refl) as [-> Ha]. split; [reflexivity|].
    cbn [contains existsb]. fold (contains sep a'). rewrite Ha, orb_false_r.
    destruct (Ascii.eqb_spec sep c); [congruence|reflexivity].
Qed.

Lemma split1_is_none (sep : ascii) (s : str) :
  split1 sep s = None -> contains sep s = false.
Proof.
  induction s as [|c r IH]; intros H; [reflexivity|].
  cbn [split1] in H. destruct (Ascii.eqb_spec c sep) as [->|Hc]; [discriminate|].
  destruct (split1 sep r) as [[a' b']|]; [discriminate|].
  cbn [contains existsb]. fold (contains sep r). rewrite (IH eq_refl), orb_false_r.
  destruct (Ascii.eqb_spec sep c); [congruence|reflexivity].
Qed.

Lemma contains_app (c : ascii) (a b : str) :
  contains c (a ++ b) = contains c a || contains c b.
Proof. unfold contains. apply existsb_app. Qed.

(** A text is cut at the first occurrence of a character in one way
    only. *)
Lemma first_occurrence_unique (c : ascii) (a : str) :
  forall a' b b' : str,
    contains c a = false -> contains c a' = false ->
    a ++ c :: b = a' ++ c :: b' -> a = a' /\ b = b'.
Proof.
  induction a as [|x a IH]; intros a' b b' Ha Ha' E.
  - destruct a' as [|y a']; [injection E as ->; auto|].
    injection E as <- _. cbn [contains existsb] in Ha'.
    now rewrite Ascii.eqb_refl in Ha'.
  - destruct a' as [|y a'].
    + injection E as -> _. cbn [contains existsb] in Ha.
      now rewrite Ascii.eqb_refl in Ha.
    + injection E as <- E. cbn [contains existsb] in Ha, Ha'.
      apply orb_false_iff in Ha as [_ Ha]. apply orb_false_iff in Ha' as [_ Ha'].
      destruct (IH _ _ _ Ha Ha' E) as [-> ->]. auto.
Qed.

Lemma contains_rev (c : ascii) (a : str) : contains c (rev a) = contains c a.
Proof.
  induction a as [|x a IH]; [reflexivity|].
  cbn [rev]. rewrite contains_app, IH. cbn [contains existsb].
  now rewrite orb_false_r, orb_comm.
Qed.

Lemma name_lf_inj (a b : str) : name_lf a = name_lf b -> a = b.
Proof.
  unfold name_lf.
  destruct (split1 SP a) as [[fa ra]|] eqn:Ea; destruct (split1 SP b) as [[fb rb]|] eqn:Eb.
  - apply split1_some in Ea as [-> Ha]. apply split1_some in Eb as [-> Hb].
    intros E.
    assert (E' : rev fa ++ SP :: rev (ra ++ [","%char])
                 = rev fb ++ SP :: rev (rb ++ [","%char])).
    { apply (f_equal (@rev ascii)) in E.
      change (lit ", ") with ([","%char] ++ [SP]) in E.
      rewrite !rev_app_distr in E. cbn [rev app] in E.
      rewrite <- !app_assoc in E. cbn [app] in E.
      rewrite !rev_app_distr. cbn [rev app]. exact E. }
    apply first_occurrence_unique in E' as [F R];
      [|now rewrite contains_rev|now rewrite contains_rev].
    apply (f_equal (@rev ascii)) in F, R. rewrite !rev_involutive in F, R.
    apply app_inj_tail in R as [-> _]. now subst.
  - apply split1_is_none in Eb. intros E. subst b.
    rewrite !contains_app in Eb. cbn in Eb. rewrite orb_true_r in Eb. discriminate.
  - apply split1_is_none in Ea. intros E. subst a.
    rewrite !contains_app in Ea. cbn in Ea. rewrite orb_true_r in Ea. discriminate.
  - auto.
Qed.

(** X9: [name_lf] is one-to-one: names that differ have keys that differ, so
    that only students of one and the same name tie in the order of the
    quiz document. *)
Theorem name_lf_injective (a b : str) : a <> b -> name_lf a <> name_lf b.
Proof. intros H E. apply H. now apply name_lf_inj. Qed.

Lemma name_lf_injective_witness :
  name_lf (lit "Jane Doe") <> name_lf (lit "Doe Jane").
Proof. apply (name_lf_injective (lit "Jane Doe") (lit "Doe Jane")). discriminate. Defined.

(** ** Ties in the order of the blocks *)

Section Stable.

Context {A K : Type}.
Variable ltb : K -> K -> bool.
Variable key : A -> K.
Variable p : A -> bool.

(** No element that [p] selects is below another one. *)
Hypothesis tied : forall x y, p x = true -> p y = true -> ltb (key y) (key x) = false.

Lemma insert_by_filter (x : A) (l : list A) :
  filter p (insert_by ltb key x l) = filter p (x :: l).
Proof.
  induction l as [|y r IH]; [reflexivity|].
  cbn [insert_by]. destruct (ltb (key y) (key x)) eqn:L; [|reflexivity].
  cbn [filter] in IH |- *. rewrite IH.
  destruct (p x) eqn:Px; [|reflexivity].
  destruct (p y) eqn:Py; [|reflexivity].
  rewrite (tied x y Px Py) in L. discriminate L.
Qed.

Lemma sorted_by_filter (l : list A) : filter p (sorted_by ltb key l) = filter p l.
Proof.
  induction l as [|x r IH]; [reflexivity|].
  unfold sorted_by in *. cbn [fold_right]. rewrite insert_by_filter.
  cbn [filter]. now rewrite IH.
Qed.

End Stable.

(** X10: The sort is stable: the students whose names have one and the same key
    stand in the quiz document in the order of the rows of the CSV. *)
Theorem submission_order_keeps_ties (names : list str) (k : str) :
  let tie := fun i => str_eqb (name_lf (nth i names [])) k in
  filter tie (submission_order names) = filter tie (seq 0 (length names)).
Proof.
  intros tie. unfold submission_order. apply sorted_by_filter.
  intros x y Hx Hy. subst tie. cbv beta in Hx, Hy.
  rewrite !nth_map_name_lf.
  apply str_eqb_eq in Hx, Hy. rewrite Hx, Hy. apply str_ltb_irrefl.
Qed.

(** ** [_triple] *)

Lemma replace_nil (old new : str) : replace old new [] = [].
Proof. reflexivity. Qed.

(** The text with its triple quotes escaped never begins with three
    quotes. *)
Lemma escaped_triple_start (x y : str) :
  replace TRIPLE (BSL :: TRIPLE) x <> TRIPLE ++ y.
Proof.
  assert (S1 : forall z : str, starts_dq (replace TRIPLE (BSL :: TRIPLE) z) = true ->
                 strip_prefix TRIPLE z = None
                 /\ exists r, z = DQ :: r
                    /\ replace TRIPLE (BSL :: TRIPLE) z = DQ :: replace TRIPLE (BSL :: TRIPLE) r).
  { intros z H. destruct z as [|c r]; [discriminate H|].
    rewrite replace_unfold in H |- * by discriminate.
    destruct (strip_prefix TRIPLE (c :: r)) as [rest|]; [discriminate H|].
    split; [reflexivity|]. cbn [starts_dq] in H. unfold is_dq in H.
    apply Ascii.eqb_eq in H. subst c. eauto. }
  intros E.
  destruct (S1 x) as (N1 & r1 & -> & E1); [now rewrite E|].
  rewrite E1 in E. injection E as E.
  destruct (S1 r1) as (N2 & r2 & -> & E2); [now rewrite E|].
  rewrite E2 in E. injection E as E.
  destruct (S1 r2) as (N3 & r3 & -> & E3); [now rewrite E|].
  discriminate N1.
Qed.

Lemma escape_triple_injective (n : nat) :
  forall a b : str,
    length a <= n ->
    replace TRIPLE (BSL :: TRIPLE) a = replace TRIPLE (BSL :: TRIPLE) b -> a = b.
Proof.
  induction n as [|n IH]; intros a b Hn E.
  - destruct a; [|simpl in Hn; lia]. destruct b as [|c r]; [reflexivity|].
    rewrite replace_nil, replace_unfold in E by discriminate.
    destruct (strip_prefix TRIPLE (c :: r)); discriminate E.
  - destruct a as [|x a].
    + destruct b as [|c r]; [reflexivity|].
      rewrite replace_nil, replace_unfold in E by discriminate.
      destruct (strip_prefix TRIPLE (c :: r)); discriminate E.
    + destruct b as [|y b].
      * rewrite replace_nil, replace_unfold in E by discriminate.
        destruct (strip_prefix TRIPLE (x :: a)); discriminate E.
      * simpl in Hn.
        rewrite (replace_unfold _ _ x), (replace_unfold _ _ y) in E by discriminate.
        destruct (strip_prefix TRIPLE (x :: a)) as [ra|] eqn:Pa;
          destruct (strip_prefix TRIPLE (y :: b)) as [rb|] eqn:Pb.
        -- pose proof (strip_prefix_length _ _ _ Pa) as La. simpl in La.
           apply strip_prefix_app in Pa, Pb. rewrite Pa, Pb.
           apply app_inv_head in E. f_equal. apply IH; [lia|exact E].
        -- injection E as <- E. symmetry in E. now apply escaped_triple_start in E.
        -- injection E as -> E. now apply escaped_triple_start in E.
        -- injection E as -> E. f_equal. apply IH; [lia|exact E].
Qed.

Section Triple.

Variable float_repr : spec_float -> str.

(** X11: Two texts that differ give different literals: the text can be read
    back from what [_triple] returns.  (For [None] it returns what it
    returns for the empty text.) *)
Theorem triple_literal_injective (a b : str) (blank_line : bool) :
  Cli._triple float_repr (VStr a) blank_line = Cli._triple float_repr (VStr b) blank_line ->
  a = b.
Proof.
  unfold Cli._triple. cbn [py_str]. intros E.
  apply (escape_triple_injective (length a) a b (le_n _)).
  destruct blank_line.
  - apply app_inv_head in E. apply app_inv_head in E.
    rewrite !app_assoc in E. apply app_inv_tail in E. now apply app_inv_tail in E.
  - apply app_inv_head in E. now apply app_inv_tail in E.
Qed.

End Triple.

Lemma triple_literal_injective_witness :
  Cli._triple Calm.float_repr (VStr (lit "ok")) true
  = Cli._triple Calm.float_repr (VStr (lit "ok")) true
  /\ lit "ok" = lit "ok".
Proof.
  split; [reflexivity|].
  apply (triple_literal_injective Calm.float_repr (lit "ok") (lit "ok") true). reflexivity.
Defined.

(** ** [_resolve_user_ref] *)

Lemma strip_fixed (s : str) :
  match s with c :: _ => isspace c = false | [] => True end ->
  match rev s with c :: _ => isspace c = false | [] => True end ->
  strip s = s.
Proof. intros H1 H2. rewrite strip_as_chars. now apply strip_chars_fixed. Qed.

Lemma trimmed_ends (s : str) :
  s <> [] ->
  match s with c :: _ => isspace c = false | [] => True end ->
  match rev s with c :: _ => isspace c = false | [] => True end ->
  trimmed s.
Proof. intros Hne H1 H2. split; [exact Hne|now apply strip_fixed]. Qed.

Lemma strip_trimmed (s : str) : strip s <> [] -> trimmed (strip s).
Proof.
  intros H. rewrite strip_as_chars in *.
  destruct (strip_chars_ends isspace s). now apply trimmed_ends.
Qed.

Lemma prefix_trimmed (p v : str) :
  match p with c :: _ => isspace c = false | [] => False end ->
  trimmed v -> trimmed (p ++ v).
Proof.
  intros Hp [Hv Hs]. destruct p as [|c p]; [contradiction|].
  apply trimmed_ends; [discriminate|exact Hp|].
  rewrite rev_app_distr. pose proof (strip_chars_ends isspace v) as [_ H].
  rewrite <- strip_as_chars, Hs in H.
  destruct (rev v) as [|x t] eqn:R; [|exact H].
  apply (f_equal (@rev ascii)) in R. rewrite rev_involutive in R. contradiction.
Qed.

Section UserRef.

Variable float_repr : spec_float -> str.

(** X12: The reference [_resolve_user_ref] picks is never empty and never has
    whitespace at its ends, whatever the fields of the submission hold. *)
Theorem resolved_user_ref_is_trimmed (submission : dict) (ref : str) :
  Cli._resolve_user_ref float_repr submission = Some ref -> trimmed ref.
Proof.
  assert (St : forall v c r, strip (py_str float_repr v) = c :: r -> trimmed (c :: r)).
  { intros v c r E. rewrite <- E. apply strip_trimmed. rewrite E. discriminate. }
  unfold Cli._resolve_user_ref. cbn [fold_left]. intros H.
  repeat match type of H with
         | context [truthy ?v] => destruct (truthy v)
         | context [Cli.is_none ?v] => destruct (Cli.is_none v)
         | context [strip (py_str float_repr ?v)] =>
             let E := fresh "E" in destruct (strip (py_str float_repr v)) eqn:E
         end;
    try discriminate H; injection H as <-.
  all: first
         [ eapply St; eassumption
         | apply (prefix_trimmed (lit "sis_user_id:") (_ :: _));
           [reflexivity|eapply St; eassumption]
         | apply (prefix_trimmed (lit "sis_login_id:") (_ :: _));
           [reflexivity|eapply St; eassumption] ].
Qed.

End UserRef.

Lemma resolved_user_ref_is_trimmed_witness :
  trimmed (lit "sis_user_id:ab12").
Proof.
  apply (resolved_user_ref_is_trimmed Calm.float_repr
           [(lit "id", VInt 7); (lit "sis_id", VStr (lit " ab12 "))]).
  reflexivity.
Defined.

Lemma in_order_app (a b : list Cli.event) :
  forall prev,
    in_order prev a -> (forall q, in_order q b) -> in_order prev (a ++ b).
Proof.
  induction a as [|e a IH]; intros prev Ha Hb; [apply Hb|].
  cbn [app in_order] in Ha |- *. destruct Ha as [H1 H2]. split; [exact H1|now apply IH].
Qed.

Lemma progress_app (a b : list Cli.event) : progress (a ++ b) = progress a ++ progress b.
Proof. apply flat_map_app. Qed.

Section UploadRun.

Variable float_repr : spec_float -> str.
Variable markdown_html : str -> str.
Variable World : Type.
Variable lookup_user : str -> World -> result pyval * World.
Variable get_submission : pyval -> pyval -> World -> result dict * World.
Variable update_submission :
  pyval -> pyval -> pyval -> pyval -> pyval -> World -> result unit * World.
Variable add_comment : pyval -> pyval -> str -> pyval -> World -> result unit * World.

Local Abbreviation upload_one :=
  (Cli.upload_one float_repr markdown_html World lookup_user get_submission
     update_submission add_comment).

Local Abbreviation cmd_upload :=
  (Cli.cmd_upload float_repr markdown_html World lookup_user get_submission
     update_submission add_comment).

Local Ltac order_ok :=
  intros ?; cbn [in_order]; repeat split; try discriminate; auto.

Local Ltac now_quiet := cbn [fst snd in_order app]; repeat split.

Local Ltac quiet_pass :=
  split; [reflexivity|]; split; [order_ok|]; left; split; reflexivity.

(** One pass of the loop appends to the events: nothing, a failure
    message, or the backup, the update call, perhaps the comment call
    and a warning, and then a failure or the progress message with the
    next number. *)
Lemma upload_one_events (assignment_id : pyval) (valid_count : nat) (submission : dict)
    (st : Cli.run World) :
  exists suffix,
    Cli.events World (upload_one assignment_id valid_count submission st)
    = Cli.events World st ++ suffix
    /\ (forall q, in_order q suffix)
    /\ ((Cli.processed World (upload_one assignment_id valid_count submission st)
         = Cli.processed World st /\ progress suffix = [])
        \/ (Cli.processed World (upload_one assignment_id valid_count submission st)
            = S (Cli.processed World st)
            /\ progress suffix = [(S (Cli.processed World st), valid_count)])).
Proof.
  unfold Cli.upload_one.
  destruct (Cli._resolve_user_ref float_repr submission) as [user_ref|];
    [|exists []; rewrite app_nil_r; quiet_pass].
  destruct (Cli.is_none (get submission (lit "score"))
            && Cli.is_none (get_default submission (lit "comment")
                              (get submission (lit "comments"))));
    [exists []; rewrite app_nil_r; quiet_pass|].
  set (comment := get_default submission (lit "comment") (get submission (lit "comments"))).
  assert (R : exists st1 r,
             match lookup (Cli.resolved_cache World st) user_ref with
             | Some v => (Ok v, st)
             | None =>
                 let '(r, w) := Cli.resolve_canvas_user_id World lookup_user user_ref
                                  (Cli.world World st) in
                 match r with
                 | Ok v =>
                     (Ok (por v (VStr user_ref)),
                      {| Cli.processed := Cli.processed World st;
                         Cli.resolved_cache :=
                           Cli.resolved_cache World st ++ [(user_ref, por v (VStr user_ref))];
                         Cli.world := w; Cli.events := Cli.events World st |})
                 | Raise e => (Raise e, Cli.with_world World st w)
                 end
             end = (r, st1)
             /\ Cli.events World st1 = Cli.events World st /\ Cli.processed World st1 = Cli.processed World st).
  { destruct (lookup (Cli.resolved_cache World st) user_ref); [eauto|].
    destruct (Cli.resolve_canvas_user_id World lookup_user user_ref (Cli.world World st))
      as [[v|e] w]; eauto. }
  destruct R as (st1 & r & -> & Ev & Pr).
  destruct r as [uid|e].
  2:{ exists [Cli.Print (Cli.MsgFailed user_ref e)]. cbn [Cli.log Cli.with_world Cli.events Cli.processed].
      rewrite Ev, Pr. quiet_pass. }
  destruct (get_submission assignment_id uid (Cli.world World st1)) as [[previous|e] w1].
  2:{ exists [Cli.Print (Cli.MsgFailed user_ref e)]. cbn [Cli.log Cli.with_world Cli.events Cli.processed].
      rewrite Ev, Pr. quiet_pass. }
  set (comment_text :=
         Cli._markdown_to_html float_repr markdown_html
           match comment with
           | VNone => VNone
           | _ => VStr (rstrip (py_str float_repr comment))
           end).
  cbn [Cli.log Cli.with_world Cli.world Cli.events Cli.processed Cli.resolved_cache].
  destruct (update_submission assignment_id uid (get submission (lit "score")) comment_text
              (get previous (lit "attempt")) w1) as [[[]|e] w2].
  2:{ eexists. cbn. rewrite Ev, Pr, <- !app_assoc. split; [reflexivity|].
      split; [order_ok|]. left. auto. }
  destruct comment_text as [| | | |text] eqn:CT;
    try (eexists; cbn; rewrite Ev, Pr, <- !app_assoc; split; [reflexivity|];
         split; [order_ok|]; right; split; reflexivity).
  all: cbn [Cli.log Cli.with_world Cli.world Cli.events Cli.processed Cli.resolved_cache].
  all: match goal with
       | |- context [add_comment ?a ?b ?c ?d ?w] =>
           destruct (add_comment a b c d w) as [[[]|e] w3]
       end.
  all: eexists; cbn; rewrite Ev, Pr, <- !app_assoc; split; [reflexivity|];
    split; [order_ok|]; right; split; reflexivity.
Qed.

(** The invariant of the loop. *)
Lemma upload_loop_events (assignment_id : pyval) (valid_count : nat)
    (submissions : list dict) :
  forall st : Cli.run World,
    in_order None (Cli.events World st) ->
    progress (Cli.events World st)
    = map (fun k => (k, valid_count)) (seq 1 (Cli.processed World st)) ->
    let st' := fold_left (fun st sub => upload_one assignment_id valid_count sub st)
                 submissions st in
    in_order None (Cli.events World st')
    /\ progress (Cli.events World st')
       = map (fun k => (k, valid_count)) (seq 1 (Cli.processed World st')).
Proof.
  induction submissions as [|sub rest IH]; intros st Ho Hp; [auto|].
  cbn [fold_left]. apply IH.
  - destruct (upload_one_events assignment_id valid_count sub st) as (sfx & -> & Hs & _).
    now apply in_order_app.
  - destruct (upload_one_events assignment_id valid_count sub st)
      as (sfx & -> & _ & [[-> Hs]|[-> Hs]]); rewrite progress_app, Hp, Hs.
    + now rewrite app_nil_r.
    + rewrite seq_S, map_app. reflexivity.
Qed.

(** X13: Whatever the remote service answers and whatever the file holds, an
    update call is sent only straight after the previous state of the
    submission it sends went to the backup, and a comment call only
    straight after the update call for the same assignment, user and
    attempt, which had a comment. *)
Theorem every_update_follows_its_backup (course_loaded input_is_file : bool)
    (loaded : result Cli.toml_doc) (answer : str) (w : World) :
  in_order None (snd (fst (cmd_upload course_loaded input_is_file loaded answer w))).
Proof.
  unfold Cli.cmd_upload.
  destruct course_loaded; [|now_quiet]. destruct input_is_file; [|now_quiet].
  cbn [negb]. destruct loaded as [data|e]; [|now_quiet].
  destruct (Cli.is_none (get (Cli.top data) (lit "assignment_id"))); [now_quiet|].
  destruct (Cli.submission data) as [|s0 rest] eqn:Es; [now_quiet|].
  destruct (Cli._count_valid_submissions (s0 :: rest) =? 0); [now_quiet|].
  match goal with |- context [if ?c then _ else _] => destruct c end; [now_quiet|].
  cbn [fst snd].
  match goal with
  | |- context [fold_left ?f ?l ?st] =>
      destruct (upload_loop_events (get (Cli.top data) (lit "assignment_id"))
                  (Cli._count_valid_submissions (s0 :: rest)) l st) as [H _];
        [now_quiet|reflexivity|]
  end.
  apply in_order_app; [exact H|]. intros q. now_quiet.
Qed.

(** X14: The progress messages are numbered 1, 2, 3, ... without a gap, and
    each shows the count of [_count_valid_submissions] as the total. *)
Theorem progress_messages_count_up (course_loaded input_is_file : bool)
    (data : Cli.toml_doc) (answer : str) (w : World) :
  let es := snd (fst (cmd_upload course_loaded input_is_file (Ok data) answer w)) in
  progress es
  = map (fun k => (k, Cli._count_valid_submissions (Cli.submission data)))
      (seq 1 (length (progress es))).
Proof.
  unfold Cli.cmd_upload.
  destruct course_loaded; [|reflexivity]. destruct input_is_file; [|reflexivity].
  cbn [negb].
  destruct (Cli.is_none (get (Cli.top data) (lit "assignment_id"))); [reflexivity|].
  destruct (Cli.submission data) as [|s0 rest] eqn:Es; [reflexivity|].
  destruct (Cli._count_valid_submissions (s0 :: rest) =? 0); [reflexivity|].
  match goal with |- context [if ?c then _ else _] => destruct c end; [reflexivity|].
  cbn [fst snd].
  match goal with
  | |- context [fold_left ?f ?l ?st] =>
      destruct (upload_loop_events (get (Cli.top data) (lit "assignment_id"))
                  (Cli._count_valid_submissions (s0 :: rest)) l st) as [_ H];
        [now_quiet|reflexivity|]
  end.
  cbv zeta. rewrite progress_app, H. cbn [progress flat_map app]. rewrite app_nil_r.
  now rewrite length_map, length_seq.
Qed.

(** X15: Nothing is sent and nothing is written unless the user answers [y] or
    [yes] (in any case, with any whitespace around it): the remote
    service is left as it was, and the only events are messages and the
    prompt. *)
Theorem upload_needs_consent (course_loaded input_is_file : bool)
    (loaded : result Cli.toml_doc) (answer : str) (w : World) :
  str_eqb (lower (strip answer)) (lit "y") || str_eqb (lower (strip answer)) (lit "yes")
  = false ->
  let run := cmd_upload course_loaded input_is_file loaded answer w in
  snd run = w /\ forallb is_talk (snd (fst run)) = true.
Proof.
  intros Hno. unfold Cli.cmd_upload.
  destruct course_loaded; [|split; reflexivity].
  destruct input_is_file; [|split; reflexivity].
  cbn [negb]. destruct loaded as [data|e]; [|split; reflexivity].
  destruct (Cli.is_none (get (Cli.top data) (lit "assignment_id"))); [split; reflexivity|].
  destruct (Cli.submission data) as [|s0 rest]; [split; reflexivity|].
  destruct (Cli._count_valid_submissions (s0 :: rest) =? 0); [split; reflexivity|].
  rewrite Hno. split; reflexivity.
Qed.

End UploadRun.

Lemma upload_needs_consent_witness :
  let run :=
    Calm.cmd_upload true true
      (Ok {| Cli.top := [(lit "assignment_id", VInt 7)];
             Cli.submission := [[(lit "id", VInt 22); (lit "score", VInt 8)]] |})
      (lit " No ") tt in
  snd run = tt /\ forallb is_talk (snd (fst run)) = true.
Proof.
  apply (upload_needs_consent Calm.float_repr Calm.markdown_html unit Calm.lookup_user
           Calm.get_submission Calm.update_submission Calm.add_comment).
  reflexivity.
Defined.

(** ** The report poller *)

Lemma has_file_url (rep : Poller.report) (file_info : dict) :
  Poller._has_file rep = Some file_info -> truthy (get file_info (lit "url")) = true.
Proof.
  unfold Poller._has_file. destruct (Poller.rep_file rep) as [fi|]; [|discriminate].
  destruct (truthy (get fi (lit "url"))) eqn:T; [|discriminate].
  intros H. injection H as <-. exact T.
Qed.

Lemma poll_loop_settled (env : Poller.script) (report_id : pyval) (start_time timeout : Z) :
  forall (clock : list Z) (polls : list (result Poller.report)) (n : nat),
    settled env (n + Nat.min (length clock) (length polls))
      (Poller.poll_loop env report_id start_time timeout clock polls n).
Proof.
  assert (Stop : forall o n b, n <= b -> (forall c, o <> Some (Ok c)) ->
                   settled env b
                     {| Poller.outcome := o; Poller.poll_requests := n; Poller.fetched := [] |}).
  { intros o n b Hb Ho. split; [exact Hb|]. left. auto. }
  induction clock as [|now clock IH]; intros polls n.
  - cbn [Poller.poll_loop]. apply Stop; [lia|discriminate].
  - cbn [Poller.poll_loop].
    destruct (timeout <? now - start_time)%Z; [apply Stop; [lia|discriminate]|].
    destruct (negb (truthy report_id)); [apply Stop; [lia|discriminate]|].
    destruct polls as [|[rep|e] polls]; [apply Stop; [lia|discriminate]| |].
    + destruct (Poller._has_file rep) as [fi|] eqn:F.
      * split; [cbn; lia|]. right. exists (get fi (lit "url")).
        split; [reflexivity|]. split; [now apply (has_file_url rep)|reflexivity].
      * specialize (IH polls (S n)). cbn [length].
        replace (n + Nat.min (S (length clock)) (S (length polls)))
          with (S n + Nat.min (length clock) (length polls)) by lia.
        exact IH.
    + apply Stop; [cbn [length]; lia|discriminate].
Qed.

(** However the call up to the download ends, it is settled. *)
Lemma poller_run_settled (quiz_id : pyval) (configured : bool) (timeout : Z)
    (env : Poller.script) :
  settled env (Nat.min (length (Poller.clock env)) (length (Poller.polls env)))
    (Poller.download_quiz_student_analysis quiz_id configured timeout env).
Proof.
  assert (Stop : forall e,
             settled env (Nat.min (length (Poller.clock env)) (length (Poller.polls env)))
               {| Poller.outcome := Some (Raise e); Poller.poll_requests := 0;
                  Poller.fetched := [] |}).
  { intros e. split; [cbn; lia|]. left. split; [reflexivity|discriminate]. }
  unfold Poller.download_quiz_student_analysis.
  destruct (Poller.is_none_quiz quiz_id); [apply Stop|].
  destruct (negb configured); [apply Stop|].
  destruct (Poller.created env) as [rep|e]; [|apply Stop].
  destruct (Poller._has_file rep) as [fi|] eqn:F.
  - split; [cbn; lia|]. right. exists (get fi (lit "url")).
    split; [reflexivity|]. split; [now apply (has_file_url rep)|reflexivity].
  - apply (poll_loop_settled env _ _ _ (Poller.clock env) (Poller.polls env) 0).
Qed.

Section AnalysisFacts.

Variable decode : str -> option str.

(** X16: However the call ends, with [raw] set or not: it sent no more polling
    requests than the service answered and than it read the clock; it
    fetched at most one URL, a non-empty one taken from a report;
    without a fetch it returns nothing; and after the fetch it ends with
    the error of the fetch, or returns the bytes fetched when [raw] is
    set, or ends as [parse_quiz_csv] does on these bytes when [raw] is
    not set. *)
Theorem poller_fetches_at_most_once (raw : bool) (quiz_id : pyval) (configured : bool)
    (timeout : Z) (env : Poller.script) :
  let t := Analysis.download_quiz_student_analysis decode raw quiz_id configured timeout
             env in
  Analysis.poll_requests t
  <= Nat.min (length (Poller.clock env)) (length (Poller.polls env))
  /\ (Analysis.fetched t = []
      /\ (forall v, Analysis.ended t = Some v -> exists e, v = Analysis.Failed e)
      \/ exists u,
           Analysis.fetched t = [u] /\ truthy u = true
           /\ Analysis.ended t
              = Some match Poller.download env u with
                     | Raise e => Analysis.Failed e
                     | Ok content =>
                         if raw then Analysis.Content content
                         else match decode content with
                              | None => Analysis.UndecodableBytes
                              | Some text => Analysis.FromCsv (parse_quiz_csv_of_text text)
                              end
                     end).
Proof.
  cbv zeta. unfold Analysis.download_quiz_student_analysis.
  cbn [Analysis.poll_requests Analysis.fetched Analysis.ended].
  destruct (poller_run_settled quiz_id configured timeout env) as [Hn [[Hf Ho]|(u & Hf & Hu & Ho)]].
  - split; [exact Hn|]. left. split; [exact Hf|].
    destruct (Poller.outcome
                (Poller.download_quiz_student_analysis quiz_id configured timeout env))
      as [[content|e]|]; intros v Hv.
    + now destruct (Ho content).
    + injection Hv as <-. eauto.
    + discriminate Hv.
  - split; [exact Hn|]. right. exists u. split; [exact Hf|]. split; [exact Hu|].
    rewrite Ho. destruct (Poller.download env u); reflexivity.
Qed.

End AnalysisFacts.

Lemma split_on_from_none (sep : ascii) (a : str) :
  forall cur, contains sep a = false -> split_on_from sep cur a = [cur ++ a].
Proof.
  induction a as [|c a IH]; intros cur H; cbn [split_on_from].
  - now rewrite app_nil_r.
  - cbn [contains existsb] in H. apply orb_false_iff in H as [Hc Ha].
    rewrite Ascii.eqb_sym, Hc, (IH _ Ha), <- app_assoc. reflexivity.
Qed.

Lemma split_on_from_app (sep : ascii) (a b : str) :
  forall cur,
    contains sep a = false ->
    split_on_from sep cur (a ++ sep :: b) = (cur ++ a) :: split_on_from sep [] b.
Proof.
  induction a as [|c a IH]; intros cur H; cbn [app split_on_from].
  - now rewrite Ascii.eqb_refl, app_nil_r.
  - cbn [contains existsb] in H. apply orb_false_iff in H as [Hc Ha].
    rewrite Ascii.eqb_sym, Hc, (IH _ Ha), <- app_assoc. reflexivity.
Qed.

(** Joining and splitting again gives the parts back. *)
Lemma split_on_join (sep : ascii) (parts : list str) :
  parts <> [] ->
  Forall (fun p : str => contains sep p = false) parts ->
  split_on sep (join [sep] parts) = parts.
Proof.
  intros Hne H. unfold split_on. induction H as [|p rest Hp Hrest IH]; [contradiction|].
  destruct rest as [|q rest].
  - cbn [join]. now rewrite split_on_from_none.
  - change (join [sep] (p :: q :: rest)) with (p ++ sep :: join [sep] (q :: rest)).
    rewrite split_on_from_app by exact Hp. cbn [app]. f_equal.
    apply IH. discriminate.
Qed.

Lemma link_value_no_comma (url rel : str) :
  contains COMMA url = false -> contains COMMA rel = false ->
  contains COMMA (link_value url rel) = false.
Proof.
  intros Hu Hr. unfold link_value. rewrite !contains_app, Hu, Hr. reflexivity.
Qed.

Lemma unquote_rel (rel : str) :
  contains DQ rel = false ->
  strip_chars (Ascii.eqb DQ) (strip (DQ :: rel ++ [DQ])) = rel.
Proof.
  intros H.
  rewrite strip_fixed; [|reflexivity|rewrite app_comm_cons, rev_app_distr; reflexivity].
  unfold strip_chars, rstrip_chars. cbn [lstrip_chars]. rewrite Ascii.eqb_refl.
  destruct rel as [|c r].
  - reflexivity.
  - cbn [contains existsb] in H. apply orb_false_iff in H as [Hc Hr].
    cbn [app lstrip_chars]. rewrite Hc.
    change (c :: r ++ [DQ]) with ((c :: r) ++ [DQ]). rewrite rev_app_distr.
    cbn [rev app lstrip_chars]. rewrite Ascii.eqb_refl.
    rewrite lstrip_chars_fixed; [now rewrite rev_app_distr, rev_involutive|].
    destruct (rev r ++ [c]) as [|x t] eqn:E; [exact I|].
    assert (Hin : In x (c :: r)).
    { apply in_rev. cbn [rev]. rewrite E. now left. }
    destruct (Ascii.eqb_spec DQ x) as [<-|]; [|reflexivity].
    destruct Hin as [->|Hin]; [now rewrite Ascii.eqb_refl in Hc|].
    unfold contains in Hr. rewrite <- not_true_iff_false in Hr. exfalso. apply Hr.
    apply existsb_exists. exists DQ. split; [exact Hin|apply Ascii.eqb_refl].
Qed.

(** What [next_among] reads in one link. *)
Lemma next_among_link (url rel : str) (rest : list str) :
  contains SEMICOLON url = false -> contains SEMICOLON rel = false ->
  contains DQ rel = false ->
  next_among (link_value url rel :: rest)
  = if str_eqb rel (lit "next") then Ok (Some url) else next_among rest.
Proof.
  intros Hu Hr Hq. cbn [next_among].
  rewrite (strip_fixed (link_value url rel));
    [|reflexivity|unfold link_value; rewrite !app_assoc, rev_app_distr; reflexivity].
  assert (S : split_on SEMICOLON (link_value url rel)
              = [[chr 60] ++ url ++ [chr 62]; lit " rel=" ++ [DQ] ++ rel ++ [DQ]]).
  { assert (E : link_value url rel
                = ([chr 60] ++ url ++ [chr 62])
                  ++ SEMICOLON :: (lit " rel=" ++ [DQ] ++ rel ++ [DQ])).
    { unfold link_value. rewrite <- !app_assoc. reflexivity. }
    rewrite E. unfold split_on. rewrite split_on_from_app.
    - rewrite split_on_from_none; [reflexivity|].
      rewrite !contains_app, Hr. reflexivity.
    - rewrite !contains_app, Hu. reflexivity. }
  rewrite S.
  assert (U : slice_1_m1 (strip ([chr 60] ++ url ++ [chr 62])) = url).
  { rewrite strip_fixed; [|reflexivity|rewrite !app_assoc, rev_app_distr; reflexivity].
    unfold slice_1_m1. cbn [app tl]. apply removelast_last. }
  rewrite U. cbn [rel_of].
  replace (has_substring (lit "rel=") (lit " rel=" ++ [DQ] ++ rel ++ [DQ])) with true
    by reflexivity.
  replace (split1 EQUALS (lit " rel=" ++ [DQ] ++ rel ++ [DQ]))
    with (Some (lit " rel", DQ :: rel ++ [DQ])) by reflexivity.
  rewrite (unquote_rel rel Hq). cbn [bind]. reflexivity.
Qed.

Lemma next_among_links (links : list (str * str)) :
  forallb link_ok links = true ->
  next_among (map (fun l => link_value (fst l) (snd l)) links)
  = Ok (option_map fst (find (fun l => str_eqb (snd l) (lit "next")) links)).
Proof.
  induction links as [|[url rel] rest IH]; intros H; [reflexivity|].
  cbn [forallb] in H. apply andb_prop in H as [Hl Hrest].
  unfold link_ok in Hl. cbn [fst snd] in Hl.
  repeat match type of Hl with
         | (_ && _) = true => apply andb_prop in Hl as [Hl ?]
         end.
  repeat match goal with H : negb _ = true |- _ => apply negb_true_iff in H end.
  cbn [map fst snd find]. rewrite next_among_link by assumption.
  destruct (str_eqb rel (lit "next")); [reflexivity|]. now apply IH.
Qed.

(** X17: For a [Link] header as the service writes it, [_next_link] returns the
    URL of the first link whose relation is [next], and [None] when there
    is none. *)
Theorem next_link_finds_the_next_url (links : list (str * str)) :
  forallb link_ok links = true ->
  _next_link (Some (link_header_of links))
  = Ok (option_map fst (find (fun l => str_eqb (snd l) (lit "next")) links)).
Proof.
  intros H. destruct links as [|l rest]; [reflexivity|].
  unfold _next_link.
  assert (Hne : link_header_of (l :: rest) <> []).
  { unfold link_header_of. cbn [map join]. destruct (map _ rest); discriminate. }
  destruct (link_header_of (l :: rest)) as [|c r] eqn:E; [contradiction|].
  rewrite <- E. unfold link_header_of. rewrite split_on_join.
  - now apply next_among_links.
  - discriminate.
  - apply Forall_map. apply Forall_forall. intros [url rel] Hin.
    rewrite forallb_forall in H. specialize (H _ Hin). unfold link_ok in H.
    cbn [fst snd] in H |- *.
    repeat match type of H with
           | (_ && _) = true => apply andb_prop in H as [H ?]
           end.
    repeat match goal with H : negb _ = true |- _ => apply negb_true_iff in H end.
    now apply link_value_no_comma.
Qed.

Lemma next_link_finds_the_next_url_witness :
  _next_link
    (Some (link_header_of [(lit "https://x/api?page=1", lit "current");
                           (lit "https://x/api?page=2", lit "next");
                           (lit "https://x/api?page=9", lit "last")]))
  = Ok (Some (lit "https://x/api?page=2")).
Proof.
  apply (next_link_finds_the_next_url
           [(lit "https://x/api?page=1", lit "current");
            (lit "https://x/api?page=2", lit "next");
            (lit "https://x/api?page=9", lit "last")]).
  reflexivity.
Defined.

Lemma strip_prefix_some (p : str) :
  forall s rest, strip_prefix p s = Some rest -> s = p ++ rest.
Proof.
  induction p as [|a p IH]; intros s rest H; [now injection H as ->|].
  destruct s as [|b s]; [discriminate H|]. cbn [strip_prefix] in H.
  destruct (Ascii.eqb_spec a b) as [->|]; [|discriminate H].
  cbn [app]. f_equal. now apply IH.
Qed.

Lemma has_rel_has_equals (p : str) :
  has_substring (lit "rel=") p = true -> contains EQUALS p = true.
Proof.
  induction p as [|c p IH]; [discriminate|].
  cbn [has_substring]. intros H. apply orb_prop in H as [H|H].
  - unfold startswith in H.
    destruct (strip_prefix (lit "rel=") (c :: p)) as [rest|] eqn:E; [|discriminate H].
    apply strip_prefix_some in E. rewrite E. reflexivity.
  - cbn [contains existsb]. fold (contains EQUALS p). rewrite (IH H). apply orb_true_r.
Qed.

Lemma rel_of_never_raises (params : list str) :
  forall rel, exists r, rel_of params rel = Ok r.
Proof.
  induction params as [|p rest IH]; intros rel; [now exists rel|].
  cbn [rel_of]. destruct (has_substring (lit "rel=") p) eqn:H; [|apply IH].
  apply has_rel_has_equals in H.
  destruct (split1 EQUALS p) as [[a v]|] eqn:E; [apply IH|].
  apply split1_is_none in E. congruence.
Qed.

Lemma next_among_never_raises (parts : list str) : exists r, next_among parts = Ok r.
Proof.
  induction parts as [|part rest IH]; [now exists None|].
  cbn [next_among]. destruct (split_on SEMICOLON (strip part)) as [|url_part [|p1 ps]];
    [exact IH|exact IH|].
  destruct (rel_of_never_raises (p1 :: ps) None) as (rel & ->). cbn [bind].
  destruct rel as [r|]; [|exact IH].
  destruct (str_eqb r (lit "next")); [eauto|exact IH].
Qed.

(** X18: [_next_link] raises nothing, whatever the header holds: the index
    [[1]] into what [split("=", 1)] gives is read only for a parameter
    that contains [rel=], and the slice [[1:-1]] is defined for every
    text. *)
Theorem next_link_never_raises (link_header : option str) (e : exn) :
  _next_link link_header <> Raise e.
Proof.
  unfold _next_link. destruct link_header as [[|c h]|]; try discriminate.
  destruct (next_among_never_raises (split_on COMMA (c :: h))) as (r & ->). discriminate.
Qed.

Lemma paginate_from_chained (answers : list response) :
  forall (more : list response) (url : str) (first : bool) (results : list json)
         (sent : list (str * bool)),
    chained url answers ->
    paginate_from (answers ++ more) url first results sent
    = {| pages_result := Some (Ok (results ++ flat_map items_of answers));
         requests := sent ++ (url, first)
                       :: map (fun a => (next_of a, false)) (removelast answers) |}.
Proof.
  induction answers as [|a rest IH]; intros more url first results sent H; [contradiction|].
  destruct H as (Hurl & (body & link & items & next & -> & Hitems & Hnext) & Hrest).
  destruct url as [|c url]; [contradiction|].
  cbn [app paginate_from]. rewrite Hitems, Hnext.
  unfold next_of in Hrest. rewrite Hnext in Hrest.
  destruct rest as [|b rest].
  - cbn [flat_map items_of removelast map app]. rewrite Hitems, app_nil_r.
    destruct next as [u|]; [subst u|]; destruct more; reflexivity.
  - rewrite (IH more _ false _ _ Hrest).
    cbn [flat_map items_of]. rewrite Hitems.
    change (removelast (Ok (body, link) :: b :: rest))
      with (Ok (body, link) :: removelast (b :: rest)).
    cbn [map next_of]. rewrite Hnext.
    rewrite <- !app_assoc. destruct next as [u|]; reflexivity.
Qed.

(** X19: Pages that follow one another are fetched one request each, the
    parameters going with the first request only, and the result is the
    items of the pages in order; answers that the service would give
    after the last page are not asked for. *)
Theorem paginate_collects_the_pages (answers more : list response) (url : str) :
  chained url answers ->
  _paginate (answers ++ more) url
  = {| pages_result := Some (Ok (flat_map items_of answers));
       requests := (url, true)
                     :: map (fun a => (next_of a, false)) (removelast answers) |}.
Proof.
  intros H. unfold _paginate. now rewrite (paginate_from_chained answers more url true [] []).
Qed.

Lemma paginate_collects_the_pages_witness :
  let page1 : response :=
    Ok (JArray [JValue (VInt 1); JValue (VInt 2)],
        Some (link_header_of [(lit "https://x/api?page=2", lit "next")])) in
  let page2 : response := Ok (JArray [JValue (VInt 3)], None) in
  _paginate ([page1; page2] ++ [Raise HTTPError]) (lit "https://x/api")
  = {| pages_result := Some (Ok [JValue (VInt 1); JValue (VInt 2); JValue (VInt 3)]);
       requests := [(lit "https://x/api", true); (lit "https://x/api?page=2", false)] |}.
Proof.
  intros page1 page2.
  apply (paginate_collects_the_pages [page1; page2] [Raise HTTPError] (lit "https://x/api")).
  split; [discriminate|]. split.
  - eexists _, _, _, _. split; [reflexivity|]. split; reflexivity.
  - split; [discriminate|]. split; [|reflexivity].
    eexists _, _, _, _. split; [reflexivity|]. split; reflexivity.
Defined.

Lemma paginate_from_cycle (body : json) (link : option str) (items : list json)
    (next : str) (n : nat) :
  page_items body = Ok items ->
  _next_link link = Ok (Some next) ->
  next <> [] ->
  forall (url : str) (first : bool) (results : list json) (sent : list (str * bool)),
    url <> [] ->
    paginate_from (repeat (Ok (body, link)) n) url first results sent
    = {| pages_result := None;
         requests := sent ++ (url, first) :: repeat (next, false) n |}.
Proof.
  intros Hb Hl Hn. induction n as [|n IH]; intros url first results sent Hu.
  - destruct url; [contradiction|]. reflexivity.
  - destruct url as [|c url]; [contradiction|].
    cbn [repeat paginate_from]. rewrite Hb, Hl.
    rewrite (IH next false _ _ Hn). now rewrite <- app_assoc.
Qed.

(** X20: [_paginate] has no bound on the number of requests and no guard
    against a cycle: when every page names one and the same next page,
    the call has sent a request more than it has answers, whatever the
    number of the answers, and has not returned. *)
Theorem paginate_follows_a_cycle (body : json) (link : option str) (items : list json)
    (next url : str) (n : nat) :
  page_items body = Ok items ->
  _next_link link = Ok (Some next) ->
  next <> [] ->
  url <> [] ->
  _paginate (repeat (Ok (body, link)) n) url
  = {| pages_result := None; requests := (url, true) :: repeat (next, false) n |}.
Proof.
  intros Hb Hl Hn Hu. unfold _paginate.
  now rewrite (paginate_from_cycle body link items next n Hb Hl Hn url true [] [] Hu).
Qed.

Lemma paginate_follows_a_cycle_witness :
  let link := Some (link_header_of [(lit "https://x/api?page=2", lit "next")]) in
  _paginate (repeat (Ok (JArray [JValue (VInt 1)], link)) 3) (lit "https://x/api")
  = {| pages_result := None;
       requests := (lit "https://x/api", true)
                     :: repeat (lit "https://x/api?page=2", false) 3 |}.
Proof.
  intros link.
  apply (paginate_follows_a_cycle (JArray [JValue (VInt 1)]) link [JValue (VInt 1)]
           (lit "https://x/api?page=2") (lit "https://x/api") 3);
    try reflexivity; discriminate.
Defined.

Lemma quote_char_chars (c : ascii) : forallb is_quoted_char (quote_char [] c) = true.
Proof. destruct c as [[] [] [] [] [] [] [] []]; vm_compute; reflexivity. Qed.

Lemma quote_chars (s : str) : forallb is_quoted_char (quote [] s) = true.
Proof.
  induction s as [|c r IH]; [reflexivity|].
  unfold quote in *. cbn [flat_map]. now rewrite forallb_app, quote_char_chars, IH.
Qed.

Lemma quote_no_slash (s : str) : contains SLASH (quote [] s) = false.
Proof.
  pose proof (quote_chars s) as H. induction (quote [] s) as [|c r IH]; [reflexivity|].
  cbn [forallb] in H. apply andb_prop in H as [Hc Hr].
  cbn [contains existsb]. fold (contains SLASH r). rewrite (IH Hr), orb_false_r.
  destruct (Ascii.eqb_spec SLASH c) as [<-|]; [discriminate Hc|reflexivity].
Qed.

Lemma unquote_quote_char (c : ascii) (rest : str) :
  unquote_char (quote_char [] c ++ rest) = Some (c, rest).
Proof. destruct c as [[] [] [] [] [] [] [] []]; reflexivity. Qed.

Lemma quote_injective (a : str) : forall b : str, quote [] a = quote [] b -> a = b.
Proof.
  induction a as [|x a IH]; intros b E.
  - destruct b as [|y b]; [reflexivity|]. exfalso.
    unfold quote in E. cbn [flat_map] in E.
    pose proof (unquote_quote_char y (flat_map (quote_char []) b)) as U.
    rewrite <- E in U. discriminate U.
  - destruct b as [|y b].
    + exfalso. unfold quote in E. cbn [flat_map] in E.
      pose proof (unquote_quote_char x (flat_map (quote_char []) a)) as U.
      rewrite E in U. discriminate U.
    + unfold quote in E. cbn [flat_map] in E.
      pose proof (unquote_quote_char x (flat_map (quote_char []) a)) as Ux.
      pose proof (unquote_quote_char y (flat_map (quote_char []) b)) as Uy.
      rewrite E, Uy in Ux. injection Ux as -> Er. f_equal. apply IH. symmetry. exact Er.
Qed.

Section UrlFacts.

Variable float_repr : spec_float -> str.

(** X21: The two ids go into the URL of a submission as path segments made of
    letters, digits, [_.-~] and percent escapes only: neither can add a
    path separator, a query or a fragment to the URL, and ids that differ
    (whitespace at their ends apart) give URLs that differ. *)
Theorem submission_url_segments (c : Course.course) (assignment_id user_id : pyval) :
  exists assignment user : str,
    Course._submission_url float_repr c assignment_id user_id
    = py_str float_repr (Course.base_url c) ++ lit "/api/v1/courses/"
      ++ py_str float_repr (Course.course_id c)
      ++ lit "/assignments/" ++ assignment ++ lit "/submissions/" ++ user
    /\ forallb is_quoted_char assignment = true
    /\ forallb is_quoted_char user = true
    /\ (forall other : pyval,
          Course._submission_url float_repr c assignment_id other
          = Course._submission_url float_repr c assignment_id user_id ->
          strip (py_str float_repr other) = strip (py_str float_repr user_id)).
Proof.
  exists (quote [] (strip (py_str float_repr assignment_id))),
         (quote [] (strip (py_str float_repr user_id))).
  split; [reflexivity|]. split; [apply quote_chars|]. split; [apply quote_chars|].
  intros other E. unfold Course._submission_url in E.
  repeat apply app_inv_head in E. now apply quote_injective.
Qed.

(** X22: [add_comment] posts to the comments of the URL that
    [update_submission] puts to exactly when neither id has whitespace
    at its ends: [_submission_url] strips the two ids before it quotes
    them, [add_comment] quotes them as they stand. *)
Theorem add_comment_url_agrees_iff_ids_trimmed (c : Course.course)
    (assignment_id user_id : pyval) :
  Course.add_comment_url float_repr c assignment_id user_id
  = Course._submission_url float_repr c assignment_id user_id ++ lit "/comments"
  <-> strip (py_str float_repr assignment_id) = py_str float_repr assignment_id
      /\ strip (py_str float_repr user_id) = py_str float_repr user_id.
Proof.
  unfold Course.add_comment_url, Course._submission_url. split.
  - intros E. rewrite <- !app_assoc in E. repeat apply app_inv_head in E.
    change (lit "/submissions/") with (SLASH :: lit "submissions/") in E.
    cbn [app] in E.
    apply first_occurrence_unique in E as [Ea Eu]; [|apply quote_no_slash ..].
    apply app_inv_head in Eu. apply app_inv_tail in Eu.
    apply quote_injective in Ea, Eu. now rewrite <- Ea, <- Eu.
  - intros [-> ->]. now rewrite <- !app_assoc.
Qed.

(** X23: The base URL that [Course.__init__] stores never ends in a slash, and
    slashes at the end of the URL given make no difference to the course
    that is built. *)
Theorem base_url_without_trailing_slash (config : option (result dict))
    (url : str) (course_id token : pyval) :
  (forall c s,
      Course.__init__ config (VStr url) course_id token = Ok c ->
      Course.base_url c = VStr s -> endswith [SLASH] s = false)
  /\ (forall k,
        Course.__init__ None (VStr (url ++ repeat SLASH k)) course_id token
        = Course.__init__ None (VStr url) course_id token).
Proof.
  assert (Ends : forall s : str, endswith [SLASH] (rstrip_chars (Ascii.eqb SLASH) s) = false).
  { intros s. unfold endswith, startswith, rstrip_chars. rewrite rev_involutive.
    pose proof (lstrip_chars_head (Ascii.eqb SLASH) (rev s)) as H.
    cbn [rev app strip_prefix].
    destruct (lstrip_chars (Ascii.eqb SLASH) (rev s)) as [|x t]; [reflexivity|].
    now rewrite H. }
  split.
  - intros c s H Hs. unfold Course.__init__ in H.
    destruct config as [[data|e]|]; cbn [bind] in H; try discriminate H.
    + set (b := get_default data (lit "base_url") (VStr url)) in *.
      destruct (truthy b) eqn:T.
      * destruct b as [| | | |u]; cbn [bind] in H; try discriminate H.
        injection H as <-. cbn [Course.base_url] in Hs. injection Hs as <-. apply Ends.
      * cbn [bind] in H. injection H as <-. cbn [Course.base_url] in Hs. rewrite Hs in T.
        destruct s; [reflexivity|discriminate T].
    + destruct (truthy (VStr url)) eqn:T; cbn [bind] in H; injection H as <-;
        cbn [Course.base_url] in Hs; injection Hs as <-; [apply Ends|].
      destruct url; [reflexivity|discriminate T].
  - intros k. unfold Course.__init__. cbn [bind].
    assert (R : rstrip_chars (Ascii.eqb SLASH) (url ++ repeat SLASH k)
                = rstrip_chars (Ascii.eqb SLASH) url).
    { unfold rstrip_chars. f_equal. rewrite rev_app_distr.
      clear. induction k as [|k IH]; [reflexivity|].
      replace (repeat SLASH (S k)) with (repeat SLASH k ++ [SLASH])
        by (rewrite <- repeat_cons; reflexivity).
      rewrite rev_app_distr. cbn [rev app lstrip_chars]. rewrite Ascii.eqb_refl.
      exact IH. }
    destruct url as [|c url].
    + destruct k as [|k]; [reflexivity|]. cbn [app repeat truthy bind].
      change (SLASH :: repeat SLASH k) with ([] ++ repeat SLASH (S k)).
      rewrite R. reflexivity.
    + cbn [app truthy bind]. change (c :: url ++ repeat SLASH k)
        with ((c :: url) ++ repeat SLASH k). rewrite R. reflexivity.
Qed.

End UrlFacts.

Lemma base_url_without_trailing_slash_witness :
  Course.__init__ None (VStr (lit "https://school.example//")) (VInt 5) (VStr (lit "t"))
  = Ok {| Course.base_url := VStr (lit "https://school.example");
          Course.course_id := VInt 5; Course.token := VStr (lit "t");
          Course._user_cache := [] |}
  /\ endswith [SLASH] (lit "https://school.example") = false.
Proof.
  split; [reflexivity|].
  apply (proj1 (base_url_without_trailing_slash None (lit "https://school.example//")
                  (VInt 5) (VStr (lit "t")))
           {| Course.base_url := VStr (lit "https://school.example");
              Course.course_id := VInt 5; Course.token := VStr (lit "t");
              Course._user_cache := [] |}); reflexivity.
Defined.

Lemma lookup_app_miss (d : dict) (k : str) (e : dict) :
  lookup d k = None -> lookup (d ++ e) k = lookup e k.
Proof.
  induction d as [|[k' v] d IH]; intros H; [reflexivity|].
  cbn [lookup app] in H |- *. destruct (str_eqb k' k); [discriminate H|auto].
Qed.

(** Reading a key that has just been set gives the value set. *)
Lemma get_set_key (k : str) (v : pyval) (d : dict) : get (Course.set_key k v d) k = v.
Proof.
  unfold get, get_default, Course.set_key, has_key.
  destruct (lookup d k) as [old|] eqn:L.
  - induction d as [|[k' v'] d IH]; [discriminate L|].
    cbn [lookup map fst] in L |- *. destruct (str_eqb k' k) eqn:E.
    + cbn [lookup]. now rewrite E.
    + cbn [lookup]. rewrite E. now apply IH.
  - rewrite (lookup_app_miss d k _ L). cbn [lookup]. now rewrite str_eqb_refl.
Qed.

Section ResolveFacts.

Variable float_repr : spec_float -> str.
Variable World : Type.
Variable get_user : str -> World -> result (option dict) * World.
Variable get_users : str -> World -> result (list dict) * World.

Local Abbreviation resolve :=
  (Course.resolve_canvas_user_id float_repr World get_user get_users).

Lemma lookup_candidates_found (c : Course.course) (user_ref : str) (cands : list str) :
  forall (cache : dict) (w : World) (cid : pyval) (cache' : dict) (w' : World),
    Course.lookup_candidates float_repr World get_user c user_ref cands cache w
    = (Ok (Some cid), cache', w') ->
    truthy cid = true /\ get cache' user_ref = cid.
Proof.
  induction cands as [|cand rest IH]; intros cache w cid cache' w' H;
    cbn [Course.lookup_candidates] in H; [discriminate H|].
  destruct (get_user (Course.user_url float_repr c cand) w) as [[[data|]|e] w1];
    [| |discriminate H].
  - destruct (truthy (get data (lit "id"))) eqn:T; [|now apply IH in H].
    injection H as <- <- _. split; [exact T|apply get_set_key].
  - now apply IH in H.
Qed.

(** X24: Every id that [resolve_canvas_user_id] finds for a reference that is
    not a number is in the cache of the course afterwards: asking again
    gives the same id without a request to the service, whatever the
    service would have answered. *)
Theorem resolved_user_id_is_cached (c : Course.course) (user_ref : str) (w : World)
    (id : pyval) (cache' : dict) (w' : World) :
  Cli.isdigit user_ref = false ->
  resolve c user_ref w = (Ok id, cache', w') ->
  truthy id = true ->
  forall w2 : World,
    resolve {| Course.base_url := Course.base_url c;
               Course.course_id := Course.course_id c;
               Course.token := Course.token c;
               Course._user_cache := cache' |} user_ref w2
    = (Ok id, cache', w2).
Proof.
  intros Hd H Hid w2.
  assert (G : get cache' user_ref = id).
  { unfold Course.resolve_canvas_user_id in H. rewrite Hd in H.
    destruct (truthy (get (Course._user_cache c) user_ref)) eqn:T.
    { now injection H as <- <- _. }
    destruct (negb (truthy (Course.base_url c) && truthy (Course.token c)));
      [discriminate H|].
    destruct (Course.lookup_candidates float_repr World get_user c user_ref
                (Course.candidates (strip user_ref)) (Course._user_cache c) w)
      as [[[[cid|]|e] cache1] w1] eqn:L; [| |discriminate H].
    - injection H as <- <- _. now apply lookup_candidates_found in L.
    - destruct (get_users (Course.roster_url float_repr c) w1) as [[users|e] w3].
      + destruct (truthy (get (fold_left (Course.remember_user float_repr) users cache1)
                            user_ref)) eqn:T2.
        * now injection H as <- <- _.
        * injection H as <- _ _. discriminate Hid.
      + injection H as <- _ _. discriminate Hid. }
  unfold Course.resolve_canvas_user_id. cbn [Course._user_cache].
  now rewrite Hd, G, Hid.
Qed.

End ResolveFacts.

Lemma resolved_user_id_is_cached_witness :
  let float_repr := fun _ : spec_float => lit "0.0" in
  let get_user := fun (url : str) (w : nat) =>
                    (Ok (Some [(lit "id", VInt 42)]) : result (option dict), S w) in
  let get_users := fun (url : str) (w : nat) => (Ok [] : result (list dict), S w) in
  let c := {| Course.base_url := VStr (lit "https://x"); Course.course_id := VInt 7;
              Course.token := VStr (lit "t"); Course._user_cache := [] |} in
  exists cache',
    Course.resolve_canvas_user_id float_repr nat get_user get_users c (lit "sis_user_id:ab") 0
    = (Ok (VInt 42), cache', 1)
    /\ forall w2,
         Course.resolve_canvas_user_id float_repr nat get_user get_users
           {| Course.base_url := Course.base_url c; Course.course_id := Course.course_id c;
              Course.token := Course.token c; Course._user_cache := cache' |}
           (lit "sis_user_id:ab") w2
         = (Ok (VInt 42), cache', w2).
Proof.
  intros float_repr get_user get_users c. eexists. split; [vm_compute; reflexivity|].
  apply (resolved_user_id_is_cached float_repr nat get_user get_users c
           (lit "sis_user_id:ab") 0 (VInt 42) _ 1); reflexivity.
Defined.

Section PromptFacts.

Variable float_repr : spec_float -> str.

Lemma ask_picks_an_item (items : list dict) (inputs : list str) :
  forall (printed : list str) (item : dict) (out : list str),
    ask items inputs printed = (Picked item, out) -> In item items.
Proof.
  induction inputs as [|line rest IH]; intros printed item out H;
    cbn [ask] in H; [discriminate H|].
  destruct (str_eqb (lower (strip line)) (lit "q")
            || str_eqb (lower (strip line)) (lit "quit")
            || str_eqb (lower (strip line)) (lit "exit")); [discriminate H|].
  destruct (Cli.isdigit (lower (strip line))); [|now apply IH in H].
  destruct (PyNum.py_int (lower (strip line))) as [num|]; [|discriminate H].
  destruct ((1 <=? num)%Z && (num <=? Z.of_nat (length items))%Z); [|now apply IH in H].
  destruct (nth_error items (Z.to_nat (num - 1))) as [it|] eqn:N; [|discriminate H].
  injection H as <- _. eapply nth_error_In; eauto.
Qed.

Lemma ask_never_out_of_range (items : list dict) (inputs : list str) :
  forall (printed : list str) (out : list str),
    ask items inputs printed <> (Crashed IndexError, out).
Proof.
  induction inputs as [|line rest IH]; intros printed out H;
    cbn [ask] in H; [discriminate H|].
  destruct (str_eqb (lower (strip line)) (lit "q")
            || str_eqb (lower (strip line)) (lit "quit")
            || str_eqb (lower (strip line)) (lit "exit")); [discriminate H|].
  destruct (Cli.isdigit (lower (strip line))); [|now apply IH in H].
  destruct (PyNum.py_int (lower (strip line))) as [num|]; [|discriminate H].
  destruct ((1 <=? num)%Z && (num <=? Z.of_nat (length items))%Z) eqn:R;
    [|now apply IH in H].
  destruct (nth_error items (Z.to_nat (num - 1))) as [it|] eqn:N; [discriminate H|].
  apply andb_prop in R as [R1 R2]. apply Z.leb_le in R1, R2.
  apply nth_error_None in N. lia.
Qed.

(** X25: Whatever the user types, what [_prompt_choice] returns is [None] or an
    item of the list it was given, the index is never out of range, and
    for an empty list it returns [None] without reading a line. *)
Theorem prompt_choice_picks_from_the_list (items : list dict) (label_key : str)
    (inputs : list str) :
  (forall item out,
      _prompt_choice float_repr items label_key inputs = (Picked item, out) ->
      In item items)
  /\ (forall out,
        _prompt_choice float_repr items label_key inputs <> (Crashed IndexError, out))
  /\ (items = [] ->
      _prompt_choice float_repr items label_key inputs
      = (NoChoice, [lit "No items found."])).
Proof.
  unfold _prompt_choice. destruct items as [|i0 rest].
  - split; [intros item out H; discriminate H|].
    split; [intros out H; discriminate H|reflexivity].
  - split; [intros item out H; now apply ask_picks_an_item in H|].
    split; [intros out; apply ask_never_out_of_range|intros H; discriminate H].
Qed.

End PromptFacts.

(** ** The CSV reader *)

Lemma feed_app (a b : str) :
  forall r, Csv.feed (a ++ b) r
            = match Csv.feed a r with Some r' => Csv.feed b r' | None => None end.
Proof.
  induction a as [|c a IH]; intros r; [reflexivity|].
  cbn [app Csv.feed]. destruct (Csv.process (Some c) r); [apply IH|reflexivity].
Qed.

Lemma rows_from_cons (line : str) (rest : list str) (r0 r1 : Csv.reader) :
  Csv.feed line r0 = Some r1 ->
  Csv.rows_from (line :: rest) r0 = end_line r1 (Csv.rows_from rest).
Proof.
  intros H. cbn [Csv.rows_from]. unfold Csv.read_line, end_line. rewrite H. reflexivity.
Qed.

Lemma rows_from_failed (s : str) :
  forall (cur : str) (r0 : Csv.reader),
    Csv.feed cur r0 = None ->
    Csv.rows_from (splitlines_from cur s) r0 = ([], true).
Proof.
  assert (F : forall cur rest r0, Csv.feed cur r0 = None ->
                                  Csv.rows_from (cur :: rest) r0 = ([], true)).
  { intros cur rest r0 H. cbn [Csv.rows_from]. unfold Csv.read_line. now rewrite H. }
  induction s as [|c s IH]; intros cur r0 H; cbn [splitlines_from].
  - destruct cur; [discriminate H|now apply F].
  - destruct (is_linebreak c); [now apply F|].
    apply IH. now rewrite feed_app, H.
Qed.

Lemma end_line_ext (r : Csv.reader) (k k' : Csv.reader -> list (list str) * bool) :
  (forall r', k r' = k' r') -> end_line r k = end_line r k'.
Proof.
  intros H. unfold end_line. destruct (Csv.process None r) as [r'|]; [|reflexivity].
  rewrite !H. reflexivity.
Qed.

(** [stream] is the reader on the lines of the text. *)
Lemma stream_from (n : nat) :
  forall (s cur : str) (r0 r1 : Csv.reader),
    length s <= n ->
    Csv.feed cur r0 = Some r1 ->
    Csv.rows_from (splitlines_from cur s) r0
    = stream s (match cur with [] => false | _ => true end) r1.
Proof.
  induction n as [|n IH]; intros s cur r0 r1 Hn H.
  - destruct s; [|cbn [length] in Hn; lia]. cbn [splitlines_from stream].
    destruct cur as [|x cur]; [now injection H as ->|].
    now apply rows_from_cons.
  - destruct s as [|c s].
    { cbn [splitlines_from stream].
      destruct cur as [|x cur]; [now injection H as ->|]. now apply rows_from_cons. }
    cbn [length] in Hn. cbn [splitlines_from stream]. destruct (is_linebreak c).
    + rewrite (rows_from_cons _ _ _ _ H).
      destruct s as [|d s']; [reflexivity|].
      destruct (Ascii.eqb c CR && Ascii.eqb d NL).
      * apply end_line_ext. intros r'. apply (IH s' [] r' r'); [cbn [length] in Hn; lia|reflexivity].
      * apply end_line_ext. intros r'. apply (IH (d :: s') [] r' r'); [lia|reflexivity].
    + destruct (Csv.process (Some c) r1) as [r2|] eqn:P.
      * rewrite (IH s (cur ++ [c]) r0 r2); [|lia|].
        -- destruct cur; reflexivity.
        -- rewrite feed_app, H. cbn [Csv.feed]. now rewrite P.
      * apply rows_from_failed. rewrite feed_app, H. cbn [Csv.feed]. now rewrite P.
Qed.

Lemma reader_rows_stream (text : str) :
  Csv.reader_rows (splitlines text) = stream text false Csv.fresh.
Proof.
  unfold Csv.reader_rows, splitlines.
  apply (stream_from (length text) text [] Csv.fresh Csv.fresh (le_n _) eq_refl).
Qed.

(** *** The reader never stops early, and fails on long fields only *)

Lemma field_limit_pos : 0 < Csv.field_limit.
Proof. unfold Csv.field_limit. lia. Qed.

Lemma is_newline_linebreak (c : ascii) : is_linebreak c = false -> Csv.is_newline c = false.
Proof.
  intros H. unfold Csv.is_newline.
  destruct (Ascii.eqb_spec c NL) as [->|]; [discriminate H|].
  destruct (Ascii.eqb_spec c CR) as [->|]; [discriminate H|]. reflexivity.
Qed.

(** The end of a line closes the record or leaves a quoted field open. *)
Lemma process_end (r : Csv.reader) :
  exists r', Csv.process None r = Some r'
             /\ (Csv.st r' = Csv.START_RECORD
                 \/ r' = r /\ Csv.st r = Csv.IN_QUOTED_FIELD).
Proof.
  unfold Csv.process. destruct (Csv.st r) eqn:E; eexists; (split; [reflexivity|]); auto.
Qed.

(** A character that is no line boundary: the reader fails on a full
    field only, and the field grows by one character at most. *)
Lemma process_char (c : ascii) (r : Csv.reader) :
  is_linebreak c = false ->
  Csv.st r <> Csv.EAT_CRNL ->
  length (Csv.field r) < Csv.field_limit ->
  exists r', Csv.process (Some c) r = Some r'
             /\ Csv.st r' <> Csv.EAT_CRNL
             /\ Csv.st r' <> Csv.START_RECORD
             /\ length (Csv.field r') <= S (length (Csv.field r)).
Proof.
  intros Hc Hs Hl. apply is_newline_linebreak in Hc.
  assert (A : forall s, s <> Csv.EAT_CRNL -> s <> Csv.START_RECORD ->
                exists r', Csv.add_char c s r = Some r'
                           /\ Csv.st r' <> Csv.EAT_CRNL
                           /\ Csv.st r' <> Csv.START_RECORD
                           /\ length (Csv.field r') <= S (length (Csv.field r))).
  { intros s H1 H2. unfold Csv.add_char.
    destruct (Nat.leb_spec Csv.field_limit (length (Csv.field r))); [lia|].
    eexists. split; [reflexivity|]. cbn [Csv.st Csv.field].
    rewrite length_app. cbn [length]. repeat split; auto; lia. }
  unfold Csv.process. rewrite Hc.
  destruct (Csv.st r) eqn:E; [| | | | |contradiction];
    repeat match goal with
           | |- context [if ?b then _ else _] => destruct b
           end;
    try (apply A; discriminate);
    (eexists; split; [reflexivity|]; cbn [Csv.st Csv.field Csv.goto Csv.save_field length];
     repeat split; try discriminate; lia).
Qed.

Lemma end_line_no_error (r : Csv.reader) (k : Csv.reader -> list (list str) * bool) :
  (forall r', Csv.st r' <> Csv.EAT_CRNL ->
              length (Csv.field r') <= length (Csv.field r) -> no_error (k r')) ->
  no_error (end_line r k).
Proof.
  intros H. unfold end_line.
  destruct (process_end r) as (r' & -> & [E|[-> E]]).
  - rewrite E. specialize (H Csv.fresh). unfold no_error in *.
    destruct (k Csv.fresh) as [rows failed]. cbn [snd] in *.
    apply H; [discriminate|cbn [Csv.field Csv.fresh length]; lia].
  - rewrite E. apply H; [rewrite E; discriminate|lia].
Qed.

Lemma rows_from_nil_no_error (r : Csv.reader) : no_error (Csv.rows_from [] r).
Proof. unfold no_error. cbn [Csv.rows_from]. destruct (Csv.st r); reflexivity. Qed.

Lemma stream_no_error (n : nat) :
  forall (s : str) (b : bool) (r : Csv.reader),
    length s <= n ->
    Csv.st r <> Csv.EAT_CRNL ->
    length (Csv.field r) + length s <= Csv.field_limit ->
    no_error (stream s b r).
Proof.
  induction n as [|n IH]; intros s b r Hn Hs Hl.
  - destruct s; [|cbn [length] in Hn; lia]. cbn [stream]. destruct b.
    + apply end_line_no_error. intros. apply rows_from_nil_no_error.
    + apply rows_from_nil_no_error.
  - destruct s as [|c s].
    { cbn [stream]. destruct b.
      + apply end_line_no_error. intros. apply rows_from_nil_no_error.
      + apply rows_from_nil_no_error. }
    cbn [length] in Hn, Hl. cbn [stream]. destruct (is_linebreak c) eqn:Hc.
    + destruct s as [|d s'].
      * apply end_line_no_error. intros. apply rows_from_nil_no_error.
      * cbn [length] in Hn, Hl.
        destruct (Ascii.eqb c CR && Ascii.eqb d NL);
          apply end_line_no_error; intros r' H1 H2; apply IH; auto; cbn [length]; lia.
    + destruct (process_char c r Hc Hs) as (r' & -> & H1 & _ & H2); [lia|].
      apply IH; [lia|exact H1|lia].
Qed.

(** A bare text that is longer than the limit. *)
Lemma stream_long_field (f : str) :
  forall (b : bool) (r : Csv.reader),
    bare_ok f = true ->
    Csv.st r = Csv.IN_FIELD ->
    length (Csv.field r) <= Csv.field_limit ->
    Csv.field_limit < length (Csv.field r) + length f ->
    stream f b r = ([], true).
Proof.
  induction f as [|c f IH]; intros b r Hf Hs Hl Hn.
  - cbn [length] in Hn. lia.
  - cbn [bare_ok forallb] in Hf. apply andb_prop in Hf as [Hc Hf].
    apply negb_true_iff in Hc. apply orb_false_iff in Hc as [Hc Hb].
    apply orb_false_iff in Hc as [Hc Hq].
    cbn [stream]. rewrite Hb. unfold Csv.process. rewrite Hs.
    rewrite (is_newline_linebreak c Hb), Hc. unfold Csv.add_char.
    destruct (Nat.leb_spec Csv.field_limit (length (Csv.field r))); [reflexivity|].
    apply IH; [exact Hf|reflexivity| |]; cbn [Csv.field]; rewrite length_app;
      cbn [length] in *; lia.
Qed.

Lemma not_csv_error (text : str) :
  snd (Csv.reader_rows (splitlines text)) = false ->
  parse_quiz_csv_of_text text <> CsvError.
Proof.
  unfold parse_quiz_csv_of_text. destruct (Csv.reader_rows (splitlines text)) as [rows failed].
  cbn [snd]. intros ->. destruct rows as [|h t]; [discriminate|].
  destruct (parse_quiz_csv h t); discriminate.
Qed.

(** X26: The reader of [parse_quiz_csv] raises [csv.Error] for a field of more
    than 131072 characters only: a text of at most that many characters
    never raises it, and the bound is exact, since a text of more
    characters without comma, quote and line boundary does. *)
Theorem csv_error_only_for_long_fields :
  (forall text : str,
      length text <= Csv.field_limit -> parse_quiz_csv_of_text text <> CsvError)
  /\ (forall text : str,
        bare_ok text = true -> Csv.field_limit < length text ->
        parse_quiz_csv_of_text text = CsvError).
Proof.
  split.
  - intros text H. apply not_csv_error. rewrite reader_rows_stream.
    apply (stream_no_error (length text)); [lia|discriminate|].
    cbn [Csv.field Csv.fresh length Nat.add]. exact H.
  - intros text Hb Hl. unfold parse_quiz_csv_of_text. rewrite reader_rows_stream.
    destruct text as [|c f]; [cbn [length] in Hl; lia|].
    pose proof Hb as Hf. cbn [bare_ok forallb] in Hf. apply andb_prop in Hf as [Hc Hf].
    apply negb_true_iff in Hc. apply orb_false_iff in Hc as [Hc Hk].
    apply orb_false_iff in Hc as [Hc Hq].
    cbn [stream]. rewrite Hk. unfold Csv.process. cbn [Csv.st Csv.fresh].
    rewrite (is_newline_linebreak c Hk), Hq, Hc. unfold Csv.add_char.
    change (length (Csv.field Csv.fresh)) with 0.
    pose proof field_limit_pos as P.
    destruct (Nat.leb_spec Csv.field_limit 0); [lia|].
    rewrite stream_long_field; [reflexivity|exact Hf|reflexivity| |];
      unfold Csv.fresh; cbn [Csv.field app length] in *; lia.
Qed.

(** *** The empty file *)

Lemma end_line_yields (r : Csv.reader) (k : Csv.reader -> list (list str) * bool) :
  (forall r', Csv.st r' = Csv.IN_QUOTED_FIELD -> yields (k r')) ->
  yields (end_line r k).
Proof.
  intros H. unfold end_line.
  destruct (process_end r) as (r' & -> & [E|[-> E]]).
  - rewrite E. destruct (k Csv.fresh). left. discriminate.
  - rewrite E. now apply H.
Qed.

Lemma rows_from_nil_yields (r : Csv.reader) :
  Csv.st r = Csv.IN_QUOTED_FIELD -> yields (Csv.rows_from [] r).
Proof. intros E. cbn [Csv.rows_from]. rewrite E. left. discriminate. Qed.

Lemma stream_yields (n : nat) :
  forall (s : str) (b : bool) (r : Csv.reader),
    length s <= n ->
    s <> [] \/ b = true \/ Csv.st r = Csv.IN_QUOTED_FIELD ->
    yields (stream s b r).
Proof.
  induction n as [|n IH]; intros s b r Hn H.
  - destruct s; [|cbn [length] in Hn; lia]. cbn [stream].
    destruct H as [H|[->|H]]; [contradiction| |].
    + apply end_line_yields. apply rows_from_nil_yields.
    + destruct b; [apply end_line_yields|]; now try apply rows_from_nil_yields.
  - destruct s as [|c s].
    { cbn [stream]. destruct H as [H|[->|H]]; [contradiction| |].
      + apply end_line_yields. apply rows_from_nil_yields.
      + destruct b; [apply end_line_yields|]; now try apply rows_from_nil_yields. }
    cbn [length] in Hn. cbn [stream]. destruct (is_linebreak c).
    + destruct s as [|d s'].
      * apply end_line_yields. apply rows_from_nil_yields.
      * cbn [length] in Hn.
        destruct (Ascii.eqb c CR && Ascii.eqb d NL);
          apply end_line_yields; intros r' E; apply IH; auto; cbn [length]; lia.
    + destruct (Csv.process (Some c) r) as [r'|]; [|now right].
      apply IH; [lia|auto].
Qed.

(** X27: [parse_quiz_csv] raises [StopIteration] for the empty file and for no
    other: [reader.__next__()] finds a header row, or raises [csv.Error],
    whenever the text has a character. *)
Theorem stop_iteration_iff_empty_file (text : str) :
  parse_quiz_csv_of_text text = StopIteration <-> text = [].
Proof.
  split; [|intros ->; reflexivity].
  intros H. destruct text as [|c s]; [reflexivity|exfalso].
  unfold parse_quiz_csv_of_text in H. rewrite reader_rows_stream in H.
  destruct (stream_yields (length (c :: s)) (c :: s) false Csv.fresh (le_n _)) as [Y|Y];
    [left; discriminate| |];
    destruct (stream (c :: s) false Csv.fresh) as [[|h t] failed]; cbn [fst snd] in Y.
  - contradiction.
  - destruct (parse_quiz_csv h t); [destruct failed|]; discriminate H.
  - subst failed. discriminate H.
  - destruct (parse_quiz_csv h t); [destruct failed|]; discriminate H.
Qed.

(** *** Reading what was written *)

Lemma stream_char (c : ascii) (s : str) (b : bool) (r : Csv.reader) :
  is_linebreak c = false ->
  stream (c :: s) b r
  = match Csv.process (Some c) r with
    | None => ([], true)
    | Some r' => stream s true r'
    end.
Proof. intros H. cbn [stream]. now rewrite H. Qed.

Lemma stream_break (c : ascii) (s : str) (b : bool) (r : Csv.reader) :
  is_linebreak c = true ->
  stream (c :: s) b r = end_line r (stream (after_break c s) false).
Proof.
  intros H. cbn [stream]. rewrite H. destruct s as [|d s']; [reflexivity|].
  cbn [after_break]. destruct (Ascii.eqb c CR && Ascii.eqb d NL); reflexivity.
Qed.

Lemma after_break_content (c : ascii) (f tail : str) :
  after_break c (double_quotes f ++ DQ :: tail) = double_quotes (after_break c f) ++ DQ :: tail.
Proof.
  destruct f as [|d f]; cbn [double_quotes flat_map app after_break].
  - replace (Ascii.eqb DQ NL) with false by reflexivity. now rewrite andb_false_r.
  - destruct (Ascii.eqb_spec d DQ) as [->|Hd].
    + cbn [app after_break]. replace (Ascii.eqb DQ NL) with false by reflexivity.
      rewrite andb_false_r. cbn [double_quotes flat_map]. rewrite Ascii.eqb_refl. reflexivity.
    + cbn [app after_break]. destruct (Ascii.eqb c CR && Ascii.eqb d NL); [reflexivity|].
      cbn [double_quotes flat_map]. destruct (Ascii.eqb_spec d DQ); [contradiction|reflexivity].
Qed.

Lemma after_break_unbroken (c : ascii) (f : str) :
  is_linebreak c = true ->
  unbroken (c :: f) = unbroken (after_break c f) /\ length (after_break c f) <= length f.
Proof.
  intros H. unfold unbroken. cbn [filter]. rewrite H. cbn [negb].
  destruct f as [|d f]; [split; [reflexivity|cbn; lia]|]. cbn [after_break].
  destruct (Ascii.eqb c CR && Ascii.eqb d NL) eqn:E; [|split; [reflexivity|lia]].
  apply andb_prop in E as [_ E]. apply Ascii.eqb_eq in E. subst d.
  split; [reflexivity|cbn [length]; lia].
Qed.

Lemma in_quoted_quote (acc : str) (done : list str) :
  Csv.process (Some DQ)
    {| Csv.st := Csv.IN_QUOTED_FIELD; Csv.field := acc; Csv.fields := done |}
  = Some {| Csv.st := Csv.QUOTE_IN_QUOTED_FIELD; Csv.field := acc; Csv.fields := done |}.
Proof. reflexivity. Qed.

Lemma in_quoted_char (c : ascii) (acc : str) (done : list str) :
  Ascii.eqb c DQ = false ->
  Csv.process (Some c)
    {| Csv.st := Csv.IN_QUOTED_FIELD; Csv.field := acc; Csv.fields := done |}
  = if Csv.field_limit <=? length acc then None
    else Some {| Csv.st := Csv.IN_QUOTED_FIELD; Csv.field := acc ++ [c];
                 Csv.fields := done |}.
Proof. intros H. unfold Csv.process. cbn [Csv.st]. now rewrite H. Qed.

Lemma quote_quote (acc : str) (done : list str) :
  Csv.process (Some DQ)
    {| Csv.st := Csv.QUOTE_IN_QUOTED_FIELD; Csv.field := acc; Csv.fields := done |}
  = if Csv.field_limit <=? length acc then None
    else Some {| Csv.st := Csv.IN_QUOTED_FIELD; Csv.field := acc ++ [DQ];
                 Csv.fields := done |}.
Proof. reflexivity. Qed.

Lemma in_field_char (c : ascii) (acc : str) (done : list str) :
  Csv.is_newline c = false -> Ascii.eqb c COMMA = false ->
  Csv.process (Some c)
    {| Csv.st := Csv.IN_FIELD; Csv.field := acc; Csv.fields := done |}
  = if Csv.field_limit <=? length acc then None
    else Some {| Csv.st := Csv.IN_FIELD; Csv.field := acc ++ [c]; Csv.fields := done |}.
Proof. intros H1 H2. unfold Csv.process. cbn [Csv.st]. now rewrite H1, H2. Qed.

(** The content of a quoted field and the quote that closes it. *)
Lemma quoted_content (n : nat) :
  forall (f acc : str) (done : list str) (tail : str) (b : bool),
    length f <= n ->
    length acc + length f <= Csv.field_limit ->
    stream (double_quotes f ++ DQ :: tail) b
      {| Csv.st := Csv.IN_QUOTED_FIELD; Csv.field := acc; Csv.fields := done |}
    = stream tail true
        {| Csv.st := Csv.QUOTE_IN_QUOTED_FIELD; Csv.field := acc ++ unbroken f;
           Csv.fields := done |}.
Proof.
  induction n as [|n IH]; intros f acc done tail b Hn Hl.
  - destruct f; [|cbn [length] in Hn; lia].
    cbn [double_quotes flat_map app]. rewrite stream_char by reflexivity.
    cbn [unbroken filter]. now rewrite app_nil_r.
  - destruct f as [|c f].
    { cbn [double_quotes flat_map app]. rewrite stream_char by reflexivity.
      cbn [unbroken filter]. now rewrite app_nil_r. }
    cbn [length] in Hn, Hl. destruct (is_linebreak c) eqn:Hc.
    + assert (Hq : Ascii.eqb c DQ = false).
      { destruct (Ascii.eqb_spec c DQ) as [->|]; [discriminate Hc|reflexivity]. }
      destruct (after_break_unbroken c f Hc) as [-> Hlen].
      cbn [double_quotes flat_map]. rewrite Hq. cbn [app].
      rewrite stream_break by exact Hc.
      unfold end_line, Csv.process. cbn [Csv.st].
      fold (double_quotes f). rewrite after_break_content.
      apply IH; lia.
    + destruct (Ascii.eqb_spec c DQ) as [->|Hq].
      * cbn [double_quotes flat_map]. rewrite Ascii.eqb_refl. cbn [app].
        rewrite stream_char by reflexivity. rewrite in_quoted_quote.
        rewrite stream_char by reflexivity. rewrite quote_quote.
        destruct (Nat.leb_spec Csv.field_limit (length acc)); [lia|].
        fold (double_quotes f). rewrite IH; [|lia|rewrite length_app; cbn [length]; lia].
        unfold unbroken. cbn [filter]. replace (is_linebreak DQ) with false by reflexivity.
        cbn [negb]. now rewrite <- app_assoc.
      * apply Ascii.eqb_neq in Hq.
        cbn [double_quotes flat_map]. rewrite Hq. cbn [app].
        rewrite stream_char by exact Hc. rewrite in_quoted_char by exact Hq.
        destruct (Nat.leb_spec Csv.field_limit (length acc)); [lia|].
        fold (double_quotes f). rewrite IH; [|lia|rewrite length_app; cbn [length]; lia].
        unfold unbroken. cbn [filter]. rewrite Hc. cbn [negb]. now rewrite <- app_assoc.
Qed.

Lemma bare_char (c : ascii) :
  negb (Ascii.eqb c COMMA || Ascii.eqb c DQ || is_linebreak c) = true ->
  Ascii.eqb c COMMA = false /\ Ascii.eqb c DQ = false
  /\ is_linebreak c = false /\ Csv.is_newline c = false.
Proof.
  intros H. apply negb_true_iff in H. apply orb_false_iff in H as [H Hb].
  apply orb_false_iff in H as [Hc Hq]. auto using is_newline_linebreak.
Qed.

Lemma bare_unbroken (f : str) : bare_ok f = true -> unbroken f = f.
Proof.
  induction f as [|c f IH]; [reflexivity|]. cbn [bare_ok forallb].
  intros H. apply andb_prop in H as [Hc Hf]. apply bare_char in Hc as (_ & _ & Hb & _).
  unfold unbroken. cbn [filter]. rewrite Hb. cbn [negb]. f_equal. now apply IH.
Qed.

(** The rest of a bare field. *)
Lemma bare_rest (f : str) :
  forall (acc : str) (done : list str) (tail : str),
    bare_ok f = true ->
    length acc + length f <= Csv.field_limit ->
    stream (f ++ tail) true
      {| Csv.st := Csv.IN_FIELD; Csv.field := acc; Csv.fields := done |}
    = stream tail true
        {| Csv.st := Csv.IN_FIELD; Csv.field := acc ++ f; Csv.fields := done |}.
Proof.
  induction f as [|c f IH]; intros acc done tail Hf Hl.
  - cbn [app]. now rewrite app_nil_r.
  - cbn [bare_ok forallb] in Hf. apply andb_prop in Hf as [Hc Hf].
    apply bare_char in Hc as (Hc & Hq & Hb & Hn). cbn [length] in Hl.
    cbn [app]. rewrite stream_char by exact Hb. rewrite in_field_char by assumption.
    destruct (Nat.leb_spec Csv.field_limit (length acc)); [lia|].
    rewrite IH; [|exact Hf|rewrite length_app; cbn [length]; lia].
    now rewrite <- app_assoc.
Qed.


Lemma read_field (qf : bool * str) (r : Csv.reader) (tail : str) (b : bool) :
  writable qf = true ->
  at_start r ->
  exists r' b',
    stream (written qf ++ tail) b r = stream tail b' r'
    /\ field_read r' (Csv.fields r) (unbroken (snd qf))
    /\ (b' = true /\ Csv.st r' <> Csv.START_RECORD
        \/ qf = (false, []) /\ r' = r /\ b' = b).
Proof.
  destruct qf as [q f]. unfold writable, written. cbn [fst snd].
  intros W [Hs Hf]. apply andb_prop in W as [W L]. apply Nat.leb_le in L.
  destruct q.
  - cbn [app]. rewrite <- app_assoc. cbn [app].
    rewrite stream_char by reflexivity.
    assert (P : Csv.process (Some DQ) r = Some (Csv.goto Csv.IN_QUOTED_FIELD r)).
    { unfold Csv.process. destruct Hs as [-> | ->]; reflexivity. }
    rewrite P. unfold Csv.goto. rewrite Hf.
    rewrite (quoted_content (length f)); [|lia|cbn [length]; lia].
    eexists _, true. split; [reflexivity|]. unfold field_read.
    cbn [Csv.st Csv.field Csv.fields app].
    split; [repeat split; try discriminate; reflexivity|].
    left. split; [reflexivity|discriminate].
  - cbn [orb] in W. destruct f as [|c f].
    + cbn [app]. exists r, b. split; [reflexivity|]. unfold field_read.
      split; [|right; repeat split; reflexivity]. cbn [unbroken filter]. clear L.
      destruct Hs as [Hs|Hs]; rewrite Hs; repeat split; auto; discriminate.
    + rewrite (bare_unbroken _ W).
      cbn [bare_ok forallb] in W. apply andb_prop in W as [Hc W].
      apply bare_char in Hc as (Hc & Hq & Hk & Hn). cbn [length] in L.
      cbn [app]. rewrite stream_char by exact Hk.
      assert (P : Csv.process (Some c) r = Csv.add_char c Csv.IN_FIELD r).
      { unfold Csv.process. destruct Hs as [-> | ->]; rewrite Hn, Hq, Hc; reflexivity. }
      rewrite P. unfold Csv.add_char. rewrite Hf. cbn [length].
      pose proof field_limit_pos.
      destruct (Nat.leb_spec Csv.field_limit 0); [lia|].
      rewrite bare_rest; [|exact W|cbn [app length]; lia].
      eexists _, true. split; [reflexivity|]. unfold field_read.
      cbn [Csv.st Csv.field Csv.fields app].
      split; [repeat split; try discriminate; reflexivity|].
      left. split; [reflexivity|discriminate].
Qed.

Lemma comma_saves (r' : Csv.reader) (done : list str) (f tail : str) (b : bool) :
  field_read r' done f ->
  stream (COMMA :: tail) b r'
  = stream tail true
      {| Csv.st := Csv.START_FIELD; Csv.field := []; Csv.fields := done ++ [f] |}.
Proof.
  intros (H1 & H2 & <- & <-). rewrite stream_char by reflexivity.
  unfold Csv.process. destruct (Csv.st r'); try reflexivity; contradiction.
Qed.

Lemma end_saves (r' : Csv.reader) (done : list str) (f tail : str) :
  field_read r' done f ->
  Csv.st r' <> Csv.START_RECORD ->
  ending tail ->
  stream tail true r'
  = let '(rows, failed) := stream (tl tail) false Csv.fresh in
    ((done ++ [f]) :: rows, failed).
Proof.
  intros (H1 & H2 & <- & <-) H3 [-> | (more & ->)].
  - cbn [stream tl]. unfold end_line, Csv.process.
    destruct (Csv.st r'); try reflexivity; contradiction.
  - rewrite stream_break by reflexivity.
    replace (after_break NL more) with more by (destruct more; reflexivity).
    cbn [tl]. unfold end_line, Csv.process.
    destruct (Csv.st r'); try reflexivity; contradiction.
Qed.

Lemma csv_line_cons (qf qf' : bool * str) (row : list (bool * str)) :
  csv_line (qf :: qf' :: row) = written qf ++ COMMA :: csv_line (qf' :: row).
Proof. reflexivity. Qed.

(** A row and what ends it. *)
Lemma read_row (row : list (bool * str)) :
  forall (r : Csv.reader) (tail : str) (b : bool),
    row <> [] ->
    forallb writable row = true ->
    at_start r ->
    (Csv.st r = Csv.START_RECORD -> row <> [(false, [])]) ->
    (Csv.st r = Csv.START_FIELD -> b = true) ->
    ending tail ->
    stream (csv_line row ++ tail) b r
    = let '(rows, failed) := stream (tl tail) false Csv.fresh in
      ((Csv.fields r ++ map (fun qf => unbroken (snd qf)) row) :: rows, failed).
Proof.
  induction row as [|qf row IH]; intros r tail b Hne W Hr H1 Hb He; [contradiction|].
  cbn [forallb] in W. apply andb_prop in W as [Wq W].
  destruct row as [|qf' row].
  - unfold csv_line. cbn [map join].
    destruct (read_field qf r tail b Wq Hr)
      as (r' & b' & -> & Hf & [[-> Hs] |(-> & -> & ->)]).
    + now rewrite (end_saves r' _ _ tail Hf Hs He).
    + destruct Hr as [[Hs|Hs] _]; [now destruct (H1 Hs)|].
      rewrite (Hb Hs). rewrite (end_saves r _ _ tail Hf); [reflexivity| |exact He].
      rewrite Hs. discriminate.
  - rewrite csv_line_cons, <- app_assoc. cbn [app].
    destruct (read_field qf r (COMMA :: csv_line (qf' :: row) ++ tail) b Wq Hr)
      as (r' & b' & -> & Hf & _).
    rewrite (comma_saves r' _ _ _ _ Hf).
    rewrite IH; [|discriminate|exact W|split; [now right|reflexivity]
                 |discriminate|reflexivity|exact He].
    cbn [Csv.fields map]. now rewrite <- app_assoc.
Qed.

Lemma csv_text_cons (row row' : list (bool * str)) (rows : list (list (bool * str))) :
  csv_text (row :: row' :: rows) = csv_line row ++ NL :: csv_text (row' :: rows).
Proof. reflexivity. Qed.

Lemma row_ok_writable (row : list (bool * str)) :
  row_ok row = true ->
  row <> [] /\ row <> [(false, [])] /\ forallb writable row = true.
Proof.
  destruct row as [|[[] f] row]; [discriminate| |].
  - intros H. repeat split; try discriminate. exact H.
  - destruct f as [|c f]; [destruct row; [discriminate|]|];
      intros H; repeat split; try discriminate; exact H.
Qed.

Lemma stream_csv_text (rows : list (list (bool * str))) :
  forallb row_ok rows = true ->
  stream (csv_text rows) false Csv.fresh
  = (map (map (fun qf => unbroken (snd qf))) rows, false).
Proof.
  induction rows as [|row rows IH]; intros H; [reflexivity|].
  cbn [forallb] in H. apply andb_prop in H as [Hrow Hrows].
  apply row_ok_writable in Hrow as (Hne & H1 & W).
  assert (S0 : at_start Csv.fresh) by (split; [now left|reflexivity]).
  destruct rows as [|row' rows].
  - unfold csv_text. cbn [map join]. rewrite <- (app_nil_r (csv_line row)).
    rewrite (read_row row Csv.fresh [] false Hne W S0); [reflexivity|auto|discriminate|now left].
  - rewrite csv_text_cons.
    rewrite (read_row row Csv.fresh (NL :: csv_text (row' :: rows)) false Hne W S0);
      [|auto|discriminate|right; eauto].
    cbn [tl]. rewrite (IH Hrows). reflexivity.
Qed.

(** X28: A CSV text whose fields stand between quotes, or bare when they have
    no comma, quote or line boundary, is read back row by row and field
    by field, but without the line boundaries of the fields: the text is
    cut into lines by [splitlines] before the reader sees it, and the
    reader joins the lines of a quoted field without a line break. *)
Theorem csv_read_back_without_line_breaks (rows : list (list (bool * str))) :
  forallb row_ok rows = true ->
  Csv.reader_rows (splitlines (csv_text rows))
  = (map (map (fun qf => unbroken (snd qf))) rows, false).
Proof. intros H. rewrite reader_rows_stream. now apply stream_csv_text. Qed.

Lemma csv_read_back_without_line_breaks_witness :
  Csv.reader_rows
    (splitlines
       (csv_text [[(false, lit "name"); (false, lit "id"); (true, lit "1: Why, and how?")];
                  [(true, lit "Doe, Jane"); (false, lit "55");
                   (true, lit "first line" ++ [NL] ++ lit "second line")]]))
  = ([[lit "name"; lit "id"; lit "1: Why, and how?"];
      [lit "Doe, Jane"; lit "55"; lit "first linesecond line"]], false).
Proof.
  apply (csv_read_back_without_line_breaks
           [[(false, lit "name"); (false, lit "id"); (true, lit "1: Why, and how?")];
            [(true, lit "Doe, Jane"); (false, lit "55");
             (true, lit "first line" ++ [NL] ++ lit "second line")]]).
  reflexivity.
Defined.
